(** * gibwork-bot: the bounty transaction pipeline

    A shallow embedding of the polling bot of this repository:

    - [src/src/github.ts]: [parseBountyCommand], [getRecentComments],
      [getIssueFromUrl], [getRepoInfoFromUrl], [commentOnIssue];
    - [src/src/config.ts], its first part: [AUTHORIZED_USERS],
      [isAuthorized];
    - [src/src/config.ts], its last part, the poll loop:
      [processedComments], [checkForBountyCommands],
      [cleanupProcessedComments];
    - [src/unnamed/part_000], the bounty module: [createBountyTransaction],
      [checkTransactionStatus], [signAndSendTransaction],
      [processBountyCommand].

    The middle part of [src/src/config.ts], a server for web hooks, is a
    second entry point that does not use the registry of the poll loop; it
    is embedded in the module [Webhook], as code that writes the calls it
    makes: [parseCommand], [isAuthorizedUser], [getRepoLanguage],
    [createBounty], [signTransaction], the handler of
    [issue_comment.created], and the choice of the format of the key.

    JavaScript strings are sequences of code units; they are modelled by
    [string], a character being a code unit below 256 (the Latin-1 range).
    Asynchronous code is sequential here: every [await] is a call to the
    collaborator, answered by an oracle ([Env]); a rejected promise is a
    thrown error.  Numbers are doubles: [Finite q] is the double whose
    value is the rational [q], and [parseFloat] rounds the decimal that it
    reads to the nearest double ([Number.to_double]).  The sign of a zero
    is not kept. *)

From Stdlib Require Import String Ascii List ZArith QArith Qpower Bool Lia.
From stdpp Require Import gmap strings.
Import ListNotations.
Open Scope string_scope.
Open Scope list_scope.

(** ** Characters and the character classes of regular expressions *)

Module Char.

Definition code (a : ascii) : nat := nat_of_ascii a.

Definition between (lo hi : nat) (a : ascii) : bool :=
  ((lo <=? code a) && (code a <=? hi))%nat.

(** [\d] *)
Definition is_digit (a : ascii) : bool := between 48 57 a.

Definition is_upper (a : ascii) : bool := between 65 90 a.
Definition is_lower (a : ascii) : bool := between 97 122 a.

(** [\w]: letters, digits and the underscore. *)
Definition is_word (a : ascii) : bool :=
  is_upper a || is_lower a || is_digit a || (code a =? 95)%nat.

(** What the specification calls alphanumeric. *)
Definition is_alnum (a : ascii) : bool :=
  is_upper a || is_lower a || is_digit a.

(** [\s] on code units below 256: TAB, LF, VT, FF, CR, space and the
    no-break space. *)
Definition is_space (a : ascii) : bool :=
  between 9 13 a || (code a =? 32)%nat || (code a =? 160)%nat.

(** A Latin-1 upper-case letter other than the multiplication sign. *)
Definition is_latin1_upper (a : ascii) : bool :=
  between 192 222 a && negb (code a =? 215)%nat.

(** A Latin-1 lower-case letter with an upper case in Latin-1 (the
    division sign, 247, is not a letter). *)
Definition is_latin1_lower (a : ascii) : bool :=
  between 224 254 a && negb (code a =? 247)%nat.

(** [String.prototype.toLowerCase], one code unit. *)
Definition toLowerCase (a : ascii) : ascii :=
  if is_upper a || is_latin1_upper a then ascii_of_nat (code a + 32) else a.

(** Canonicalize of a regular expression with the [i] flag and without
    the [u] flag: the upper case of the code unit, when that is one code
    unit and does not move a non-ASCII code unit into ASCII.  The micro
    sign (181) and y with diaeresis (255) have their upper case outside
    Latin-1, where no other code unit of this model maps: they stay. *)
Definition canonicalize (a : ascii) : ascii :=
  if is_lower a || is_latin1_lower a then ascii_of_nat (code a - 32) else a.

Definition eqb_ci (a b : ascii) : bool :=
  Ascii.eqb (canonicalize a) (canonicalize b).

Definition value (a : ascii) : Z := Z.of_nat (code a - 48).

End Char.

Definition str := list ascii.

Definition to_lower (s : string) : string :=
  string_of_list_ascii (map Char.toLowerCase (list_ascii_of_string s)).

(** ** A backtracking matcher for the regular expressions of the source *)

Module Regex.

Inductive regex : Type :=
| Chr (p : ascii -> bool)                       (* a class or a literal *)
| Cat (r1 r2 : regex)                           (* r1 r2 *)
| Rep (lo : nat) (hi : option nat) (r : regex)  (* greedy r{lo,hi} *)
| Grp (n : nat) (r : regex).                    (* capturing group n *)

Definition plus (r : regex) : regex := Rep 1 None r.
Definition opt (r : regex) : regex := Rep 0 (Some 1) r.

(** A literal; [ci] is the [i] flag. *)
Definition lit1 (ci : bool) (c : ascii) : regex :=
  Chr (fun a => if ci then Char.eqb_ci a c else Ascii.eqb a c).

Fixpoint lit (ci : bool) (c : ascii) (cs : str) : regex :=
  match cs with
  | [] => lit1 ci c
  | c' :: cs' => Cat (lit1 ci c) (lit ci c' cs')
  end.

Definition captures := list (nat * str).

Fixpoint capture (n : nat) (c : captures) : option str :=
  match c with
  | [] => None
  | (m, w) :: c' => if (m =? n)%nat then Some w else capture n c'
  end.

Definition exhausted (hi : option nat) : bool :=
  match hi with Some 0 => true | _ => false end.

Definition dec (hi : option nat) : option nat :=
  match hi with Some n => Some (pred n) | None => None end.

(** What [r] consumed, between the input [s] and the rest [s1]. *)
Definition taken (s s1 : str) : str := firstn (length s - length s1) s.

Section Exec.
Context {R : Type}.

Definition cont := str -> captures -> option R.

(** RepeatMatcher for a greedy quantifier over [body], [lo] and [hi]
    being what is left of its bounds.  With no iteration left the
    continuation runs (the bounds of a quantifier are ordered: the lower
    bound is then zero).  Otherwise one more iteration is tried first;
    below the lower bound there is no alternative to it, and from the
    lower bound on the continuation runs when it fails.  An iteration
    beyond the lower bound has to consume input.  [fuel] bounds the depth
    of the iterations: [lo] plus the length of the input is enough. *)
Fixpoint rep (body : str -> captures -> cont -> option R)
    (fuel lo : nat) (hi : option nat) (s : str) (c : captures) (k : cont)
    : option R :=
  let stop := if (lo =? 0)%nat then k s c else None in
  if exhausted hi then stop
  else
    match fuel with
    | 0 => None
    | S fuel' =>
        let d := fun s1 c1 =>
          if (lo =? 0)%nat && (length s <=? length s1)%nat then None
          else rep body fuel' (pred lo) (dec hi) s1 c1 k in
        match body s c d with
        | Some x => Some x
        | None => stop
        end
    end.

Fixpoint exec (r : regex) (s : str) (c : captures) (k : cont) : option R :=
  match r with
  | Chr p =>
      match s with
      | a :: s' => if p a then k s' c else None
      | [] => None
      end
  | Cat r1 r2 => exec r1 s c (fun s1 c1 => exec r2 s1 c1 k)
  | Grp n r1 => exec r1 s c (fun s1 c1 => k s1 ((n, taken s s1) :: c1))
  | Rep lo hi r1 => rep (exec r1) (S (lo + length s)) lo hi s c k
  end.
End Exec.

(** A match at the start of [s]: what was matched and the groups. *)
Definition match_here (r : regex) (s : str) : option (str * captures) :=
  exec r s [] (fun s1 c => Some (taken s s1, c)).

(** [String.prototype.match] with a regular expression without the [g]
    flag: the leftmost match, or null. *)
Fixpoint search (r : regex) (s : str) : option (str * captures) :=
  match match_here r s with
  | Some m => Some m
  | None =>
      match s with
      | [] => None
      | _ :: s' => search r s'
      end
  end.

Definition match_ (r : regex) (s : string) : option (str * captures) :=
  search r (list_ascii_of_string s).

(** *** What a regular expression matches *)

Definition within (hi : option nat) (n : nat) : Prop :=
  match hi with Some h => (n <= h)%nat | None => True end.

Fixpoint iter (n : nat) (P : str -> captures -> captures -> Prop)
    (w : str) (c c' : captures) : Prop :=
  match n with
  | 0 => w = [] /\ c' = c
  | S n' => exists w1 w2 c1, w = w1 ++ w2 /\ P w1 c c1 /\ iter n' P w2 c1 c'
  end.

(** [sem r w c c']: [r] matches exactly [w], taking the groups from [c]
    to [c']. *)
Fixpoint sem (r : regex) (w : str) (c c' : captures) : Prop :=
  match r with
  | Chr p => c' = c /\ exists a, w = [a] /\ p a = true
  | Cat r1 r2 =>
      exists w1 w2 c1, w = w1 ++ w2 /\ sem r1 w1 c c1 /\ sem r2 w2 c1 c'
  | Grp n r1 => exists c1, sem r1 w c c1 /\ c' = (n, w) :: c1
  | Rep lo hi r1 =>
      exists n, (lo <= n)%nat /\ within hi n /\ iter n (sem r1) w c c'
  end.

(** No quantifier of [r] is over an expression that matches the empty
    word. *)
Fixpoint wf (r : regex) : Prop :=
  match r with
  | Chr _ => True
  | Cat r1 r2 => wf r1 /\ wf r2
  | Grp _ r1 => wf r1
  | Rep _ _ r1 => wf r1 /\ forall w c c', sem r1 w c c' -> w <> []
  end.

(** [r] matches somewhere in [s]. *)
Definition occurs (r : regex) (s : str) : Prop :=
  exists pre w post c, s = pre ++ w ++ post /\ sem r w [] c.

(** What a run of [exec r] that succeeds has done: it has consumed a
    word that [r] matches and passed the rest to the continuation. *)
Definition sound (R : Type) (r : regex) : Prop :=
  forall (s : str) (c : captures) (k : @cont R) (x : R),
    exec r s c k = Some x ->
    exists w s1 c1, s = w ++ s1 /\ sem r w c c1 /\ k s1 c1 = Some x.

(** A match that the continuation accepts makes the run succeed, with
    this match or with one that is tried before it. *)
Definition complete (R : Type) (r : regex) : Prop :=
  forall (w s1 : str) (c c1 : captures) (k : @cont R),
    sem r w c c1 -> k s1 c1 <> None -> exec r (w ++ s1) c k <> None.

End Regex.

(** ** Numbers and [parseFloat] *)

Inductive JsNumber : Type :=
| NaN
| Infinity (negative : bool)
| Finite (q : Q).

Module Number.

(** The longest prefix of [s] in the class [p], and the rest. *)
Fixpoint span (p : ascii -> bool) (s : str) : str * str :=
  match s with
  | a :: s' =>
      if p a then let (w, r) := span p s' in (a :: w, r) else ([], s)
  | [] => ([], [])
  end.

Fixpoint dropWhile (p : ascii -> bool) (s : str) : str :=
  match s with
  | a :: s' => if p a then dropWhile p s' else s
  | [] => []
  end.

Fixpoint is_prefix (p s : str) : bool :=
  match p, s with
  | [], _ => true
  | a :: p', b :: s' => Ascii.eqb a b && is_prefix p' s'
  | _ :: _, [] => false
  end.

(** The value of decimal digits, most significant first. *)
Definition digits_value (ds : str) : Z :=
  fold_left (fun acc d => (10 * acc + Char.value d)%Z) ds 0%Z.

(** An optional sign. *)
Definition sign (s : str) : bool * str :=
  match s with
  | "-"%char :: r => (true, r)
  | "+"%char :: r => (false, r)
  | _ => (false, s)
  end.

(** The fraction after the integer digits: [. DecimalDigits?]. *)
Definition fraction (s : str) : str * str :=
  match s with
  | "."%char :: r => span Char.is_digit r
  | _ => ([], s)
  end.

(** ExponentPart: [e] or [E], an optional sign and at least one digit;
    anything else is not part of the literal. *)
Definition exponent (s : str) : Z :=
  match s with
  | a :: r =>
      if Ascii.eqb a "e" || Ascii.eqb a "E" then
        let (neg, r1) := sign r in
        let (ds, _) := span Char.is_digit r1 in
        match ds with
        | [] => 0%Z
        | _ => if neg then (- digits_value ds)%Z else digits_value ds
        end
      else 0%Z
  | [] => 0%Z
  end.

Definition ten : Q := inject_Z 10.

(** The mathematical value of [ip . fp] times ten to the [e]. *)
Definition decimal (ip fp : str) (e : Z) : Q :=
  (inject_Z (digits_value ip)
   + inject_Z (digits_value fp) / Qpower ten (Z.of_nat (length fp)))
  * Qpower ten e.

(** The integer nearest to [q], the even one of two that are as near. *)
Definition round_half_even (q : Q) : Z :=
  let n := Qnum q in
  let d := Z.pos (Qden q) in
  let f := (n / d)%Z in
  match (2 * (n mod d) ?= d)%Z with
  | Lt => f
  | Gt => (f + 1)%Z
  | Eq => if Z.even f then f else (f + 1)%Z
  end.

Definition two_power (e : Z) : Q := Qpower (inject_Z 2) e.

(** The [e] with [2^e <= q < 2^(e+1)], for a positive [q]. *)
Definition binary_exponent (q : Q) : Z :=
  let e := (Z.log2 (Qnum q) - Z.log2 (Z.pos (Qden q)))%Z in
  if Qle_bool (two_power e) q then e else (e - 1)%Z.

(** The Number value for a rational [q] that is not negative: the double
    nearest to [q], the one with the even significand of two that are as
    near.  A double with the exponent [e] is a multiple of [2^(e-52)];
    the least exponent is -1022, below which the doubles are as far apart
    as at -1022; [2^1024] stands for the infinity. *)
Definition to_double (q : Q) : JsNumber :=
  if Qeq_bool q 0 then Finite 0
  else
    let e := Z.max (binary_exponent q) (-1022) in
    let ulp := two_power (e - 52) in
    let r := (inject_Z (round_half_even (q / ulp)) * ulp)%Q in
    if Qle_bool (two_power 1024) r then Infinity false else Finite (Qred r).

Definition negate (n : JsNumber) : JsNumber :=
  match n with
  | NaN => NaN
  | Infinity neg => Infinity (negb neg)
  | Finite q => Finite (Qred (- q))
  end.

(** [parseFloat]: leading white space is dropped, the longest prefix
    that is a StrDecimalLiteral is read, and its value is rounded to a
    double; when there is no such prefix the result is NaN.  The value
    that is rounded is the value of all the digits, as the engine of
    Node does, also for a literal of more than 20 significant digits,
    which the language allows an engine to cut first. *)
Definition parseFloat_chars (s : str) : JsNumber :=
  let s1 := dropWhile Char.is_space s in
  let (neg, s2) := sign s1 in
  if is_prefix (list_ascii_of_string "Infinity") s2 then Infinity neg
  else
    let (ip, s3) := span Char.is_digit s2 in
    let (fp, s4) := fraction s3 in
    match ip, fp with
    | [], [] => NaN
    | _, _ =>
        let n := to_double (decimal ip fp (exponent s4)) in
        if neg then negate n else n
    end.

Definition parseFloat (s : string) : JsNumber :=
  parseFloat_chars (list_ascii_of_string s).

(** A finite number that is strictly positive. *)
Definition positive (n : JsNumber) : Prop :=
  match n with Finite q => (0 < q)%Q | _ => False end.

(** A number that is not negative and may be infinite: zero, a positive
    double or the positive infinity. *)
Definition not_negative (n : JsNumber) : Prop :=
  match n with
  | Finite q => (0 <= q)%Q
  | Infinity negative => negative = false
  | NaN => False
  end.

Definition is_finite (n : JsNumber) : bool :=
  match n with Finite _ => true | _ => false end.

End Number.

(** ** [src/src/types.ts] *)

Record GitHubUser : Type := { login : string }.

Record GitHubComment : Type := {
  id : Z;
  body : string;
  user : GitHubUser;
  issue_url : string;
  created_at : string
}.

Record GitHubIssue : Type := {
  issue_id : Z;
  title : string;
  issue_body : string;
  number : Z;
  html_url : string;
  repository_url : string
}.

(** [language] is null for a repository without one. *)
Record GitHubRepository : Type := {
  name : string;
  full_name : string;
  language : option string;
  owner : GitHubUser
}.

Record BountyCommand : Type := {
  amount : JsNumber;
  tokenAddress : string;
  issueUrl : string
}.

Record Token : Type := { mintAddress : string; token_amount : JsNumber }.

Record BountyRequestPayload : Type := {
  token : Token;
  payload_title : string;
  content : string;
  requirements : string;
  tags : list string;
  payer : string;
  isHidden : bool
}.

Record BountyResponse : Type := {
  taskId : string;
  serializedTransaction : string
}.

Record AuthorizedUser : Type := { username : string }.

(** ** [src/src/config.ts], first part: the configuration *)

(** A string is truthy when it is not empty. *)
Definition truthy (s : string) : bool := negb (String.eqb s "").

(** [s.split(c)] *)
Fixpoint split_chars (c : ascii) (s : str) : list str :=
  match s with
  | [] => [[]]
  | a :: s' =>
      if Ascii.eqb a c then [] :: split_chars c s'
      else
        match split_chars c s' with
        | w :: ws => (a :: w) :: ws
        | [] => [[a]]
        end
  end.

Definition split (c : ascii) (s : string) : list string :=
  map string_of_list_ascii (split_chars c (list_ascii_of_string s)).

(** The values read from the environment when the module is loaded. *)
Record Config : Type := {
  AUTHORIZED_USERS : list AuthorizedUser;
  REPOSITORIES : list string;
  WALLET_PUBLIC_KEY : string
}.

(** [(process.env.X || '').split(',').filter(Boolean)] *)
Definition env_list (value : string) : list string :=
  List.filter truthy (split "," value).

Definition load_config (authorized_users repositories wallet : string) : Config :=
  {| AUTHORIZED_USERS := map (fun u => {| username := u |}) (env_list authorized_users);
     REPOSITORIES := env_list repositories;
     WALLET_PUBLIC_KEY := wallet |}.

Definition isAuthorized (cfg : Config) (name : string) : bool :=
  match AUTHORIZED_USERS cfg with
  | [] => false
  | users =>
      existsb (fun u => String.eqb (to_lower (username u)) (to_lower name)) users
  end.

(** ** [src/src/github.ts]: the command parser *)

(** [/\/bounty\s+(\d+(?:\.\d+)?)\s+([\w\d]{32,44})/i] *)
Definition bounty_regex : Regex.regex :=
  let space := Regex.Chr Char.is_space in
  let digit := Regex.Chr Char.is_digit in
  let dot := Regex.lit1 true "." in
  let word := Regex.Chr (fun a => Char.is_word a || Char.is_digit a) in
  Regex.Cat (Regex.lit true "/" (list_ascii_of_string "bounty"))
    (Regex.Cat (Regex.plus space)
       (Regex.Cat
          (Regex.Grp 1
             (Regex.Cat (Regex.plus digit)
                (Regex.opt (Regex.Cat dot (Regex.plus digit)))))
          (Regex.Cat (Regex.plus space)
             (Regex.Grp 2 (Regex.Rep 32 (Some 44) word))))).

(** [match[n]]; both groups of [bounty_regex] take part in every match. *)
Definition group (n : nat) (c : Regex.captures) : string :=
  match Regex.capture n c with
  | Some w => string_of_list_ascii w
  | None => ""
  end.

Definition parseBountyCommand (cfg : Config) (comment : GitHubComment)
    : option BountyCommand :=
  match Regex.match_ bounty_regex (body comment) with
  | Some (_, groups) =>
      if isAuthorized cfg (login (user comment)) then
        Some {| amount := Number.parseFloat (group 1 groups);
                tokenAddress := group 2 groups;
                issueUrl := issue_url comment |}
      else None
  | None => None
  end.

(** [fullName.split('/')], of which the first two parts are taken; a part
    that is missing is undefined. *)
Definition parseRepoFullName (fullName : string) : option string * option string :=
  let parts := split "/" fullName in
  (nth_error parts 0, nth_error parts 1).

(** [urlParts.indexOf(x)], [None] for -1. *)
Fixpoint indexOf (x : string) (l : list string) : option nat :=
  match l with
  | [] => None
  | y :: l' =>
      if String.eqb y x then Some 0
      else match indexOf x l' with Some i => Some (S i) | None => None end
  end.

(** The owner and the repository follow [repos] in the URL; [indexOf]
    answers -1 when [repos] is absent, and the owner is then the first
    part. *)
Definition getRepoInfoFromUrl (repoUrl : string) : option string * option string :=
  let urlParts := split "/" repoUrl in
  let ownerIndex :=
    match indexOf "repos" urlParts with Some i => S i | None => 0 end in
  (nth_error urlParts ownerIndex, nth_error urlParts (S ownerIndex)).

(** ** Errors, the world and the collaborators *)

(** A thrown value: its [message], its [signature] property when it has
    one, and whether it is an instance of
    [TransactionExpiredBlockheightExceededError]. *)
Record JsError : Type := {
  message : string;
  err_signature : option string;
  blockheight_exceeded : bool
}.

(** [new Error(msg)] *)
Definition new_Error (msg : string) : JsError :=
  {| message := msg; err_signature := None; blockheight_exceeded := false |}.

Inductive outcome (A : Type) : Type :=
| Returns (a : A)
| Throws (e : JsError).
Arguments Returns {A} a.
Arguments Throws {A} e.

Inductive ConfirmationStatus : Type := processed | confirmed | finalized.

Record SignatureStatus : Type := {
  confirmationStatus : option ConfirmationStatus
}.

(** What [getSignatureStatus] resolves to; [value] is null for a
    signature the node does not know. *)
Record StatusResponse : Type := { value : option SignatureStatus }.

Record Blockhash : Type := {
  blockhash : string;
  lastValidBlockHeight : Z
}.

Record ConfirmationConfig : Type := {
  cfg_signature : string;
  cfg_blockhash : string;
  cfg_lastValidBlockHeight : Z
}.

(** How [confirmTransaction] stands sixty seconds after the call. *)
Inductive Settled : Type :=
| Resolved
| Rejected (e : JsError)
| Pending.

(** The response of [fetch]. *)
Record FetchResponse : Type := {
  ok : bool;
  statusText : string;
  text : outcome string;
  json : outcome BountyResponse
}.

Inductive StatusNote : Type :=
| NoteConfirmed   (* Transaction confirmed. *)
| NotePending.    (* Transaction submitted but confirmation is pending. ... *)

(** What a failure comment says of the transaction. *)
Inductive TransactionNote : Type :=
| NoTransaction
| TransactionOnly (signature explorerUrl : string)
| TransactionAndBounty (bountyUrl explorerUrl : string).

(** The three comment templates of [processBountyCommand], with the
    values they interpolate:
    - [BountyCreated]: "Bounty created successfully!", the bounty id, the
      amount and token, the status note, the bounty and transaction links;
    - [BountyCreatedWithIssues]: "Bounty created successfully (with
      confirmation issues)!", the amount and token, both links;
    - [BountyFailed]: "Issue with bounty creation: " and the error
      message, followed by the links that are known. *)
Inductive CommentBody : Type :=
| BountyCreated (task : string) (amt : JsNumber) (tokenType : string)
    (note : StatusNote) (bountyUrl explorerUrl : string)
| BountyCreatedWithIssues (amt : JsNumber) (tokenType : string)
    (bountyUrl explorerUrl : string)
| BountyFailed (errorMessage : string) (note : TransactionNote).

Record IssueComment : Type := {
  on_owner : option string;
  on_repo : option string;
  on_issue : Z;
  comment_body : CommentBody
}.

Inductive LogLine : Type :=
| LogErrorCreating (e : JsError)
| LogErrorStatus (e : JsError)
| LogPreparing
| LogSent (signature : string)
| LogConfirmed (signature : string)
| LogConfirmationError (msg : string)
| LogConfirmedDespiteError (signature : string)
| LogBlockHeightExceeded (signature : string)
| LogConfirmedAfterRetry (signature : string)
| LogErrorHasSignature (signature : string)
| LogErrorSigning (e : JsError)
| LogProcessing (command : BountyCommand)
| LogProcessed (signature : string)
| LogCreated (task : string)
| LogErrorProcessing (e : JsError)
| LogDespiteErrors (signature : string)
| LogErrorPosting (e : JsError)
| LogErrorComments (owner repo : option string) (e : JsError)
| LogChecking (owner repo : option string)
| LogFound (n : nat)
| LogFoundCommand (from : string) (command : BountyCommand)
| LogErrorRepo (repoFullName : string) (e : JsError)
| LogTick
| LogCleaning
| LogCleanupComplete (kept initial : nat).

(** The calls that leave the process. *)
Inductive Api : Type :=
| GetIssue | GetRepository | Fetch | SendTransaction | GetLatestBlockhash
| ConfirmTransaction | GetSignatureStatus | CreateComment | ListComments.

Definition Api_eqb (a b : Api) : bool :=
  match a, b with
  | GetIssue, GetIssue | GetRepository, GetRepository | Fetch, Fetch
  | SendTransaction, SendTransaction | GetLatestBlockhash, GetLatestBlockhash
  | ConfirmTransaction, ConfirmTransaction
  | GetSignatureStatus, GetSignatureStatus | CreateComment, CreateComment
  | ListComments, ListComments => true
  | _, _ => false
  end.

(** The collaborators.  A call that leaves the process is answered from
    its arguments and from the number of earlier calls of the same kind,
    so that an environment may answer the same question differently each
    time; the three steps of signing are functions of their arguments. *)
Record Env : Type := {
  octokit_getIssue : nat -> string -> outcome GitHubIssue;
  octokit_getRepository : nat -> string -> outcome GitHubRepository;
  octokit_createComment :
    nat -> option string -> option string -> Z -> CommentBody -> outcome unit;
  octokit_listCommentsForRepo :
    nat -> option string -> option string -> outcome (list GitHubComment);
  fetch_tasks : nat -> BountyRequestPayload -> outcome FetchResponse;
  getWalletKeypair : outcome string;
  deserialize : string -> outcome string;
  sign : string -> string -> outcome string;
  sendTransaction : nat -> string -> outcome string;
  getLatestBlockhash : nat -> outcome Blockhash;
  confirmTransaction : nat -> ConfirmationConfig -> Settled;
  getSignatureStatus : nat -> string -> outcome (option StatusResponse)
}.

(** The state of the process and of what it has done to the world. *)
Record World : Type := {
  calls : Api -> nat;               (* calls made so far, by kind *)
  clock : Z;                        (* milliseconds spent waiting for timers *)
  timers : list Z;                  (* delays of the timers armed, oldest first *)
  console : list LogLine;           (* oldest first *)
  comments : list IssueComment;     (* comments created, oldest first *)
  processedComments : gset Z        (* the poll loop *)
}.

(** ** Sequential code that may throw *)

Definition M (A : Type) : Type := World -> outcome A * World.

Definition ret {A} (a : A) : M A := fun w => (Returns a, w).

Definition throw {A} (e : JsError) : M A := fun w => (Throws e, w).

Definition bind {A B} (m : M A) (k : A -> M B) : M B :=
  fun w =>
    match m w with
    | (Returns a, w') => k a w'
    | (Throws e, w') => (Throws e, w')
    end.

(** [try { m } catch (e) { h e }] *)
Definition try_catch {A} (m : M A) (h : JsError -> M A) : M A :=
  fun w =>
    match m w with
    | (Returns a, w') => (Returns a, w')
    | (Throws e, w') => h e w'
    end.

(** The outcome of [m], as a value. *)
Definition attempt {A} (m : M A) : M (outcome A) :=
  fun w => let (r, w') := m w in (Returns r, w').

Definition lift {A} (r : outcome A) : M A := fun w => (r, w).

Declare Scope js_scope.
Delimit Scope js_scope with js.
Notation "x <- m ;; k" := (bind m (fun x => k))
  (at level 100, m at next level, right associativity) : js_scope.
Notation "m ;; k" := (bind m (fun _ => k))
  (at level 100, right associativity) : js_scope.
Open Scope js_scope.

(** *** What the process does to the world *)

Definition logged (l : LogLine) (w : World) : World :=
  {| calls := calls w; clock := clock w; timers := timers w;
     console := console w ++ [l];
     comments := comments w; processedComments := processedComments w |}.

(** [setTimeout(f, ms)]: a timer is armed; nothing is waited for. *)
Definition armed (ms : Z) (w : World) : World :=
  {| calls := calls w; clock := clock w; timers := timers w ++ [ms];
     console := console w;
     comments := comments w; processedComments := processedComments w |}.

(** The process waits until a timer armed [ms] milliseconds ago fires. *)
Definition fired (ms : Z) (w : World) : World :=
  {| calls := calls w; clock := (clock w + ms)%Z; timers := timers w;
     console := console w;
     comments := comments w; processedComments := processedComments w |}.

(** A timer of [ms] milliseconds is armed and waited for. *)
Definition waited (ms : Z) (w : World) : World := fired ms (armed ms w).

Definition bump (a : Api) (w : World) : World :=
  {| calls := fun b => if Api_eqb a b then S (calls w b) else calls w b;
     clock := clock w; timers := timers w; console := console w;
     comments := comments w; processedComments := processedComments w |}.

Definition commented (c : IssueComment) (w : World) : World :=
  {| calls := calls w; clock := clock w; timers := timers w;
     console := console w;
     comments := comments w ++ [c];
     processedComments := processedComments w |}.

Definition marked (i : Z) (w : World) : World :=
  {| calls := calls w; clock := clock w; timers := timers w;
     console := console w;
     comments := comments w;
     processedComments := {[ i ]} ∪ processedComments w |}.

Definition log (l : LogLine) : M unit := fun w => (Returns tt, logged l w).

(** [await new Promise(resolve => setTimeout(resolve, ms))] *)
Definition sleep (ms : Z) : M unit := fun w => (Returns tt, waited ms w).

(** [setTimeout(f, ms)] for a timer that nothing clears. *)
Definition arm (ms : Z) : M unit := fun w => (Returns tt, armed ms w).

(** The [await] that ends when a timer armed with [ms] fires. *)
Definition until_fired (ms : Z) : M unit := fun w => (Returns tt, fired ms w).

(** A call of kind [a], answered from the number of earlier calls: the
    promise resolves or rejects. *)
Definition call {A} (a : Api) (answer : nat -> outcome A) : M A :=
  fun w => (answer (calls w a), bump a w).

Definition post (c : IssueComment) : M unit :=
  fun w => (Returns tt, commented c w).

(** [processedComments.add(i)] *)
Definition mark_processed (i : Z) : M unit :=
  fun w => (Returns tt, marked i w).

(** [processedComments.has(i)] *)
Definition is_processed (i : Z) : M bool :=
  fun w => (Returns (bool_decide (i ∈ processedComments w)), w).

(** A call of kind [a] whose answer is a value. *)
Definition ask {A} (a : Api) (answer : nat -> A) : M A :=
  fun w => (Returns (answer (calls w a)), bump a w).

Fixpoint for_each {A} (f : A -> M unit) (l : list A) : M unit :=
  match l with
  | [] => ret tt
  | x :: l' => f x ;; for_each f l'
  end.

(** [a || b] on strings. *)
Definition or_else (a b : string) : string := if truthy a then a else b.

Section Bot.

Context (cfg : Config) (env : Env).

(** ** [src/src/github.ts]: the code-hosting client *)

Definition getRecentComments (owner repo : option string)
    : M (list GitHubComment) :=
  try_catch
    (call ListComments (fun n => octokit_listCommentsForRepo env n owner repo))
    (fun error => log (LogErrorComments owner repo error) ;; ret []).

Definition getIssueFromUrl (issueUrl : string) : M GitHubIssue :=
  call GetIssue (fun n => octokit_getIssue env n issueUrl).

Definition getRepositoryFromUrl (repoUrl : string) : M GitHubRepository :=
  call GetRepository (fun n => octokit_getRepository env n repoUrl).

(** The comment exists once the call has returned. *)
Definition commentOnIssue (owner repo : option string) (issueNumber : Z)
    (body : CommentBody) : M unit :=
  call CreateComment
    (fun n => octokit_createComment env n owner repo issueNumber body) ;;
  post {| on_owner := owner; on_repo := repo; on_issue := issueNumber;
          comment_body := body |}.

(** ** [src/unnamed/part_000]: the bounty module *)

(** The request sent to the marketplace. *)
Definition bounty_payload (command : BountyCommand) (issueDetails : GitHubIssue)
    (repository : GitHubRepository) : BountyRequestPayload :=
  {| token := {| mintAddress := tokenAddress command;
                 token_amount := amount command |};
     payload_title := title issueDetails;
     content := or_else (issue_body issueDetails) "No description provided";
     requirements := "PR to be merged";
     tags := [match language repository with
              | Some l => or_else l "unknown"
              | None => "unknown"
              end];
     payer := WALLET_PUBLIC_KEY cfg;
     isHidden := true |}.

Definition createBountyTransaction (command : BountyCommand)
    : M BountyResponse :=
  try_catch
    (issueDetails <- getIssueFromUrl (issueUrl command) ;;
     repository <- getRepositoryFromUrl (repository_url issueDetails) ;;
     let payload := bounty_payload command issueDetails repository in
     response <- call Fetch (fun n => fetch_tasks env n payload) ;;
     if ok response then lift (json response)
     else
       errorText <- lift (text response) ;;
       throw (new_Error ("Failed to create bounty: " +:+ statusText response
                         +:+ ". Details: " +:+ errorText)))
    (fun error => log (LogErrorCreating error) ;; throw error).

(** [confirmationStatus === 'confirmed' || ... === 'finalized'] *)
Definition is_confirmed (s : SignatureStatus) : bool :=
  match confirmationStatus s with
  | Some confirmed | Some finalized => true
  | _ => false
  end.

Definition checkTransactionStatus (signature : string) : M bool :=
  try_catch
    (status <- call GetSignatureStatus
                 (fun n => getSignatureStatus env n signature) ;;
     match status with
     | None => ret false
     | Some response =>
         match value response with
         | None => ret false
         | Some s => ret (is_confirmed s)
         end
     end)
    (fun error => log (LogErrorStatus error) ;; ret false).

(** [Promise.race] of [confirmTransaction] and a timer of sixty
    seconds that rejects.  Both operands are evaluated before the race:
    the confirmation is requested and the timer is armed, whatever
    becomes of the confirmation, and nothing clears the timer.  The
    [await] ends with the confirmation when it settles within the sixty
    seconds, and with the timer otherwise. *)
Definition confirm_or_timeout (config : ConfirmationConfig) : M unit :=
  settled <- ask ConfirmTransaction (fun n => confirmTransaction env n config) ;;
  arm 60000 ;;
  match settled with
  | Resolved => ret tt
  | Rejected e => throw e
  | Pending => until_fired 60000 ;; throw (new_Error "Confirmation timeout")
  end.

Definition confirmation_config (signature : string) (latest : Blockhash)
    : ConfirmationConfig :=
  {| cfg_signature := signature;
     cfg_blockhash := blockhash latest;
     cfg_lastValidBlockHeight := lastValidBlockHeight latest |}.

(** [for (let i = 0; i < 3; i++)], [n] iterations being left. *)
Fixpoint retry_checks (n : nat) (signature : string) : M unit :=
  match n with
  | 0 => ret tt
  | S n' =>
      sleep 5000 ;;
      retryConfirmed <- checkTransactionStatus signature ;;
      if retryConfirmed then log (LogConfirmedAfterRetry signature)
      else retry_checks n' signature
  end.

Definition signAndSendTransaction (serializedTransaction : string)
    : M string :=
  try_catch
    (log LogPreparing ;;
     wallet <- lift (getWalletKeypair env) ;;
     transaction <- lift (deserialize env serializedTransaction) ;;
     signed <- lift (sign env transaction wallet) ;;
     signature <- call SendTransaction (fun n => sendTransaction env n signed) ;;
     log (LogSent signature) ;;
     try_catch
       (latestBlockhash <- call GetLatestBlockhash (getLatestBlockhash env) ;;
        let confirmationConfig := confirmation_config signature latestBlockhash in
        confirm_or_timeout confirmationConfig ;;
        log (LogConfirmed signature))
       (fun confirmError =>
          log (LogConfirmationError (message confirmError)) ;;
          sleep 5000 ;;
          isConfirmed <- checkTransactionStatus signature ;;
          if isConfirmed then log (LogConfirmedDespiteError signature)
          else if blockheight_exceeded confirmError then
            log (LogBlockHeightExceeded signature) ;;
            retry_checks 3 signature
          else
            throw (new_Error ("Transaction may have failed: "
                              +:+ message confirmError))) ;;
     ret signature)
    (fun error =>
       match err_signature error with
       | Some s =>
           if truthy s then log (LogErrorHasSignature s) ;; ret s
           else log (LogErrorSigning error) ;; throw error
       | None => log (LogErrorSigning error) ;; throw error
       end).

Definition tokenType (address : string) : string :=
  if String.eqb address "So11111111111111111111111111111111111111112" then "SOL"
  else if String.eqb address "EPjFWdd5AufqSSqeM2qN1xzybapC8G4wEGGkZwyTDt1v" then "USDC"
  else "tokens".

Definition explorerUrl (signature : string) : string :=
  "https://explorer.solana.com/tx/" +:+ signature.

Definition bountyUrl (task : string) : string :=
  "https://app.gib.work/tasks/" +:+ task.

(** The [try] block of [processBountyCommand] after both variables are
    assigned. *)
Definition report_created (command : BountyCommand)
    (bountyResponse : BountyResponse) (transactionSignature : string)
    : M unit :=
  log (LogProcessed transactionSignature) ;;
  issueDetails <- getIssueFromUrl (issueUrl command) ;;
  let (owner, repo) := getRepoInfoFromUrl (repository_url issueDetails) in
  isConfirmed <- checkTransactionStatus transactionSignature ;;
  let statusNote := if isConfirmed then NoteConfirmed else NotePending in
  commentOnIssue owner repo (number issueDetails)
    (BountyCreated (taskId bountyResponse) (amount command)
       (tokenType (tokenAddress command)) statusNote
       (bountyUrl (taskId bountyResponse))
       (explorerUrl transactionSignature)) ;;
  log (LogCreated (taskId bountyResponse)).

(** The first part of the [catch] block: with a signature and a bounty
    response, the status is asked once more; the result says whether the
    function has returned. *)
Definition recheck (command : BountyCommand)
    (transactionSignature : option string)
    (bountyResponse : option BountyResponse) : M bool :=
  match transactionSignature, bountyResponse with
  | Some signature, Some response =>
      if truthy signature then
        try_catch
          (isSuccessful <- checkTransactionStatus signature ;;
           if isSuccessful then
             log (LogDespiteErrors signature) ;;
             issueDetails <- getIssueFromUrl (issueUrl command) ;;
             let (owner, repo) :=
               getRepoInfoFromUrl (repository_url issueDetails) in
             commentOnIssue owner repo (number issueDetails)
               (BountyCreatedWithIssues (amount command)
                  (tokenType (tokenAddress command))
                  (bountyUrl (taskId response))
                  (explorerUrl signature)) ;;
             ret true
           else ret false)
          (fun statusCheckError =>
             log (LogErrorStatus statusCheckError) ;; ret false)
      else ret false
  | _, _ => ret false
  end.

(** What the failure comment appends to the error message. *)
Definition transaction_note (transactionSignature : option string)
    (bountyResponse : option BountyResponse) : TransactionNote :=
  match transactionSignature with
  | Some signature =>
      if truthy signature then
        match bountyResponse with
        | Some response =>
            if truthy (taskId response) then
              TransactionAndBounty (bountyUrl (taskId response))
                (explorerUrl signature)
            else TransactionOnly signature (explorerUrl signature)
        | None => TransactionOnly signature (explorerUrl signature)
        end
      else NoTransaction
  | None => NoTransaction
  end.

(** The [catch] block of [processBountyCommand], the two variables
    being as they stand when the error is thrown. *)
Definition report_error (command : BountyCommand)
    (transactionSignature : option string)
    (bountyResponse : option BountyResponse) (error : JsError) : M unit :=
  log (LogErrorProcessing error) ;;
  returned <- recheck command transactionSignature bountyResponse ;;
  if returned : bool then ret tt
  else
    try_catch
      (issueDetails <- getIssueFromUrl (issueUrl command) ;;
       let (owner, repo) := getRepoInfoFromUrl (repository_url issueDetails) in
       commentOnIssue owner repo (number issueDetails)
         (BountyFailed (message error)
            (transaction_note transactionSignature bountyResponse)))
      (fun commentError => log (LogErrorPosting commentError)).

(** The [try] block is cut where [bountyResponse] and
    [transactionSignature] are assigned: an error thrown before an
    assignment finds the variable null in the [catch] block. *)
Definition processBountyCommand (command : BountyCommand) : M unit :=
  log (LogProcessing command) ;;
  created <- attempt (createBountyTransaction command) ;;
  match created with
  | Throws error => report_error command None None error
  | Returns bountyResponse =>
      sent <- attempt
                (signAndSendTransaction (serializedTransaction bountyResponse)) ;;
      match sent with
      | Throws error => report_error command None (Some bountyResponse) error
      | Returns transactionSignature =>
          try_catch
            (report_created command bountyResponse transactionSignature)
            (report_error command (Some transactionSignature)
               (Some bountyResponse))
      end
  end.

(** ** [src/src/config.ts], last part: the poll loop *)

(** The body of the loop over the comments of a repository. *)
Definition check_comment (comment : GitHubComment) : M unit :=
  seen <- is_processed (id comment) ;;
  if seen : bool then ret tt
  else
    mark_processed (id comment) ;;
    match parseBountyCommand cfg comment with
    | Some bountyCommand =>
        log (LogFoundCommand (login (user comment)) bountyCommand) ;;
        processBountyCommand bountyCommand
    | None => ret tt
    end.

(** The body of the loop over the repositories. *)
Definition check_repository (repoFullName : string) : M unit :=
  try_catch
    (let (owner, repo) := parseRepoFullName repoFullName in
     log (LogChecking owner repo) ;;
     comments <- getRecentComments owner repo ;;
     log (LogFound (length comments)) ;;
     for_each check_comment comments)
    (fun error => log (LogErrorRepo repoFullName error)).

Definition checkForBountyCommands : M unit :=
  for_each check_repository (REPOSITORIES cfg).

(** The routine logs and removes nothing. *)
Definition cleanupProcessedComments : M unit :=
  log LogCleaning ;;
  fun w =>
    let initialSize := size (processedComments w) in
    log (LogCleanupComplete (size (processedComments w)) initialSize) w.

(** The two scheduled tasks. *)
Inductive Job : Type := Poll | Cleanup.

Definition run_job (j : Job) : M unit :=
  match j with
  | Poll => log LogTick ;; checkForBountyCommands
  | Cleanup => cleanupProcessedComments
  end.

(** The first check at startup, then the scheduled tasks in the order
    in which they fire, one after the other. *)
Definition bot (jobs : list Job) : M unit :=
  checkForBountyCommands ;; for_each run_job jobs.

End Bot.


(** ** The syntax of a bounty command, as the source recognises it *)

Module Grammar.

Definition all (p : ascii -> bool) (w : str) : Prop := forallb p w = true.

(** [/bounty], in any letter case. *)
Definition is_keyword (w : str) : Prop :=
  map Char.toLowerCase w = list_ascii_of_string "/bounty".

(** Digits, with an optional fraction of a dot and digits. *)
Definition is_amount (w : str) : Prop :=
  exists ip fp,
    w = ip ++ fp /\ ip <> [] /\ all Char.is_digit ip /\
    (fp = [] \/
     exists ds, fp = "."%char :: ds /\ ds <> [] /\ all Char.is_digit ds).

Definition is_blank (w : str) : Prop := w <> [] /\ all Char.is_space w.

(** 32 to 44 letters, digits or underscores. *)
Definition is_address (w : str) : Prop :=
  (32 <= length w <= 44)%nat /\ all Char.is_word w.

(** The command [kw ws1 amt ws2 tok] stands somewhere in [s]. *)
Definition command_in (s amt tok : str) : Prop :=
  exists pre kw ws1 ws2 post,
    s = pre ++ kw ++ ws1 ++ amt ++ ws2 ++ tok ++ post /\
    is_keyword kw /\ is_blank ws1 /\ is_amount amt /\ is_blank ws2 /\
    is_address tok.

Definition has_command (b : string) : Prop :=
  exists amt tok, command_in (list_ascii_of_string b) amt tok.

End Grammar.

(** ** The grammar in the words of the specification

    Section 4.1 of the specification: the literal [/bounty], one or more
    spaces, a numeric amount (integer or decimal), one or more spaces, a
    token address of 32 to 44 alphanumeric characters.  The command may
    stand anywhere in the comment, which is the reading that accepts the
    most. *)

Module Spec.

Definition grammar : Regex.regex :=
  let space := Regex.lit1 false " " in
  let digit := Regex.Chr Char.is_digit in
  let dot := Regex.lit1 false "." in
  let alnum := Regex.Chr Char.is_alnum in
  Regex.Cat (Regex.lit false "/" (list_ascii_of_string "bounty"))
    (Regex.Cat (Regex.plus space)
       (Regex.Cat
          (Regex.Cat (Regex.plus digit)
             (Regex.opt (Regex.Cat dot (Regex.plus digit))))
          (Regex.Cat (Regex.plus space) (Regex.Rep 32 (Some 44) alnum)))).

Definition matches (b : string) : bool :=
  match Regex.match_ grammar b with Some _ => true | None => false end.

(** The specification describes the comment [b]: a command of its grammar
    stands in [b]. *)
Definition describes (b : string) : Prop :=
  Regex.occurs grammar (list_ascii_of_string b).

End Spec.

(** ** The vocabulary of the properties *)

(** What [checkTransactionStatus] makes of an answer of the node. *)
Definition status_answer (r : outcome (option StatusResponse)) : bool :=
  match r with
  | Returns (Some {| value := Some s |}) => is_confirmed s
  | _ => false
  end.

(** The world after a status query answered [r]: an error is logged. *)
Definition after_status (r : outcome (option StatusResponse)) (w : World)
    : World :=
  match r with
  | Throws e => logged (LogErrorStatus e) (bump GetSignatureStatus w)
  | Returns _ => bump GetSignatureStatus w
  end.

(** The pipeline logs this line when it is invoked, and only then. *)
Definition is_invocation (l : LogLine) : bool :=
  match l with LogProcessing _ => true | _ => false end.

Definition invocations (w : World) : nat :=
  length (List.filter is_invocation (console w)).

(** The link to the block explorer in a comment. *)
Definition explorer_link (b : CommentBody) : option string :=
  match b with
  | BountyCreated _ _ _ _ _ u => Some u
  | BountyCreatedWithIssues _ _ _ u => Some u
  | BountyFailed _ (TransactionOnly _ u) => Some u
  | BountyFailed _ (TransactionAndBounty _ u) => Some u
  | BountyFailed _ NoTransaction => None
  end.

(** The comment refers to the transaction [signature]. *)
Definition cites (signature : string) (b : CommentBody) : Prop :=
  explorer_link b = Some (explorerUrl signature).

Definition is_failure (b : CommentBody) : bool :=
  match b with BountyFailed _ _ => true | _ => false end.

(** The comment of a command that went through. *)
Definition created_body (command : BountyCommand) (response : BountyResponse)
    (signature : string) (note : StatusNote) : CommentBody :=
  BountyCreated (taskId response) (amount command)
    (tokenType (tokenAddress command)) note
    (bountyUrl (taskId response)) (explorerUrl signature).

Definition created_with_issues_body (command : BountyCommand)
    (response : BountyResponse) (signature : string) : CommentBody :=
  BountyCreatedWithIssues (amount command) (tokenType (tokenAddress command))
    (bountyUrl (taskId response)) (explorerUrl signature).

(** What an attempt to report leaves on the issue at [url]: the issue is
    looked up, which is the issue lookup number [lookup] of the process,
    and the comment [b] is requested on it, which is the comment request
    number [request]; the comment exists when both return, and nothing is
    created when one of them throws. *)
Definition report_at (env : Env) (lookup request : nat) (url : string)
    (b : CommentBody) : list IssueComment :=
  match octokit_getIssue env lookup url with
  | Returns issueDetails =>
      let (owner, repo) := getRepoInfoFromUrl (repository_url issueDetails) in
      match octokit_createComment env request owner repo
              (number issueDetails) b with
      | Returns _ =>
          [{| on_owner := owner; on_repo := repo;
              on_issue := number issueDetails; comment_body := b |}]
      | Throws _ => []
      end
  | Throws _ => []
  end.

(** The attempt to report that was made last before the world [w']: its
    lookup is the last issue lookup that was made, and its request the
    last comment request. *)
Definition last_report (env : Env) (url : string) (w' : World)
    (b : CommentBody) : list IssueComment :=
  report_at env (pred (calls w' GetIssue)) (pred (calls w' CreateComment))
    url b.

(** From [w] to [w'] the issue at [url] was looked up, and what was
    created is the comment of the last attempt to report, if any; the
    registry is the same, and so is the number of invocations. *)
Definition reported (env : Env) (url : string) (w w' : World) : Prop :=
  (calls w GetIssue < calls w' GetIssue)%nat /\
  processedComments w' = processedComments w /\
  invocations w' = invocations w /\
  exists b, comments w' = comments w ++ last_report env url w' b.

(** The marketplace step in the world [w]: the issue and the repository
    are found, and the marketplace answers the request with [response]. *)
Definition marketplace_answers (cfg : Config) (env : Env) (w : World)
    (command : BountyCommand) (response : BountyResponse) : Prop :=
  exists issueDetails repository r,
    octokit_getIssue env (calls w GetIssue) (issueUrl command)
      = Returns issueDetails /\
    octokit_getRepository env (calls w GetRepository)
      (repository_url issueDetails) = Returns repository /\
    fetch_tasks env (calls w Fetch)
      (bounty_payload cfg command issueDetails repository) = Returns r /\
    ok r = true /\ json r = Returns response.

(** The marketplace step fails with [e]: a lookup or the request throws,
    the marketplace refuses, or its answer cannot be read. *)
Definition marketplace_fails (cfg : Config) (env : Env) (w : World)
    (command : BountyCommand) (e : JsError) : Prop :=
  octokit_getIssue env (calls w GetIssue) (issueUrl command) = Throws e \/
  exists issueDetails,
    octokit_getIssue env (calls w GetIssue) (issueUrl command)
      = Returns issueDetails /\
    (octokit_getRepository env (calls w GetRepository)
       (repository_url issueDetails) = Throws e \/
     exists repository,
       octokit_getRepository env (calls w GetRepository)
         (repository_url issueDetails) = Returns repository /\
       (fetch_tasks env (calls w Fetch)
          (bounty_payload cfg command issueDetails repository) = Throws e \/
        exists r,
          fetch_tasks env (calls w Fetch)
            (bounty_payload cfg command issueDetails repository) = Returns r /\
          ((ok r = true /\ json r = Throws e) \/
           (ok r = false /\ text r = Throws e) \/
           (ok r = false /\
            exists errorText,
              text r = Returns errorText /\
              e = new_Error ("Failed to create bounty: " +:+ statusText r
                             +:+ ". Details: " +:+ errorText))))).

(** The transaction of [response] is signed, and its submission in the
    world [w] answers [signature]. *)
Definition submitted (env : Env) (w : World) (response : BountyResponse)
    (signature : string) : Prop :=
  exists wallet transaction signed,
    getWalletKeypair env = Returns wallet /\
    deserialize env (serializedTransaction response) = Returns transaction /\
    sign env transaction wallet = Returns signed /\
    sendTransaction env (calls w SendTransaction) signed = Returns signature.

(** Signing or the submission throws [e]. *)
Definition submission_fails (env : Env) (w : World)
    (response : BountyResponse) (e : JsError) : Prop :=
  getWalletKeypair env = Throws e \/
  exists wallet,
    getWalletKeypair env = Returns wallet /\
    (deserialize env (serializedTransaction response) = Throws e \/
     exists transaction,
       deserialize env (serializedTransaction response) = Returns transaction /\
       (sign env transaction wallet = Throws e \/
        exists signed,
          sign env transaction wallet = Returns signed /\
          sendTransaction env (calls w SendTransaction) signed = Throws e)).

(** The error has no [signature] property that is truthy. *)
Definition without_signature (e : JsError) : Prop :=
  match err_signature e with
  | Some s => truthy s = false
  | None => True
  end.


(** The primary confirmation in the world [w] fails with [e]: the request
    for the latest blockhash or the confirmation rejects, or the
    confirmation is still pending when the timer fires. *)
Definition confirmation_fails (env : Env) (w : World) (signature : string)
    (e : JsError) : Prop :=
  getLatestBlockhash env (calls w GetLatestBlockhash) = Throws e \/
  exists latest,
    getLatestBlockhash env (calls w GetLatestBlockhash) = Returns latest /\
    (confirmTransaction env (calls w ConfirmTransaction)
       (confirmation_config signature latest) = Rejected e \/
     (confirmTransaction env (calls w ConfirmTransaction)
        (confirmation_config signature latest) = Pending /\
      e = new_Error "Confirmation timeout")).

(** What the [k]-th status query after the world [w] reports. *)
Definition status_check (env : Env) (w : World) (k : nat)
    (signature : string) : bool :=
  status_answer
    (getSignatureStatus env (k + calls w GetSignatureStatus) signature).

(** [w'] is [w] after the comments [cs] were created; the registry is
    the same, and so is the number of invocations of the pipeline. *)
Record after (cs : list IssueComment) (w w' : World) : Prop := {
  after_comments : comments w' = comments w ++ cs;
  after_processed : processedComments w' = processedComments w;
  after_invocations : invocations w' = invocations w
}.

(** What the [catch] block may comment. *)
Definition error_report (command : BountyCommand)
    (transactionSignature : option string)
    (bountyResponse : option BountyResponse) (error : JsError)
    (b : CommentBody) : Prop :=
  b = BountyFailed (message error)
        (transaction_note transactionSignature bountyResponse) \/
  exists signature response,
    transactionSignature = Some signature /\ bountyResponse = Some response /\
    b = created_with_issues_body command response signature.

(** [Q] holds of the outcome of [m] in [w] and of the world it leaves. *)
Definition wp {A} (m : M A) (w : World) (Q : outcome A -> World -> Prop) : Prop :=
  Q (fst (m w)) (snd (m w)).

(** [m] creates no comment, leaves the registry alone and does not
    invoke the pipeline. *)
Definition silent {A} (m : M A) : Prop := forall w, after [] w (snd (m w)).

(** [m] returns: it does not throw. *)
Definition returns {A} (m : M A) : Prop :=
  forall w, exists a, fst (m w) = Returns a.

(** [m] removes nothing from the registry. *)
Definition keeps {A} (m : M A) : Prop :=
  forall w, processedComments w ⊆ processedComments (snd (m w)).

(** ** Examples *)

Module Example.

Definition SOL : string := "So11111111111111111111111111111111111111112".

(** [AUTHORIZED_USERS=alice,Bob], [REPOSITORIES=octo/repo]. *)
Definition config : Config := load_config "alice,Bob" "octo/repo" "WALLET".

Definition issue_12 : string := "https://api.github.com/repos/octo/repo/issues/12".

Definition comment (i : Z) (b u : string) : GitHubComment :=
  {| id := i; body := b; user := {| login := u |}; issue_url := issue_12;
     created_at := "2025-01-01T00:00:00Z" |}.

Definition issue : GitHubIssue :=
  {| issue_id := 7; title := "Fix the parser"; issue_body := "";
     number := 12; html_url := "https://github.com/octo/repo/issues/12";
     repository_url := "https://api.github.com/repos/octo/repo" |}.

Definition repository : GitHubRepository :=
  {| name := "repo"; full_name := "octo/repo"; language := Some "TypeScript";
     owner := {| login := "octo" |} |}.

Definition response : BountyResponse :=
  {| taskId := "T1"; serializedTransaction := "AQID" |}.

Definition command : BountyCommand :=
  {| amount := Finite 5; tokenAddress := SOL; issueUrl := issue_12 |}.

(** The node says that the signature is confirmed. *)
Definition is_confirmed_status : outcome (option StatusResponse) :=
  Returns (Some {| value := Some {| confirmationStatus := Some confirmed |} |}).

(** The node does not know the signature. *)
Definition unknown_status : outcome (option StatusResponse) :=
  Returns (Some {| value := None |}).

Definition blockheight_error : JsError :=
  {| message := "Signature SIG has expired: block height exceeded.";
     err_signature := Some "SIG"; blockheight_exceeded := true |}.

(** An environment in which the marketplace answers [response] and the
    submission answers the signature [SIG]; the rest is given: the issue
    lookups, the wallet, how the confirmation settles, what the node says
    of a signature, and the comments of the repository. *)
Definition env (lookup : nat -> outcome GitHubIssue) (wallet : outcome string)
    (settled : Settled) (status : nat -> outcome (option StatusResponse))
    (listing : list GitHubComment) : Env :=
  {| octokit_getIssue := fun n _ => lookup n;
     octokit_getRepository := fun _ _ => Returns repository;
     octokit_createComment := fun _ _ _ _ _ => Returns tt;
     octokit_listCommentsForRepo := fun _ _ _ => Returns listing;
     fetch_tasks := fun _ _ =>
       Returns {| ok := true; statusText := "OK"; text := Returns "";
                  json := Returns response |};
     getWalletKeypair := wallet;
     deserialize := fun s => Returns s;
     sign := fun t _ => Returns t;
     sendTransaction := fun _ _ => Returns "SIG";
     getLatestBlockhash := fun _ =>
       Returns {| blockhash := "H"; lastValidBlockHeight := 100 |};
     confirmTransaction := fun _ _ => settled;
     getSignatureStatus := fun n _ => status n |}.

Definition found : nat -> outcome GitHubIssue := fun _ => Returns issue.

Definition wallet : outcome string := Returns "KEY".

(** The confirmation times out and the node does not know the
    signature. *)
Definition timeout_unknown : Env :=
  env found wallet Pending (fun _ => unknown_status) [].

(** The confirmation times out and the node says confirmed. *)
Definition timeout_confirmed : Env :=
  env found wallet Pending (fun _ => is_confirmed_status) [].

(** The blockhash expires and the node never knows the signature. *)
Definition expired_unknown : Env :=
  env found wallet (Rejected blockheight_error) (fun _ => unknown_status) [].

(** The secret key of the wallet cannot be decoded. *)
Definition bad_key : Env :=
  env found (Throws (new_Error "Non-base58 character")) Resolved
    (fun _ => is_confirmed_status) [].


(** After the submission the first issue lookup fails, and so does the
    status query that follows it. *)
Definition flaky : Env :=
  env (fun n => if (n =? 1)%nat then Throws (new_Error "Bad Gateway")
                else Returns issue)
    wallet Pending
    (fun n => if (n =? 0)%nat then is_confirmed_status
              else Throws (new_Error "fetch failed"))
    [].

(** The confirmation times out; the node says confirmed at the first
    query, the fallback check, and does not know the signature after
    that. *)
Definition flapping : Env :=
  env found wallet Pending
    (fun n => if (n =? 0)%nat then is_confirmed_status else unknown_status)
    [].


(** The first issue lookup fails, and the later ones find the issue. *)
Definition lookup_fails_once : Env :=
  env (fun n => if (n =? 0)%nat then Throws (new_Error "Bad Gateway")
                else Returns issue)
    wallet Resolved (fun _ => is_confirmed_status) [].

(** The blockhash expires, and the node knows the signature only at the
    fifth query, the one made before the comment. *)
Definition expired_late : Env :=
  env found wallet (Rejected blockheight_error)
    (fun n => if (n <? 4)%nat then unknown_status else is_confirmed_status) [].

Definition tab : string := String "009" "".

(** A command of alice, who is authorized, of mallory, who is not, and a
    comment that is no command. *)
Definition valid_comment : GitHubComment :=
  comment 1 ("/bounty 5 " +:+ SOL) "alice".

Definition unauthorized_comment : GitHubComment :=
  comment 2 ("/bounty 5 " +:+ SOL) "mallory".

Definition plain_comment : GitHubComment :=
  comment 3 "thanks, looks good to me" "alice".

Definition zero_comment : GitHubComment :=
  comment 4 ("/bounty 0 " +:+ SOL) "alice".

(** An amount of 310 digits, one followed by 309 zeros, and the amount
    [2^53 + 1], which is not a double. *)
Definition huge_amount : string :=
  string_of_list_ascii ("1"%char :: repeat "0"%char 309).

Definition huge_comment : GitHubComment :=
  comment 8 ("/bounty " +:+ huge_amount +:+ " " +:+ SOL) "alice".

Definition odd_comment : GitHubComment :=
  comment 9 ("/bounty 9007199254740993 " +:+ SOL) "alice".

(** Comments that the grammar of the specification does not describe:
    the keyword in upper case, tabulations for spaces, an underscore in
    the address. *)
Definition upper_case_comment : GitHubComment :=
  comment 5 ("/BOUNTY 5 " +:+ SOL) "alice".

Definition tabs_comment : GitHubComment :=
  comment 6 ("/bounty" +:+ tab +:+ "5" +:+ tab +:+ SOL) "alice".

Definition underscore_comment : GitHubComment :=
  comment 7 "/bounty 5 aaaaaaaaaaaaaaaa_aaaaaaaaaaaaaaaa" "alice".

(** Everything succeeds; the repository lists [listing]. *)
Definition all_well (listing : list GitHubComment) : Env :=
  env found wallet Resolved (fun _ => is_confirmed_status) listing.

End Example.

Definition initial_world : World :=
  {| calls := fun _ => 0; clock := 0; timers := []; console := [];
     comments := []; processedComments := ∅ |}.

(** ** The shape of the commands of both parsers *)

(** The dot of a fraction, under the [i] flag or without it. *)
Definition is_dot (ci : bool) (a : ascii) : bool :=
  if ci then Char.eqb_ci a "." else Ascii.eqb a ".".

(** The keyword, white space, an amount in group 1, white space, and in
    group 2 from [lo] to [hi] characters of the class [p]. *)
Definition command_shape (ci : bool) (lo : nat) (hi : option nat)
    (p : ascii -> bool) : Regex.regex :=
  Regex.Cat (Regex.lit ci "/" (list_ascii_of_string "bounty"))
    (Regex.Cat (Regex.plus (Regex.Chr Char.is_space))
       (Regex.Cat
          (Regex.Grp 1
             (Regex.Cat (Regex.plus (Regex.Chr Char.is_digit))
                (Regex.opt
                   (Regex.Cat (Regex.lit1 ci ".")
                      (Regex.plus (Regex.Chr Char.is_digit))))))
          (Regex.Cat (Regex.plus (Regex.Chr Char.is_space))
             (Regex.Grp 2 (Regex.Rep lo hi (Regex.Chr p)))))).

(** ** [src/src/config.ts], first part: loading the module *)

(** [process.env.X || ''], [process.env] being the environment after
    [dotenv.config()]. *)
Definition env_var (process_env : gmap string string) (name : string) : string :=
  default "" (process_env !! name).

(** The module is loaded: the constants are read, then the four checks
    are made in their order; an error thrown there ends the process. *)
Definition load_module (process_env : gmap string string) : outcome Config :=
  let GITHUB_TOKEN := env_var process_env "GITHUB_TOKEN" in
  let WALLET_PRIVATE_KEY := env_var process_env "WALLET_PRIVATE_KEY" in
  let WALLET_PUBLIC_KEY := env_var process_env "WALLET_PUBLIC_KEY" in
  let loaded :=
    load_config (env_var process_env "AUTHORIZED_USERS")
      (env_var process_env "REPOSITORIES") WALLET_PUBLIC_KEY in
  if negb (truthy GITHUB_TOKEN) then
    Throws (new_Error "GITHUB_TOKEN is required")
  else if negb (truthy WALLET_PRIVATE_KEY) then
    Throws (new_Error "WALLET_PRIVATE_KEY is required")
  else if negb (truthy WALLET_PUBLIC_KEY) then
    Throws (new_Error "WALLET_PUBLIC_KEY is required")
  else if (length (REPOSITORIES loaded) =? 0)%nat then
    Throws (new_Error "REPOSITORIES is required")
  else Returns loaded.

(** The character [c] does not occur in [s]. *)
Definition free_of (c : ascii) (s : string) : Prop :=
  forallb (fun a => negb (Ascii.eqb a c)) (list_ascii_of_string s) = true.

(** ** What a function spends *)

(** What is counted: the calls of one kind that leave the process, or the
    milliseconds spent in timers. *)
Inductive Meter : Type := Calls (a : Api) | Timers.

Definition reading (meter : Meter) (w : World) : Z :=
  match meter with
  | Calls a => Z.of_nat (calls w a)
  | Timers => clock w
  end.

(** [m] adds at most [n] to the meter and takes nothing from it. *)
Definition costs {A} (meter : Meter) (n : Z) (m : M A) : Prop :=
  forall w,
    (reading meter w <= reading meter (snd (m w)) <= reading meter w + n)%Z.

Definition call_cost (meter : Meter) (a : Api) : Z :=
  match meter with
  | Calls b => if Api_eqb a b then 1 else 0
  | Timers => 0
  end.

Definition sleep_cost (meter : Meter) (ms : Z) : Z :=
  match meter with
  | Timers => ms
  | Calls _ => 0
  end.

(** The most that the functions of the bounty module spend. *)
Definition createBountyTransaction_bill (meter : Meter) : Z :=
  match meter with
  | Calls GetIssue | Calls GetRepository | Calls Fetch => 1
  | _ => 0
  end.

Definition signAndSendTransaction_bill (meter : Meter) : Z :=
  match meter with
  | Calls SendTransaction | Calls GetLatestBlockhash
  | Calls ConfirmTransaction => 1
  | Calls GetSignatureStatus => 4
  | Timers => 80000
  | _ => 0
  end.

Definition report_created_bill (meter : Meter) : Z :=
  match meter with
  | Calls GetIssue | Calls GetSignatureStatus | Calls CreateComment => 1
  | _ => 0
  end.

Definition report_error_bill (meter : Meter) : Z :=
  match meter with
  | Calls GetSignatureStatus => 1
  | Calls GetIssue | Calls CreateComment => 2
  | _ => 0
  end.

Definition processBountyCommand_bill (meter : Meter) : Z :=
  match meter with
  | Calls GetRepository | Calls Fetch | Calls SendTransaction
  | Calls GetLatestBlockhash | Calls ConfirmTransaction => 1
  | Calls GetIssue => 4
  | Calls CreateComment => 3
  | Calls GetSignatureStatus => 6
  | Calls ListComments => 0
  | Timers => 80000
  end.

(** Signing fails with [e]: the key of the wallet cannot be read, the
    transaction cannot be decoded, or it cannot be signed.  Nothing has
    been sent then. *)
Definition signing_fails (env : Env) (serializedTransaction : string)
    (e : JsError) : Prop :=
  getWalletKeypair env = Throws e \/
  exists wallet,
    getWalletKeypair env = Returns wallet /\
    (deserialize env serializedTransaction = Throws e \/
     exists transaction,
       deserialize env serializedTransaction = Returns transaction /\
       sign env transaction wallet = Throws e).

(** The primary confirmation in the world [w] succeeds. *)
Definition confirmation_succeeds (env : Env) (w : World) (signature : string)
    : Prop :=
  exists latest,
    getLatestBlockhash env (calls w GetLatestBlockhash) = Returns latest /\
    confirmTransaction env (calls w ConfirmTransaction)
      (confirmation_config signature latest) = Resolved.

(** The issue or the repository of the command cannot be looked up. *)
Definition lookup_fails (env : Env) (w : World) (command : BountyCommand)
    (e : JsError) : Prop :=
  octokit_getIssue env (calls w GetIssue) (issueUrl command) = Throws e \/
  exists issueDetails,
    octokit_getIssue env (calls w GetIssue) (issueUrl command)
      = Returns issueDetails /\
    octokit_getRepository env (calls w GetRepository)
      (repository_url issueDetails) = Throws e.

Module Scenario.

(** The submission is refused with an error that carries a signature. *)
Definition send_error : JsError :=
  {| message := "failed to send transaction";
     err_signature := Some "SIG2"; blockheight_exceeded := false |}.

Definition send_refused : Env :=
  {| octokit_getIssue := fun _ _ => Returns Example.issue;
     octokit_getRepository := fun _ _ => Returns Example.repository;
     octokit_createComment := fun _ _ _ _ _ => Returns tt;
     octokit_listCommentsForRepo := fun _ _ _ => Returns [];
     fetch_tasks := fun _ _ =>
       Returns {| ok := true; statusText := "OK"; text := Returns "";
                  json := Returns Example.response |};
     getWalletKeypair := Returns "KEY";
     deserialize := fun s => Returns s;
     sign := fun t _ => Returns t;
     sendTransaction := fun _ _ => Throws send_error;
     getLatestBlockhash := fun _ =>
       Returns {| blockhash := "H"; lastValidBlockHeight := 100 |};
     confirmTransaction := fun _ _ => Resolved;
     getSignatureStatus := fun _ _ => Example.unknown_status |}.

(** The marketplace refuses the request. *)
Definition refused : FetchResponse :=
  {| ok := false; statusText := "Bad Request";
     text := Returns "amount too small";
     json := Throws (new_Error "Unexpected token") |}.

Definition marketplace_refuses : Env :=
  {| octokit_getIssue := fun _ _ => Returns Example.issue;
     octokit_getRepository := fun _ _ => Returns Example.repository;
     octokit_createComment := fun _ _ _ _ _ => Returns tt;
     octokit_listCommentsForRepo := fun _ _ _ => Returns [];
     fetch_tasks := fun _ _ => Returns refused;
     getWalletKeypair := Returns "KEY";
     deserialize := fun s => Returns s;
     sign := fun t _ => Returns t;
     sendTransaction := fun _ _ => Returns "SIG";
     getLatestBlockhash := fun _ =>
       Returns {| blockhash := "H"; lastValidBlockHeight := 100 |};
     confirmTransaction := fun _ _ => Resolved;
     getSignatureStatus := fun _ _ => Example.is_confirmed_status |}.

(** The comments of the repositories cannot be listed. *)
Definition unlisted : Env :=
  {| octokit_getIssue := fun _ _ => Returns Example.issue;
     octokit_getRepository := fun _ _ => Returns Example.repository;
     octokit_createComment := fun _ _ _ _ _ => Returns tt;
     octokit_listCommentsForRepo := fun _ _ _ => Throws (new_Error "Not Found");
     fetch_tasks := fun _ _ => Returns refused;
     getWalletKeypair := Returns "KEY";
     deserialize := fun s => Returns s;
     sign := fun t _ => Returns t;
     sendTransaction := fun _ _ => Returns "SIG";
     getLatestBlockhash := fun _ =>
       Returns {| blockhash := "H"; lastValidBlockHeight := 100 |};
     confirmTransaction := fun _ _ => Resolved;
     getSignatureStatus := fun _ _ => Example.is_confirmed_status |}.

End Scenario.

(** [m] creates comments that all satisfy [P], and removes none. *)
Definition places {A} (P : IssueComment -> Prop) (m : M A) : Prop :=
  forall w,
    exists cs, comments (snd (m w)) = comments w ++ cs /\ Forall P cs.

(** The comment is on an issue that a lookup of [url] has answered, in
    the repository that the URL of that issue names. *)
Definition on_issue_of (env : Env) (url : string) (c : IssueComment) : Prop :=
  exists n issue,
    octokit_getIssue env n url = Returns issue /\
    on_issue c = number issue /\
    (on_owner c, on_repo c) = getRepoInfoFromUrl (repository_url issue).

(** Between [w] and [w'] comments were listed, lines were logged and
    identifiers were put in the registry; nothing else happened. *)
Definition idle (w w' : World) : Prop :=
  comments w' = comments w /\
  invocations w' = invocations w /\
  clock w' = clock w /\
  timers w' = timers w /\
  forall a, a <> ListComments -> calls w' a = calls w a.

(** No comment that the poll made in the world [w] is given is parsed to
    a command.  The poll lists the repositories of the configuration in
    their order, once each: the comments of the repository number [k] are
    the answer to the listing number [k + calls w ListComments]. *)
Definition no_command_listed (cfg : Config) (env : Env) (w : World) : Prop :=
  forall k repoFullName listing comment,
    nth_error (REPOSITORIES cfg) k = Some repoFullName ->
    octokit_listCommentsForRepo env (k + calls w ListComments)
      (fst (parseRepoFullName repoFullName))
      (snd (parseRepoFullName repoFullName)) = Returns listing ->
    In comment listing -> parseBountyCommand cfg comment = None.

(** ** [src/src/config.ts], middle part: the server for web hooks *)

Module Webhook.

(** A regular expression between [^] and [$], without the [m] flag: [^]
    holds at the start of the input only, so that a match starts there,
    and [$] holds at its end only, which the continuation checks.  The
    groups of the match are returned. *)
Definition match_whole (r : Regex.regex) (s : string) : option Regex.captures :=
  Regex.exec r (list_ascii_of_string s) []
    (fun rest groups =>
       match rest with
       | [] => Some groups
       | _ :: _ => None
       end).

(** *** The key of the wallet *)

(** [[1-9A-HJ-NP-Za-km-z]] *)
Definition base58_char (a : ascii) : bool :=
  Char.between 49 57 a || Char.between 65 72 a || Char.between 74 78 a ||
  Char.between 80 90 a || Char.between 97 107 a || Char.between 109 122 a.

(** [^[1-9A-HJ-NP-Za-km-z]{88,}$] without its anchors. *)
Definition base58_regex : Regex.regex :=
  Regex.Rep 88 None (Regex.Chr base58_char).

Definition startsWith (c : ascii) (s : string) : bool :=
  match s with
  | String a _ => Ascii.eqb a c
  | EmptyString => false
  end.

Definition endsWith (c : ascii) (s : string) : bool :=
  match rev (list_ascii_of_string s) with
  | a :: _ => Ascii.eqb a c
  | [] => false
  end.

(** How the secret key is written. *)
Inductive KeyFormat : Type := Base58 | JsonArray | Base64.

(** The three cases of the module, in their order. *)
Definition key_format (key : string) : KeyFormat :=
  match match_whole base58_regex key with
  | Some _ => Base58
  | None =>
      if startsWith "[" key && endsWith "]" key then JsonArray else Base64
  end.

(** *** The command *)

(** [^\/bounty\s+(\d+(?:\.\d+)?)\s+([A-Za-z0-9]+)$] without its anchors. *)
Definition command_regex : Regex.regex :=
  let space := Regex.Chr Char.is_space in
  let digit := Regex.Chr Char.is_digit in
  let dot := Regex.lit1 false "." in
  let alnum := Regex.Chr Char.is_alnum in
  Regex.Cat (Regex.lit false "/" (list_ascii_of_string "bounty"))
    (Regex.Cat (Regex.plus space)
       (Regex.Cat
          (Regex.Grp 1
             (Regex.Cat (Regex.plus digit)
                (Regex.opt (Regex.Cat dot (Regex.plus digit)))))
          (Regex.Cat (Regex.plus space) (Regex.Grp 2 (Regex.plus alnum))))).

Record Command : Type := {
  amount : JsNumber;
  mintAddress : string
}.

Definition parseCommand (comment : string) : option Command :=
  match match_whole command_regex comment with
  | Some groups =>
      Some {| amount := Number.parseFloat (group 1 groups);
              mintAddress := group 2 groups |}
  | None => None
  end.

(** [String.prototype.trim]: white space and line terminators are taken
    from both ends. *)
Definition trim (s : string) : string :=
  string_of_list_ascii
    (rev (Number.dropWhile Char.is_space
            (rev (Number.dropWhile Char.is_space (list_ascii_of_string s))))).

(** *** The event *)

Record Comment : Type := { body : string; user : GitHubUser }.

(** The body of an issue is null when it has no description. *)
Record Issue : Type := {
  number : Z;
  title : string;
  issue_body : option string
}.

Record Repository : Type := { owner : GitHubUser; name : string }.

Record Payload : Type := {
  comment : Comment;
  issue : Issue;
  repository : Repository
}.

(** The request for a task; it has no [isHidden]. *)
Record TaskRequest : Type := {
  token : Token;
  task_title : string;
  content : string;
  requirements : string;
  tags : list string;
  payer : string
}.

(** The three comments of the handler, with what they interpolate:
    "@login You are not authorized to create bounties. ...",
    "Bounty created! Task ID: ... Amount: ... Check it on gibwork soon!"
    and "Error creating bounty: ...". *)
Inductive CommentBody : Type :=
| NotAuthorized (login : string)
| BountyCreated (taskId : string) (amount : JsNumber) (mintAddress : string)
| ErrorCreating (message : string).

(** The calls that leave the process. *)
Inductive Call : Type :=
| GetPermission (owner repo username : string)
| ListLanguages (owner repo : string)
| PostTask (request : TaskRequest)
| CreateComment (owner repo : string) (issue_number : Z) (body : CommentBody).

(** What the handler does, in its order: it calls, and it writes errors
    on the console. *)
Inductive Event : Type :=
| Called (c : Call)
| ConsoleError (what : string) (e : JsError).

(** The collaborators, which answer a call from its arguments: the
    permission of a collaborator, the languages of a repository in their
    order, the answer of the marketplace, the creation of a comment, and
    the signature of a transaction with the key of the wallet. *)
Record Env : Type := {
  getCollaboratorPermissionLevel : string -> string -> string -> outcome string;
  listLanguages : string -> string -> outcome (list string);
  axios_post : TaskRequest -> outcome BountyResponse;
  createComment : string -> string -> Z -> CommentBody -> outcome unit;
  partialSign : string -> outcome string
}.

(** Code that writes events and may throw. *)
Definition H (A : Type) : Type := list Event * outcome A.

Definition ret {A} (a : A) : H A := ([], Returns a).

Definition throw {A} (e : JsError) : H A := ([], Throws e).

Definition bind {A B} (m : H A) (k : A -> H B) : H B :=
  match m with
  | (t, Returns a) => let (t', r) := k a in (t ++ t', r)
  | (t, Throws e) => (t, Throws e)
  end.

Definition try_catch {A} (m : H A) (h : JsError -> H A) : H A :=
  match m with
  | (t, Returns a) => (t, Returns a)
  | (t, Throws e) => let (t', r) := h e in (t ++ t', r)
  end.

Definition console_error (what : string) (e : JsError) : H unit :=
  ([ConsoleError what e], Returns tt).

Definition call {A} (c : Call) (answer : outcome A) : H A :=
  ([Called c], answer).

Declare Scope hook_scope.
Delimit Scope hook_scope with hook.
Notation "x <- m ;; k" := (bind m (fun x => k))
  (at level 100, m at next level, right associativity) : hook_scope.
Notation "m ;; k" := (bind m (fun _ => k))
  (at level 100, right associativity) : hook_scope.

Section Handler.
Context (WALLET_PUBLIC_KEY : string) (env : Env).
Open Scope hook_scope.

Definition isAuthorizedUser (username repoOwner repoName : string) : H bool :=
  try_catch
    (permission <- call (GetPermission repoOwner repoName username)
                     (getCollaboratorPermissionLevel env repoOwner repoName
                        username) ;;
     ret (existsb (String.eqb permission) ["write"; "admin"]))
    (fun error =>
       console_error "Error checking user authorization:" error ;; ret false).

(** [Object.keys(data)[0] || 'Other'] *)
Definition getRepoLanguage (owner repo : string) : H string :=
  try_catch
    (languages <- call (ListLanguages owner repo) (listLanguages env owner repo) ;;
     ret (match languages with
          | first :: _ => or_else first "Other"
          | [] => "Other"
          end))
    (fun error =>
       console_error "Error getting repository language:" error ;; ret "Other").

Definition createBounty (amount : JsNumber) (mintAddress issueTitle issueBody
    repoLanguage : string) : H BountyResponse :=
  let request :=
    {| token := Build_Token mintAddress amount;
       task_title := issueTitle;
       content := issueBody;
       requirements := "PR to be merged";
       tags := [repoLanguage];
       payer := WALLET_PUBLIC_KEY |} in
  try_catch (call (PostTask request) (axios_post env request))
    (fun error => console_error "Error creating bounty:" error ;; throw error).

Definition signTransaction (serializedTransaction : string) : H string :=
  try_catch (([], partialSign env serializedTransaction) : H string)
    (fun error =>
       console_error "Error signing transaction:" error ;; throw error).

(** [webhooks.on('issue_comment.created', ...)] *)
Definition on_issue_comment_created (payload : Payload) : H unit :=
  let commentBody := trim (body (comment payload)) in
  match parseCommand commentBody with
  | None => ret tt
  | Some command =>
      let author := login (user (comment payload)) in
      let repoOwner := login (owner (repository payload)) in
      let repoName := name (repository payload) in
      let issueNumber := number (issue payload) in
      isAuthorized <- isAuthorizedUser author repoOwner repoName ;;
      if negb isAuthorized then
        call (CreateComment repoOwner repoName issueNumber (NotAuthorized author))
          (createComment env repoOwner repoName issueNumber
             (NotAuthorized author))
      else
        try_catch
          (repoLanguage <- getRepoLanguage repoOwner repoName ;;
           bountyResponse <-
             createBounty (amount command) (mintAddress command)
               (title (issue payload))
               (match issue_body (issue payload) with
                | Some b => or_else b "No description provided"
                | None => "No description provided"
                end)
               repoLanguage ;;
           signedTransaction <-
             signTransaction (serializedTransaction bountyResponse) ;;
           let created :=
             BountyCreated (taskId bountyResponse) (amount command)
               (mintAddress command) in
           call (CreateComment repoOwner repoName issueNumber created)
             (createComment env repoOwner repoName issueNumber created))
          (fun error =>
             console_error "Error processing bounty:" error ;;
             let failed := ErrorCreating (message error) in
             call (CreateComment repoOwner repoName issueNumber failed)
               (createComment env repoOwner repoName issueNumber failed))
  end.

End Handler.

(** *** Loading the key *)

(** What decodes a key: [bs58.decode], [JSON.parse] with
    [Uint8Array.from], [Buffer.from] in base 64, which does not throw, and
    [Keypair.fromSecretKey]. *)
Record KeyDecoders : Type := {
  bs58_decode : string -> outcome string;
  json_bytes : string -> outcome string;
  base64_bytes : string -> string;
  fromSecretKey : string -> outcome string
}.

Definition lift {A} (r : outcome A) : H A := ([], r).

(** The key pair of the module: an error of any step is logged, and
    replaced. *)
Definition load_wallet (decoders : KeyDecoders) (key : string) : H string :=
  try_catch
    (match key_format key with
     | Base58 =>
         bind (lift (bs58_decode decoders key))
           (fun secretKey => lift (fromSecretKey decoders secretKey))
     | JsonArray =>
         bind (lift (json_bytes decoders key))
           (fun secretKey => lift (fromSecretKey decoders secretKey))
     | Base64 => lift (fromSecretKey decoders (base64_bytes decoders key))
     end)
    (fun error =>
       bind (console_error "Error creating keypair from private key:" error)
         (fun _ => throw (new_Error "Invalid private key format"))).

(** *** The vocabulary of the properties *)

(** The calls of a run, in their order. *)
Fixpoint calls_of (t : list Event) : list Call :=
  match t with
  | [] => []
  | Called c :: t' => c :: calls_of t'
  | ConsoleError _ _ :: t' => calls_of t'
  end.

Definition is_task (c : Call) : bool :=
  match c with PostTask _ => true | _ => false end.

Definition is_comment (c : Call) : bool :=
  match c with CreateComment _ _ _ _ => true | _ => false end.

Definition is_permission (c : Call) : bool :=
  match c with GetPermission _ _ _ => true | _ => false end.

(** What the service says of the author of the comment. *)
Definition permission_of (env : Env) (payload : Payload) : outcome string :=
  getCollaboratorPermissionLevel env (login (owner (repository payload)))
    (name (repository payload)) (login (user (comment payload))).

(** The author may write: the service answers [write] or [admin]. *)
Definition may_write (permission : outcome string) : bool :=
  match permission with
  | Returns p => String.eqb p "write" || String.eqb p "admin"
  | Throws _ => false
  end.

(** The comment of the handler on the issue of the event. *)
Definition comment_call (payload : Payload) (b : CommentBody) : Call :=
  CreateComment (login (owner (repository payload)))
    (name (repository payload)) (number (issue payload)) b.

Definition comment_answer (env : Env) (payload : Payload) (b : CommentBody)
    : outcome unit :=
  createComment env (login (owner (repository payload)))
    (name (repository payload)) (number (issue payload)) b.

(** The language that the handler takes from an answer of the service. *)
Definition language_of (languages : outcome (list string)) : string :=
  match languages with
  | Returns (first :: _) => or_else first "Other"
  | _ => "Other"
  end.

(** The request that the handler sends for [command]. *)
Definition task_of (WALLET_PUBLIC_KEY : string) (env : Env) (payload : Payload)
    (command : Command) : TaskRequest :=
  {| token := Build_Token (mintAddress command) (amount command);
     task_title := title (issue payload);
     content :=
       match issue_body (issue payload) with
       | Some b => or_else b "No description provided"
       | None => "No description provided"
       end;
     requirements := "PR to be merged";
     tags := [language_of (listLanguages env (login (owner (repository payload)))
                             (name (repository payload)))];
     payer := WALLET_PUBLIC_KEY |}.

(** A command of the server: the keyword as it is written, white space,
    an amount, white space, and letters and digits to the end. *)
Definition is_command (s amt addr : str) : Prop :=
  exists ws1 ws2,
    s = list_ascii_of_string "/bounty" ++ ws1 ++ amt ++ ws2 ++ addr /\
    Grammar.is_blank ws1 /\ Grammar.is_amount amt /\ Grammar.is_blank ws2 /\
    addr <> [] /\ Grammar.all Char.is_alnum addr.

End Webhook.

Module HookScenario.

Definition payload (text author : string) (description : option string)
    : Webhook.Payload :=
  {| Webhook.comment :=
       {| Webhook.body := text; Webhook.user := {| login := author |} |};
     Webhook.issue :=
       {| Webhook.number := 12; Webhook.title := "Fix the parser";
          Webhook.issue_body := description |};
     Webhook.repository :=
       {| Webhook.owner := {| login := "octo" |}; Webhook.name := "repo" |} |}.

(** alice may write, the others may read; the marketplace and the
    code-hosting service answer. *)
Definition env : Webhook.Env :=
  {| Webhook.getCollaboratorPermissionLevel := fun _ _ username =>
       Returns (if String.eqb username "alice" then "write" else "read");
     Webhook.listLanguages := fun _ _ => Returns ["TypeScript"; "Shell"];
     Webhook.axios_post := fun _ => Returns Example.response;
     Webhook.createComment := fun _ _ _ _ => Returns tt;
     Webhook.partialSign := fun t => Returns t |}.

Definition command : Webhook.Command :=
  {| Webhook.amount := Number.parseFloat "5";
     Webhook.mintAddress := Example.SOL |}.

Definition command_text : string := "  /bounty 5 " +:+ Example.SOL +:+ " ".

End HookScenario.

(** * Properties *)

Module RegexFacts.
Import Regex.

Lemma taken_app (w s1 : str) : taken (w ++ s1) s1 = w.
Proof.
  unfold taken. rewrite length_app.
  replace (length w + length s1 - length s1)%nat with (length w) by lia.
  rewrite firstn_app, firstn_all, Nat.sub_diag. simpl. apply app_nil_r.
Qed.

Section Soundness.
Context {R : Type}.

Lemma rep_sound (r : regex) (IH : sound R r) :
  forall fuel lo hi s c (k : @cont R) x,
    rep (exec r) fuel lo hi s c k = Some x ->
    exists n w s1 c1,
      s = w ++ s1 /\ (lo <= n)%nat /\ within hi n /\
      iter n (sem r) w c c1 /\ k s1 c1 = Some x.
Proof.
  assert (Hstop : forall lo hi s c (k : @cont R) x,
             (if (lo =? 0)%nat then k s c else None) = Some x ->
             exists n w s1 c1,
               s = w ++ s1 /\ (lo <= n)%nat /\ within hi n /\
               iter n (sem r) w c c1 /\ k s1 c1 = Some x).
  { intros lo hi s c k x H. destruct (Nat.eqb_spec lo 0) as [->|]; [|discriminate].
    exists 0%nat, [], s, c. repeat split; auto. destruct hi; simpl; lia. }
  induction fuel as [|fuel IHf]; intros lo hi s c k x H; cbn [rep] in H;
    cbv zeta in H.
  - destruct (exhausted hi); [eauto | discriminate].
  - destruct (exhausted hi) eqn:Hex; [eauto|].
    match type of H with
    | match ?e with _ => _ end = _ => destruct e as [y|] eqn:Hbody
    end; [|eauto].
    injection H as ->.
    apply IH in Hbody. destruct Hbody as (w1 & s1 & c1 & -> & Hsem & Hk).
    destruct ((lo =? 0)%nat && (length (w1 ++ s1) <=? length s1)%nat);
      [discriminate|].
    apply IHf in Hk. destruct Hk as (n & w2 & s2 & c2 & -> & Hlo & Hhi & Hit & Hk).
    exists (S n), (w1 ++ w2), s2, c2. repeat split.
    + now rewrite app_assoc.
    + lia.
    + destruct hi as [[|h]|]; simpl in *; first [discriminate | lia | exact I].
    + simpl. exists w1, w2, c1. auto.
    + exact Hk.
Qed.

Lemma exec_sound (r : regex) : sound R r.
Proof.
  induction r as [p | r1 IH1 r2 IH2 | lo hi r IH | n r IH];
    intros s c k x H; cbn [exec] in H.
  - destruct s as [|a s]; [discriminate|].
    destruct (p a) eqn:Hp; [|discriminate].
    exists [a], s, c. simpl. eauto 6.
  - apply IH1 in H. destruct H as (w1 & s1 & c1 & -> & H1 & H).
    apply IH2 in H. destruct H as (w2 & s2 & c2 & -> & H2 & H).
    exists (w1 ++ w2), s2, c2. split; [now rewrite app_assoc|].
    split; [|exact H]. simpl. exists w1, w2, c1. auto.
  - apply rep_sound in H; [|exact IH].
    destruct H as (m & w & s1 & c1 & -> & Hlo & Hhi & Hit & Hk).
    exists w, s1, c1. simpl. eauto 8.
  - apply IH in H. destruct H as (w & s1 & c1 & -> & Hsem & Hk).
    rewrite taken_app in Hk. exists w, s1, ((n, w) :: c1). simpl. eauto 6.
Qed.
End Soundness.

Lemma match_here_sound r s m c :
  match_here r s = Some (m, c) -> exists post, s = m ++ post /\ sem r m [] c.
Proof.
  unfold match_here. intros H. apply exec_sound in H.
  destruct H as (w & s1 & c1 & -> & Hsem & H).
  rewrite taken_app in H. injection H as <- <-. eauto.
Qed.

Lemma search_sound r s m c :
  search r s = Some (m, c) ->
  exists pre post, s = pre ++ m ++ post /\ sem r m [] c.
Proof.
  induction s as [|a s IH]; simpl.
  - destruct (match_here r []) as [[m' c']|] eqn:H; [|discriminate].
    intros [= -> ->]. apply match_here_sound in H. destruct H as (post & H & Hs).
    exists [], post. auto.
  - destruct (match_here r (a :: s)) as [[m' c']|] eqn:H.
    + intros [= -> ->]. apply match_here_sound in H. destruct H as (post & H & Hs).
      exists [], post. auto.
    + intros H'. apply IH in H'. destruct H' as (pre & post & -> & Hs).
      exists (a :: pre), post. auto.
Qed.

(** The iterations of a class consume characters of the class and leave
    the groups alone. *)
Lemma iter_class p : forall n w c c',
  iter n (sem (Chr p)) w c c' ->
  c' = c /\ length w = n /\ forallb p w = true.
Proof.
  induction n as [|n IH]; simpl; intros w c c' H.
  - destruct H as [-> ->]. auto.
  - destruct H as (w1 & w2 & c1 & -> & (-> & a & -> & Hp) & H).
    apply IH in H. destruct H as (-> & <- & H). simpl. rewrite Hp, H. auto.
Qed.

End RegexFacts.

Module RegexComplete.
Import Regex RegexFacts.

Section Completeness.
Context {R : Type}.

Lemma rep_complete (r : regex) (IH : complete R r)
    (Hne : forall w c c', sem r w c c' -> w <> []) :
  forall n fuel lo hi w s1 c c1 (k : @cont R),
    iter n (sem r) w c c1 -> (lo <= n)%nat -> within hi n ->
    (lo + length (w ++ s1) < fuel)%nat ->
    k s1 c1 <> None ->
    rep (exec r) fuel lo hi (w ++ s1) c k <> None.
Proof.
  induction n as [|n IHn]; intros fuel lo hi w s1 c c1 k Hit Hlo Hhi Hfuel Hk.
  - destruct Hit as [-> ->]. assert (lo = 0)%nat as -> by lia.
    destruct fuel as [|fuel]; [lia|]. cbn [rep app]. cbv zeta.
    change (0 =? 0)%nat with true. cbv iota.
    destruct (exhausted hi); [exact Hk|].
    match goal with |- match ?e with _ => _ end <> _ => destruct e end;
      [discriminate | exact Hk].
  - destruct Hit as (w1 & w2 & c' & -> & Hsem & Hit).
    destruct fuel as [|fuel]; [lia|]. cbn [rep]. cbv zeta.
    assert (Hex : exhausted hi = false).
    { destruct hi as [[|h]|]; simpl in *; [lia|reflexivity|reflexivity]. }
    rewrite Hex.
    assert (Hw1 : w1 <> []) by (eapply Hne; eauto).
    assert (Hbody :
              exec r ((w1 ++ w2) ++ s1) c
                (fun s2 c2 =>
                   if (lo =? 0)%nat && (length ((w1 ++ w2) ++ s1) <=? length s2)%nat
                   then None
                   else rep (exec r) fuel (pred lo) (dec hi) s2 c2 k) <> None).
    { rewrite <- app_assoc. apply (IH w1 (w2 ++ s1) c c'); [exact Hsem|].
      assert (Hlen : (length (w1 ++ w2 ++ s1) <=? length (w2 ++ s1))%nat = false).
      { apply Nat.leb_gt. rewrite (length_app w1).
        destruct w1; [congruence | simpl; lia]. }
      rewrite Hlen, andb_false_r.
      apply (IHn fuel (pred lo) (dec hi) w2 s1 c' c1 k); auto.
      - lia.
      - destruct hi as [h|]; simpl in *; [lia | exact I].
      - rewrite <- app_assoc, (length_app w1) in Hfuel.
        destruct w1; [congruence | simpl in *; lia]. }
    match goal with
    | |- match ?e with _ => _ end <> _ => destruct e eqn:E
    end; [discriminate | exfalso; apply Hbody; exact E].
Qed.

Lemma exec_complete (r : regex) : wf r -> complete R r.
Proof.
  induction r as [p | r1 IH1 r2 IH2 | lo hi r IH | n r IH];
    intros Hwf w s1 c c1 k Hsem Hk; cbn [exec wf sem] in *.
  - destruct Hsem as (-> & a & -> & Hp). simpl. now rewrite Hp.
  - destruct Hwf as [Hwf1 Hwf2].
    destruct Hsem as (w1 & w2 & c' & -> & H1 & H2).
    rewrite <- app_assoc. apply (IH1 Hwf1 w1 (w2 ++ s1) c c'); [exact H1|].
    now apply (IH2 Hwf2 w2 s1 c' c1).
  - destruct Hwf as [Hwf Hne]. destruct Hsem as (m & Hlo & Hhi & Hit).
    apply (rep_complete r (IH Hwf) Hne m _ lo hi w s1 c c1 k); auto.
  - destruct Hsem as (c' & Hsem & ->).
    apply (IH Hwf w s1 c c'); [exact Hsem|]. now rewrite taken_app.
Qed.

End Completeness.

Lemma match_here_complete r w post c :
  wf r -> sem r w [] c -> match_here r (w ++ post) <> None.
Proof.
  intros Hwf Hsem. unfold match_here.
  apply (exec_complete r Hwf w post [] c); [exact Hsem | discriminate].
Qed.

(** The search finds a match whenever there is one. *)
Lemma search_complete r s : wf r -> occurs r s -> search r s <> None.
Proof.
  intros Hwf (pre & w & post & c & -> & Hsem).
  induction pre as [|a pre IH].
  - simpl app. pose proof (match_here_complete r w post c Hwf Hsem) as H.
    destruct (w ++ post); simpl; destruct (match_here r _); congruence.
  - simpl. destruct (match_here r (a :: pre ++ w ++ post)); [discriminate|].
    exact IH.
Qed.

Lemma search_occurs r s m c : search r s = Some (m, c) -> occurs r s.
Proof.
  intros H. apply search_sound in H. destruct H as (pre & post & -> & H).
  exists pre, m, post, c. auto.
Qed.

End RegexComplete.

Module ParserFacts.
Import Regex RegexFacts Grammar.

Lemma sem_lit1 ci b w c c' :
  sem (lit1 ci b) w c c' ->
  c' = c /\ exists a, w = [a] /\ (if ci then Char.eqb_ci a b else Ascii.eqb a b) = true.
Proof. simpl. tauto. Qed.

Lemma sem_lit ci : forall cs c0 w c c',
  sem (lit ci c0 cs) w c c' ->
  c' = c /\
  Forall2 (fun a b => (if ci then Char.eqb_ci a b else Ascii.eqb a b) = true)
    w (c0 :: cs).
Proof.
  induction cs as [|c1 cs IH]; intros c0 w c c' H.
  - apply sem_lit1 in H. destruct H as (-> & a & -> & H). auto.
  - cbn [lit sem] in H. destruct H as (w1 & w2 & c2 & -> & H1 & H2).
    apply sem_lit1 in H1. destruct H1 as (-> & a & -> & H1).
    apply IH in H2. destruct H2 as (-> & H2). split; [reflexivity|].
    simpl. constructor; assumption.
Qed.

Lemma sem_plus p w c c' :
  sem (plus (Chr p)) w c c' -> c' = c /\ w <> [] /\ all p w.
Proof.
  unfold plus. cbn [sem]. intros (n & Hn & _ & H).
  apply iter_class in H. destruct H as (-> & Hl & H).
  repeat split; auto. intros ->. simpl in Hl. lia.
Qed.

Lemma sem_opt r w c c' :
  sem (opt r) w c c' -> (w = [] /\ c' = c) \/ sem r w c c'.
Proof.
  unfold opt. cbn [sem]. intros (n & _ & Hn & H). simpl in Hn.
  destruct n as [|[|n]]; [| |lia]; simpl in H.
  - left. exact H.
  - right. destruct H as (w1 & w2 & c1 & -> & H & -> & ->).
    now rewrite app_nil_r.
Qed.

Lemma sem_range lo hi p w c c' :
  sem (Rep lo (Some hi) (Chr p)) w c c' ->
  c' = c /\ (lo <= length w <= hi)%nat /\ all p w.
Proof.
  cbn [sem]. intros (n & Hlo & Hhi & H). simpl in Hhi.
  apply iter_class in H. destruct H as (-> & <- & H). auto.
Qed.

Lemma ci_keyword a b :
  In b (list_ascii_of_string "/bounty") ->
  Char.eqb_ci a b = true -> Char.toLowerCase a = b.
Proof.
  simpl. intros H.
  repeat (destruct H as [<-|H]; [|]); try contradiction;
    destruct a as [[] [] [] [] [] [] [] []]; vm_compute; congruence.
Qed.

Lemma keyword_ci w :
  Forall2 (fun a b => Char.eqb_ci a b = true) w (list_ascii_of_string "/bounty") ->
  is_keyword w.
Proof.
  unfold is_keyword.
  assert (G : forall l w,
             incl l (list_ascii_of_string "/bounty") ->
             Forall2 (fun a b => Char.eqb_ci a b = true) w l ->
             map Char.toLowerCase w = l).
  { intros l w' Hl H. induction H as [|a b w'' l' Hab H IH]; [reflexivity|].
    simpl. f_equal.
    - apply ci_keyword; [apply Hl; now left | exact Hab].
    - apply IH. intros x Hx. apply Hl. now right. }
  apply G. apply incl_refl.
Qed.

(** What a match of [bounty_regex] is made of. *)
Lemma sem_bounty_regex m c :
  sem bounty_regex m [] c ->
  exists kw ws1 amt ws2 tok,
    m = kw ++ ws1 ++ amt ++ ws2 ++ tok /\ c = [(2, tok); (1, amt)] /\
    is_keyword kw /\ is_blank ws1 /\ is_amount amt /\ is_blank ws2 /\
    is_address tok.
Proof.
  unfold bounty_regex. cbn [sem].
  intros (kw & m1 & c1 & -> & Hkw & ws1 & m2 & c2 & -> & Hws1 &
          amt & m3 & c3 & -> & (c4 & (ip & fp & c5 & -> & Hip & Hfp) & ->) &
          ws2 & tok & c6 & -> & Hws2 & c7 & Htok & ->).
  apply (sem_lit true) in Hkw. destruct Hkw as (-> & Hkw).
  apply sem_plus in Hws1. destruct Hws1 as (-> & Hws1).
  apply sem_plus in Hip. destruct Hip as (-> & Hip1 & Hip2).
  apply sem_plus in Hws2. destruct Hws2 as (-> & Hws2).
  apply sem_range in Htok. destruct Htok as (-> & Hlen & Htok).
  exists kw, ws1, (ip ++ fp), ws2, tok.
  assert (Hc4 : c4 = [] /\
                (fp = [] \/ exists ds, fp = "."%char :: ds /\ ds <> [] /\
                                       all Char.is_digit ds)).
  { apply sem_opt in Hfp. destruct Hfp as [[-> ->]|Hfp]; [auto|].
    cbn [sem] in Hfp.
    destruct Hfp as (d & ds & c8 & -> & Hd & Hds).
    apply sem_lit1 in Hd. destruct Hd as (-> & a & -> & Hd).
    apply sem_plus in Hds. destruct Hds as (-> & Hds).
    split; [reflexivity|]. right. exists ds.
    assert (a = "."%char) as ->.
    { revert Hd. destruct a as [[] [] [] [] [] [] [] []]; vm_compute; congruence. }
    split; [reflexivity|exact Hds]. }
  destruct Hc4 as (-> & Hfp').
  split; [reflexivity|]. split; [reflexivity|].
  split; [now apply keyword_ci|]. split; [exact Hws1|].
  split; [exists ip, fp; auto|]. split; [exact Hws2|].
  split; [lia|].
  unfold all in *. rewrite forallb_forall in *. intros a Ha.
  specialize (Htok a Ha). apply orb_true_iff in Htok.
  destruct Htok as [H|H]; [exact H|].
  unfold Char.is_word. rewrite H. now rewrite orb_true_r.
Qed.

(** A command that is parsed was written in the comment by an
    authorized user. *)
Lemma parseBountyCommand_sound cfg comment command :
  parseBountyCommand cfg comment = Some command ->
  isAuthorized cfg (login (user comment)) = true /\
  exists amt tok,
    command_in (list_ascii_of_string (body comment)) amt tok /\
    amount command = Number.parseFloat (string_of_list_ascii amt) /\
    tokenAddress command = string_of_list_ascii tok /\
    issueUrl command = issue_url comment.
Proof.
  unfold parseBountyCommand, match_.
  destruct (search bounty_regex _) as [[m c]|] eqn:Hs; [|discriminate].
  destruct (isAuthorized _ _); [|discriminate].
  intros [= <-]. split; [reflexivity|].
  apply search_sound in Hs. destruct Hs as (pre & post & Hb & Hsem).
  apply sem_bounty_regex in Hsem.
  destruct Hsem as (kw & ws1 & amt & ws2 & tok & -> & -> & H).
  exists amt, tok. split; [|auto].
  exists pre, kw, ws1, ws2, post. split; [|tauto].
  rewrite Hb. now rewrite <- !app_assoc.
Qed.

End ParserFacts.

Module ParserComplete.
Import Regex RegexFacts RegexComplete Grammar ParserFacts.

Lemma iter_class_intro p : forall w c,
  forallb p w = true -> iter (length w) (sem (Chr p)) w c c.
Proof.
  induction w as [|a w IH]; intros c H; simpl in *; [auto|].
  apply andb_true_iff in H. destruct H as [Ha Hw].
  exists [a], w, c. repeat split; eauto.
Qed.

Lemma sem_plus_intro p w c : w <> [] -> all p w -> sem (plus (Chr p)) w c c.
Proof.
  intros Hne Hw. unfold plus. cbn [sem]. exists (length w).
  split; [destruct w; [congruence | simpl; lia]|].
  split; [exact I|]. now apply iter_class_intro.
Qed.

Lemma sem_range_intro lo hi p w c :
  (lo <= length w <= hi)%nat -> all p w ->
  sem (Rep lo (Some hi) (Chr p)) w c c.
Proof.
  intros Hlen Hw. cbn [sem]. exists (length w).
  split; [lia|]. split; [simpl; lia|]. now apply iter_class_intro.
Qed.

Lemma sem_lit_intro (ci : bool) : forall (cs : str) (c0 : ascii) (w : str) (c : captures),
  Forall2 (fun a b => (if ci then Char.eqb_ci a b else Ascii.eqb a b) = true)
    w (c0 :: cs) ->
  sem (lit ci c0 cs) w c c.
Proof.
  induction cs as [|c1 cs IH]; intros c0 w c H.
  - inversion H as [|a b w' l' Hab Hw']; subst. inversion Hw'; subst.
    simpl. eauto.
  - inversion H as [|a b w' l' Hab Hw']; subst. cbn [lit sem].
    exists [a], w', c. repeat split; eauto.
Qed.

Lemma lower_keyword a b :
  In b (list_ascii_of_string "/bounty") ->
  Char.toLowerCase a = b -> Char.eqb_ci a b = true.
Proof.
  simpl. intros H.
  repeat (destruct H as [<-|H]; [|]); try contradiction;
    destruct a as [[] [] [] [] [] [] [] []]; vm_compute; congruence.
Qed.

Lemma keyword_ci_intro w :
  is_keyword w ->
  Forall2 (fun a b => Char.eqb_ci a b = true) w (list_ascii_of_string "/bounty").
Proof.
  unfold is_keyword.
  assert (G : forall l w,
             incl l (list_ascii_of_string "/bounty") ->
             map Char.toLowerCase w = l ->
             Forall2 (fun a b => Char.eqb_ci a b = true) w l).
  { intros l w'. revert l. induction w' as [|a w' IH]; intros l Hl H;
      simpl in H; subst l; constructor.
    - apply lower_keyword; [apply Hl; now left | reflexivity].
    - apply IH; [|reflexivity]. intros x Hx. apply Hl. now right. }
  apply G. apply incl_refl.
Qed.

Lemma wf_bounty_regex : wf bounty_regex.
Proof.
  unfold bounty_regex. cbn [wf lit plus opt].
  repeat split; try exact I;
    try (intros w c c' (_ & a & -> & _); discriminate).
  intros w c c' (w1 & w2 & c1 & -> & (_ & a & -> & _) & _). discriminate.
Qed.

Lemma wf_spec_grammar : wf Spec.grammar.
Proof.
  unfold Spec.grammar. cbn [wf lit plus opt].
  repeat split; try exact I;
    try (intros w c c' (_ & a & -> & _); discriminate).
  intros w c c' (w1 & w2 & c1 & -> & (_ & a & -> & _) & _). discriminate.
Qed.

(** A command of the grammar is a match of [bounty_regex]. *)
Lemma command_matches kw ws1 amt ws2 tok :
  is_keyword kw -> is_blank ws1 -> is_amount amt -> is_blank ws2 ->
  is_address tok ->
  sem bounty_regex (kw ++ ws1 ++ amt ++ ws2 ++ tok) [] [(2, tok); (1, amt)].
Proof.
  intros Hkw [Hn1 Hs1] (ip & fp & -> & Hip & Hipd & Hfp) [Hn2 Hs2] [Hlen Htok].
  unfold bounty_regex. cbn [sem].
  exists kw, (ws1 ++ (ip ++ fp) ++ ws2 ++ tok), []. split; [reflexivity|].
  split; [apply (sem_lit_intro true); now apply keyword_ci_intro|].
  exists ws1, ((ip ++ fp) ++ ws2 ++ tok), []. split; [reflexivity|].
  split; [now apply sem_plus_intro|].
  exists (ip ++ fp), (ws2 ++ tok), [(1, ip ++ fp)]. split; [reflexivity|].
  split.
  - exists []. split; [|reflexivity].
    exists ip, fp, []. split; [reflexivity|].
    split; [now apply sem_plus_intro|].
    fold (opt (Cat (lit1 true ".") (plus (Chr Char.is_digit)))).
    destruct Hfp as [->|(ds & -> & Hds & Hdd)].
    + unfold opt. cbn [sem]. exists 0%nat. simpl. auto.
    + unfold opt. cbn [sem]. exists 1%nat. split; [lia|]. split; [simpl; lia|].
      simpl iter. exists ("."%char :: ds), [], []. rewrite app_nil_r.
      split; [reflexivity|]. split; [|auto].
      exists ["."%char], ds, []. split; [reflexivity|].
      split; [split; [reflexivity|]; exists "."%char; auto|].
      change (sem (plus (Chr Char.is_digit)) ds [] []).
      now apply sem_plus_intro.
  - exists ws2, tok, [(1, ip ++ fp)]. split; [reflexivity|].
    split; [now apply sem_plus_intro|].
    exists [(1, ip ++ fp)]. split; [|reflexivity].
    apply sem_range_intro; [exact Hlen|].
    unfold all in *. rewrite forallb_forall in *. intros a Ha.
    now rewrite (Htok a Ha).
Qed.

(** A comment in which a command stands, written by an authorized user,
    is parsed to a command. *)
Lemma parseBountyCommand_complete cfg comment :
  has_command (body comment) ->
  isAuthorized cfg (login (user comment)) = true ->
  parseBountyCommand cfg comment <> None.
Proof.
  intros (amt & tok & pre & kw & ws1 & ws2 & post & Hb & Hkw & H1 & Ha & H2 & Ht)
         Hauth.
  unfold parseBountyCommand, match_. rewrite Hauth.
  assert (H : search bounty_regex (list_ascii_of_string (body comment)) <> None).
  { apply search_complete; [apply wf_bounty_regex|].
    exists pre, (kw ++ ws1 ++ amt ++ ws2 ++ tok), post, [(2, tok); (1, amt)].
    split; [rewrite Hb; now rewrite <- !app_assoc|].
    now apply command_matches. }
  destruct (search bounty_regex _) as [[m c]|]; [discriminate | congruence].
Qed.

(** What the specification's grammar does not match, it does not
    describe. *)
Lemma spec_matches_complete b : Spec.matches b = false -> ~ Spec.describes b.
Proof.
  unfold Spec.matches, Spec.describes, match_. intros H Hd.
  apply (search_complete _ _ wf_spec_grammar) in Hd.
  destruct (search Spec.grammar _); [discriminate | congruence].
Qed.

End ParserComplete.

Module NumberFacts.
Import Number Grammar.

Lemma digit_leads d rest :
  Char.is_digit d = true ->
  dropWhile Char.is_space (d :: rest) = d :: rest /\
  sign (d :: rest) = (false, d :: rest) /\
  is_prefix (list_ascii_of_string "Infinity") (d :: rest) = false.
Proof.
  destruct d as [[] [] [] [] [] [] [] []]; vm_compute; intros H;
    try discriminate H; auto.
Qed.

Lemma span_all p : forall w rest,
  all p w ->
  match rest with [] => True | a :: _ => p a = false end ->
  span p (w ++ rest) = (w, rest).
Proof.
  unfold all. induction w as [|a w IH]; simpl; intros rest Hw Hr.
  - destruct rest as [|b rest]; simpl; [reflexivity|]. now rewrite Hr.
  - apply andb_true_iff in Hw. destruct Hw as [Ha Hw].
    rewrite Ha, (IH rest Hw Hr). reflexivity.
Qed.

Lemma digits_value_nonneg : forall ds acc,
  (0 <= acc)%Z ->
  (0 <= fold_left (fun acc d => (10 * acc + Char.value d)%Z) ds acc)%Z.
Proof.
  induction ds as [|d ds IH]; simpl; intros acc H; [exact H|].
  apply IH. unfold Char.value. lia.
Qed.

Lemma ten_power_pos n : (0 < Qpower ten (Z.of_nat n))%Q.
Proof. apply Qpower_0_lt. reflexivity. Qed.

Lemma decimal_nonneg ip fp : (0 <= decimal ip fp 0)%Q.
Proof.
  unfold decimal. simpl Qpower. rewrite Qmult_1_r.
  assert (Hi : (0 <= inject_Z (digits_value ip))%Q).
  { change 0%Q with (inject_Z 0). rewrite <- Zle_Qle.
    apply digits_value_nonneg. lia. }
  assert (Hf : (0 <= inject_Z (digits_value fp))%Q).
  { change 0%Q with (inject_Z 0). rewrite <- Zle_Qle.
    apply digits_value_nonneg. lia. }
  assert (Hd : (0 <= inject_Z (digits_value fp) / Qpower ten (Z.of_nat (length fp)))%Q).
  { apply Qle_shift_div_l; [apply ten_power_pos|]. now rewrite Qmult_0_l. }
  replace 0%Q with (0 + 0)%Q by reflexivity. now apply Qplus_le_compat.
Qed.

Lemma two_power_pos e : (0 < two_power e)%Q.
Proof. apply Qpower_0_lt. reflexivity. Qed.

Lemma round_half_even_nonneg q : (0 <= q)%Q -> (0 <= round_half_even q)%Z.
Proof.
  intros H. unfold round_half_even.
  assert (Hn : (0 <= Qnum q)%Z).
  { unfold Qle in H. simpl in H. lia. }
  assert (Hf : (0 <= Qnum q / Z.pos (Qden q))%Z) by (apply Z.div_pos; lia).
  destruct (2 * (Qnum q mod Z.pos (Qden q)) ?= Z.pos (Qden q))%Z;
    [destruct (Z.even _)| |]; lia.
Qed.

(** A rational that is not negative is rounded to a double that is not
    negative, or to the positive infinity. *)
Lemma to_double_not_negative q : (0 <= q)%Q -> not_negative (to_double q).
Proof.
  intros H. unfold to_double.
  destruct (Qeq_bool q 0); [apply Qle_refl|]. cbv zeta.
  set (ulp := two_power _).
  destruct (Qle_bool _ _); [reflexivity|].
  cbn [not_negative]. rewrite Qred_correct.
  apply Qmult_le_0_compat.
  - change 0%Q with (inject_Z 0). rewrite <- Zle_Qle.
    apply round_half_even_nonneg.
    apply Qle_shift_div_l; [apply two_power_pos|]. now rewrite Qmult_0_l.
  - apply Qlt_le_weak, two_power_pos.
Qed.

(** *** The double nearest to a rational *)

Section Doubles.
Local Open Scope Q_scope.

Lemma two_power_plus a b : two_power (a + b) == two_power a * two_power b.
Proof. unfold two_power. apply Qpower_plus. discriminate. Qed.

Lemma two_power_of_Z k : (0 <= k)%Z -> two_power k == inject_Z (2 ^ k).
Proof. intros H. unfold two_power. symmetry. now apply Zpower_Qpower. Qed.

Lemma two_power_minus a b : two_power (a - b) == two_power a / two_power b.
Proof.
  unfold Z.sub. rewrite two_power_plus. unfold two_power at 2.
  rewrite Qpower_opp. reflexivity.
Qed.

Lemma two_power_le a b : (a <= b)%Z -> two_power a <= two_power b.
Proof.
  intros H. replace b with (a + (b - a))%Z by lia. rewrite two_power_plus.
  rewrite <- (Qmult_1_r (two_power a)) at 1.
  apply Qmult_le_l; [apply two_power_pos|].
  rewrite two_power_of_Z by lia. change 1 with (inject_Z 1).
  rewrite <- Zle_Qle. apply (Z.pow_le_mono_r 2 0 (b - a)); lia.
Qed.

Lemma Q_times_den q : q * inject_Z (Z.pos (Qden q)) == inject_Z (Qnum q).
Proof.
  destruct q as [n d]. unfold Qeq, Qmult, inject_Z. simpl. lia.
Qed.

(** [binary_exponent q] is the exponent of [q]. *)
Lemma binary_exponent_spec q :
  0 < q ->
  two_power (binary_exponent q) <= q /\ q < two_power (binary_exponent q + 1).
Proof.
  intros Hq. unfold binary_exponent.
  pose proof (Q_times_den q) as Eq.
  set (n := Qnum q) in *. set (d := Z.pos (Qden q)) in *.
  assert (Hn : (0 < n)%Z) by (unfold Qlt in Hq; simpl in Hq; unfold n; lia).
  assert (Hd : (0 < d)%Z) by (unfold d; lia).
  destruct (Z.log2_spec n Hn) as [Hn1 Hn2].
  destruct (Z.log2_spec d Hd) as [Hd1 Hd2].
  pose proof (Z.log2_nonneg n) as Ln. pose proof (Z.log2_nonneg d) as Ld.
  set (ln := Z.log2 n) in *. set (ld := Z.log2 d) in *.
  assert (Up : q < two_power (ln - ld + 1)).
  { replace (ln - ld + 1)%Z with ((ln + 1) - ld)%Z by lia.
    rewrite two_power_minus. apply Qlt_shift_div_l; [apply two_power_pos|].
    apply Qle_lt_trans with (q * inject_Z d).
    - apply Qmult_le_l; [exact Hq|].
      rewrite two_power_of_Z by lia. now rewrite <- Zle_Qle.
    - rewrite Eq, two_power_of_Z by lia. rewrite <- Zlt_Qlt.
      replace (ln + 1)%Z with (Z.succ ln) by lia. exact Hn2. }
  assert (Lo : two_power (ln - ld - 1) <= q).
  { replace (ln - ld - 1)%Z with (ln - (ld + 1))%Z by lia.
    rewrite two_power_minus. apply Qle_shift_div_r; [apply two_power_pos|].
    apply Qle_trans with (q * inject_Z d).
    - rewrite Eq, two_power_of_Z by lia. now rewrite <- Zle_Qle.
    - apply Qmult_le_l; [exact Hq|].
      rewrite two_power_of_Z by lia. rewrite <- Zle_Qle.
      replace (ld + 1)%Z with (Z.succ ld) by lia. lia. }
  destruct (Qle_bool (two_power (ln - ld)) q) eqn:E.
  - apply Qle_bool_iff in E. split; [exact E | exact Up].
  - split; [exact Lo|]. replace (ln - ld - 1 + 1)%Z with (ln - ld)%Z by lia.
    apply Qnot_le_lt. intros H. apply Qle_bool_iff in H. congruence.
Qed.

(** *** Rounding to the nearest integer *)

Lemma half_below (a : Z) (b : BinNums.positive) (K : Z) :
  inject_Z K - (1 # 2) <= a # b <-> ((2 * K - 1) * Z.pos b <= 2 * a)%Z.
Proof.
  unfold Qle, Qminus, Qplus, Qopp, inject_Z. cbn [Qnum Qden Pos.mul].
  rewrite ?Pos2Z.inj_mul. lia.
Qed.

Lemma half_above (a : Z) (b : BinNums.positive) (K : Z) :
  a # b <= inject_Z K + (1 # 2) <-> (2 * a <= (2 * K + 1) * Z.pos b)%Z.
Proof.
  unfold Qle, Qminus, Qplus, Qopp, inject_Z. cbn [Qnum Qden Pos.mul].
  rewrite ?Pos2Z.inj_mul. lia.
Qed.

Section Rounding.
Variable x : Q.

Lemma round_half_even_cases :
  exists f rem,
    (Qnum x = Z.pos (Qden x) * f + rem /\ 0 <= rem < Z.pos (Qden x))%Z /\
    ((2 * rem < Z.pos (Qden x) /\ round_half_even x = f)%Z \/
     (2 * rem > Z.pos (Qden x) /\ round_half_even x = f + 1)%Z \/
     (2 * rem = Z.pos (Qden x) /\ Z.even (round_half_even x) = true /\
      (round_half_even x = f \/ round_half_even x = f + 1))%Z).
Proof.
  set (n := Qnum x). set (d := Z.pos (Qden x)).
  exists (n / d)%Z, (n mod d)%Z.
  assert (Hd : (0 < d)%Z) by (unfold d; lia).
  split; [split; [apply Z.div_mod; lia | apply Z.mod_pos_bound; exact Hd]|].
  unfold round_half_even. fold n d. cbv zeta.
  destruct (Z.compare_spec (2 * (n mod d)) d) as [E|E|E].
  - right. right. split; [exact E|].
    destruct (Z.even (n / d)) eqn:Ev.
    + split; [exact Ev | now left].
    + split; [|now right].
      rewrite Z.even_add, Ev. reflexivity.
  - left. split; [exact E | reflexivity].
  - right. left. split; [lia | reflexivity].
Qed.

Lemma round_half_even_bounds :
  (2 * (round_half_even x * Z.pos (Qden x)) - Z.pos (Qden x) <= 2 * Qnum x
   <= 2 * (round_half_even x * Z.pos (Qden x)) + Z.pos (Qden x))%Z.
Proof.
  destruct round_half_even_cases as (f & rem & [E Hrem] & H).
  destruct H as [[H ->]|[[H ->]|[H [_ [-> | ->]]]]]; nia.
Qed.

(** The integer is at most one half away. *)
Lemma round_half_even_near :
  inject_Z (round_half_even x) - (1 # 2) <= x /\
  x <= inject_Z (round_half_even x) + (1 # 2).
Proof.
  pose proof round_half_even_bounds as H.
  destruct x as [a b]. cbn [Qnum Qden] in H.
  split; [apply half_below | apply half_above]; lia.
Qed.

(** From [K - 1/2] on the integer is at least [K], when [K] is even. *)
Lemma round_half_even_ge (K : Z) :
  Z.even K = true -> inject_Z K - (1 # 2) <= x -> (K <= round_half_even x)%Z.
Proof.
  intros Ev Hx.
  assert (Hz : ((2 * K - 1) * Z.pos (Qden x) <= 2 * Qnum x)%Z).
  { destruct x as [a b]. now apply half_below. }
  destruct round_half_even_cases as (f & rem & [E Hrem] & H).
  destruct H as [[H ->]|[[H ->]|[H [Ek [E'|E']]]]]; try nia.
  rewrite E'. assert (K <= f + 1)%Z by nia.
  destruct (Z.eq_dec K (f + 1)%Z) as [->|]; [|lia].
  rewrite E' in Ek. rewrite Z.even_add, Ek in Ev. discriminate.
Qed.

(** Below [K - 1/2] the integer is below [K]. *)
Lemma round_half_even_lt (K : Z) :
  x < inject_Z K - (1 # 2) -> (round_half_even x < K)%Z.
Proof.
  intros Hx.
  assert (Hz : (2 * Qnum x < (2 * K - 1) * Z.pos (Qden x))%Z).
  { destruct x as [a b].
    apply Z.nle_gt. intros Hc. apply half_below in Hc.
    apply (Qlt_not_le _ _ Hx Hc). }
  destruct round_half_even_cases as (f & rem & [E Hrem] & H).
  destruct H as [[H ->]|[[H ->]|[H [Ek [-> | ->]]]]]; nia.
Qed.

End Rounding.

(** *** The double nearest to a rational *)

Lemma to_double_positive q :
  0 < q ->
  to_double q =
  if Qle_bool (two_power 1024)
       (inject_Z (round_half_even
                    (q / two_power (Z.max (binary_exponent q) (-1022) - 52)))
        * two_power (Z.max (binary_exponent q) (-1022) - 52))
  then Infinity false
  else Finite (Qred (inject_Z (round_half_even
                      (q / two_power (Z.max (binary_exponent q) (-1022) - 52)))
                     * two_power (Z.max (binary_exponent q) (-1022) - 52))).
Proof.
  intros Hq. unfold to_double.
  destruct (Qeq_bool q 0) eqn:E; [|reflexivity].
  apply Qeq_bool_iff in E. rewrite E in Hq. destruct (Qlt_irrefl 0 Hq).
Qed.

Lemma scaled q e : (q / two_power e) * two_power e == q.
Proof.
  unfold Qdiv. rewrite <- Qmult_assoc, (Qmult_comm (/ _)), Qmult_inv_r.
  - apply Qmult_1_r.
  - intros H. pose proof (two_power_pos e) as P. rewrite H in P. discriminate P.
Qed.

Lemma scaled_le q e a : a * two_power e <= q <-> a <= q / two_power e.
Proof.
  rewrite <- (scaled q e) at 1. apply Qmult_le_r. apply two_power_pos.
Qed.

Lemma scaled_ge q e a : q <= a * two_power e <-> q / two_power e <= a.
Proof.
  rewrite <- (scaled q e) at 1. apply Qmult_le_r. apply two_power_pos.
Qed.

Lemma scaled_lt q e a : q < a * two_power e <-> q / two_power e < a.
Proof.
  rewrite <- (scaled q e) at 1. apply Qmult_lt_r. apply two_power_pos.
Qed.

(** A double that is finite is a multiple of the unit of its exponent,
    at most half a unit away from the rational. *)
Lemma to_double_near q r :
  0 < q -> to_double q = Finite r ->
  exists m : Z,
    r == inject_Z m * two_power (Z.max (binary_exponent q) (-1022) - 52) /\
    (inject_Z m - (1 # 2))
    * two_power (Z.max (binary_exponent q) (-1022) - 52) <= q /\
    q <= (inject_Z m + (1 # 2))
         * two_power (Z.max (binary_exponent q) (-1022) - 52) /\
    r < two_power 1024.
Proof.
  intros Hq. rewrite (to_double_positive q Hq).
  set (u := two_power (Z.max (binary_exponent q) (-1022) - 52)).
  set (m := round_half_even (q / u)).
  destruct (Qle_bool (two_power 1024) (inject_Z m * u)) eqn:E;
    [intros H; discriminate H|].
  intros [= <-]. exists m.
  destruct (round_half_even_near (q / u)) as [Lo Hi]. fold m in Lo, Hi.
  split; [exact (Qred_correct (inject_Z m * u))|].
  split; [now apply scaled_le|]. split.
  - now apply scaled_ge.
  - rewrite (Qred_correct (inject_Z m * u)). apply Qnot_le_lt. intros H.
    apply Qle_bool_iff in H. congruence.
Qed.

Lemma power_times_unit (k e : Z) :
  (0 <= k)%Z -> inject_Z (2 ^ k) * two_power (e - k) == two_power e.
Proof.
  intros H. rewrite <- two_power_of_Z by exact H.
  rewrite <- two_power_plus. now replace (k + (e - k))%Z with e by lia.
Qed.

(** The least rational that is rounded to the infinity is
    [2^1024 - 2^970], half a unit above the greatest double. *)
Theorem to_double_overflows q :
  0 <= q ->
  (to_double q = Infinity false <-> two_power 1024 - two_power 970 <= q).
Proof.
  intros Hq0.
  assert (T0 : 0 < two_power 1024 - two_power 970) by (vm_compute; reflexivity).
  assert (T1 : two_power 1023 < two_power 1024 - two_power 970)
    by (vm_compute; reflexivity).
  assert (T2 : two_power 1023 < two_power 1024) by (vm_compute; reflexivity).
  assert (T3 : two_power 1024 - two_power 970 < two_power 1024)
    by (vm_compute; reflexivity).
  apply Qle_lteq in Hq0. destruct Hq0 as [Hq|Hq].
  2:{ unfold to_double.
      assert (E : Qeq_bool q 0 = true) by (apply Qeq_bool_iff; now symmetry).
      rewrite E. split; [discriminate|].
      intros H. rewrite <- Hq in H. destruct (Qlt_not_le _ _ T0 H). }
  rewrite (to_double_positive q Hq).
  destruct (binary_exponent_spec q Hq) as [Lo Hi].
  set (e0 := binary_exponent q) in *.
  set (u := two_power (Z.max e0 (-1022) - 52)).
  set (k := round_half_even (q / u)).
  assert (Hu : 0 < u) by apply two_power_pos.
  assert (Hinf : (if Qle_bool (two_power 1024) (inject_Z k * u)
                  then Infinity false else Finite (Qred (inject_Z k * u)))
                 = Infinity false <-> two_power 1024 <= inject_Z k * u).
  { destruct (Qle_bool (two_power 1024) (inject_Z k * u)) eqn:E.
    - apply Qle_bool_iff in E. tauto.
    - split; [discriminate|]. intros H. apply Qle_bool_iff in H. congruence. }
  rewrite Hinf. clear Hinf.
  destruct (Z_lt_le_dec e0 1023%Z) as [Hlow|Hhigh];
    [|destruct (Z.eq_dec e0 1023%Z) as [E1023|Hne]].
  - (* below the last exponent: finite *)
    assert (Hq1 : q < two_power 1023).
    { apply Qlt_le_trans with (two_power (e0 + 1)); [exact Hi|].
      apply two_power_le. lia. }
    split; intros H; exfalso.
    + assert (Hx : q / u < inject_Z (2 ^ 53 + 1) - (1 # 2)).
      { apply scaled_lt.
        apply Qlt_le_trans with (two_power (Z.max e0 (-1022) + 1)).
        - apply Qlt_le_trans with (two_power (e0 + 1)); [exact Hi|].
          apply two_power_le. lia.
        - rewrite <- (power_times_unit 53 (Z.max e0 (-1022) + 1)) by lia.
          replace (Z.max e0 (-1022) + 1 - 53)%Z
            with (Z.max e0 (-1022) - 52)%Z by lia.
          fold u. apply Qmult_le_r; [exact Hu|].
          unfold Qle, Qminus, Qplus, Qopp, inject_Z. cbn [Qnum Qden Pos.mul].
          lia. }
      apply round_half_even_lt in Hx. fold k in Hx.
      assert (Hk : inject_Z k * u <= two_power 1023).
      { apply Qle_trans with (inject_Z (2 ^ 53) * u).
        - apply Qmult_le_r; [exact Hu|]. rewrite <- Zle_Qle. lia.
        - unfold u.
          replace (Z.max e0 (-1022) - 52)%Z
            with (Z.max e0 (-1022) + 1 - 53)%Z by lia.
          rewrite power_times_unit by lia. apply two_power_le. lia. }
      apply (Qlt_not_le _ _ T2). now apply Qle_trans with (inject_Z k * u).
    + apply (Qlt_not_le _ _ Hq1).
      apply Qle_trans with (two_power 1024 - two_power 970); [|exact H].
      now apply Qlt_le_weak.
  - (* the last exponent *)
    unfold k, u. rewrite E1023.
    change (Z.max 1023 (-1022) - 52)%Z with 971%Z.
    assert (P : two_power 1024 == inject_Z (2 ^ 53) * two_power 971)
      by (vm_compute; reflexivity).
    assert (T : (inject_Z (2 ^ 53) - (1 # 2)) * two_power 971
                == two_power 1024 - two_power 970)
      by (vm_compute; reflexivity).
    rewrite P, <- T.
    rewrite Qmult_le_r by apply two_power_pos. rewrite <- Zle_Qle.
    rewrite scaled_le.
    split; intros H.
    + apply Qnot_lt_le. intros Hx. apply round_half_even_lt in Hx. lia.
    + apply round_half_even_ge; [reflexivity | exact H].
  - (* above: infinite *)
    assert (He : (1024 <= e0)%Z) by lia.
    assert (Hq1 : two_power 1024 <= q).
    { apply Qle_trans with (two_power e0); [apply two_power_le; lia | exact Lo]. }
    assert (Emax : Z.max e0 (-1022) = e0) by lia.
    unfold k, u. rewrite Emax.
    assert (Hx : inject_Z (2 ^ 52) - (1 # 2) <= q / two_power (e0 - 52)).
    { apply Qle_trans with (inject_Z (2 ^ 52)).
      - unfold Qle, Qminus, Qplus, Qopp, inject_Z. cbn [Qnum Qden Pos.mul]. lia.
      - apply scaled_le. rewrite power_times_unit by lia. exact Lo. }
    apply round_half_even_ge in Hx; [|reflexivity].
    split; intros _.
    + apply Qle_trans with (two_power 1024); [|exact Hq1].
      apply Qlt_le_weak. exact T3.
    + apply Qle_trans with (two_power e0); [apply two_power_le; lia|].
      rewrite <- (power_times_unit 52 e0) at 1 by lia.
      apply Qmult_le_r; [apply two_power_pos|]. now rewrite <- Zle_Qle.
Qed.

End Doubles.

(** Doubles that [parseFloat] returns: a short decimal; a tie, which
    goes to the even significand; the least value that is rounded to the
    infinity, and the greatest double below it. *)
Lemma to_double_examples :
  to_double (25 # 10) = Finite (5 # 2) /\
  to_double (1 # 10) = Finite (3602879701896397 # 36028797018963968) /\
  to_double (inject_Z (2 ^ 53 + 1)) = Finite (inject_Z (2 ^ 53)) /\
  to_double (inject_Z (2 ^ 1024 - 2 ^ 970)) = Infinity false /\
  to_double (inject_Z (2 ^ 1024 - 2 ^ 970 - 1))
  = Finite (inject_Z (2 ^ 1024 - 2 ^ 971)).
Proof. repeat split; vm_compute; reflexivity. Qed.

(** [parseFloat] of an amount of the grammar: the double nearest to the
    value of its digits. *)
Lemma parseFloat_amount w :
  is_amount w ->
  exists ip fp,
    ((w = ip /\ fp = []) \/ w = ip ++ ("."%char :: fp)) /\
    ip <> [] /\ all Char.is_digit ip /\ all Char.is_digit fp /\
    Number.parseFloat (string_of_list_ascii w) = to_double (decimal ip fp 0).
Proof.
  intros (ip & fp & -> & Hne & Hip & Hfp).
  unfold parseFloat. rewrite list_ascii_of_string_of_list_ascii.
  destruct ip as [|d ip]; [congruence|].
  assert (Hd : Char.is_digit d = true).
  { unfold all in Hip. simpl in Hip. now apply andb_true_iff in Hip. }
  unfold parseFloat_chars.
  destruct (digit_leads d (ip ++ fp) Hd) as (H1 & H2 & H3).
  change ((d :: ip) ++ fp) with (d :: ip ++ fp).
  rewrite H1, H2, H3.
  change (d :: ip ++ fp) with ((d :: ip) ++ fp).
  destruct Hfp as [->|(ds & -> & Hds1 & Hds2)].
  - rewrite (span_all Char.is_digit (d :: ip) [] Hip I). simpl fraction.
    exists (d :: ip), []. rewrite app_nil_r.
    repeat split; auto; discriminate.
  - rewrite (span_all Char.is_digit (d :: ip) ("."%char :: ds) Hip eq_refl).
    change (fraction ("."%char :: ds)) with (span Char.is_digit ds).
    pose proof (span_all Char.is_digit ds [] Hds2 I) as Hs.
    rewrite app_nil_r in Hs. rewrite Hs.
    exists (d :: ip), ds.
    split; [right; reflexivity|]. split; [discriminate|].
    split; [exact Hip|]. split; [exact Hds2|].
    destruct ds; [congruence|reflexivity].
Qed.

Lemma parseFloat_amount_not_negative w :
  is_amount w -> not_negative (Number.parseFloat (string_of_list_ascii w)).
Proof.
  intros H. apply parseFloat_amount in H.
  destruct H as (ip & fp & _ & _ & _ & _ & ->).
  apply to_double_not_negative, decimal_nonneg.
Qed.

End NumberFacts.

Module Hoare.

Lemma wp_mono {A} (m : M A) w (Q Q' : outcome A -> World -> Prop) :
  (forall r w', Q r w' -> Q' r w') -> wp m w Q -> wp m w Q'.
Proof. unfold wp. auto. Qed.

Lemma wp_ret {A} (a : A) w (Q : outcome A -> World -> Prop) :
  Q (Returns a) w -> wp (ret a) w Q.
Proof. auto. Qed.

Lemma wp_throw {A} e w (Q : outcome A -> World -> Prop) :
  Q (Throws e) w -> wp (throw e) w Q.
Proof. auto. Qed.

Lemma wp_lift {A} (r : outcome A) w (Q : outcome A -> World -> Prop) :
  Q r w -> wp (lift r) w Q.
Proof. auto. Qed.

Lemma wp_bind {A B} (m : M A) (k : A -> M B) w (Q : outcome B -> World -> Prop) :
  wp m w (fun r w1 =>
            match r with
            | Returns a => wp (k a) w1 Q
            | Throws e => Q (Throws e) w1
            end) ->
  wp (bind m k) w Q.
Proof. unfold wp, bind. destruct (m w) as [[a|e] w1]; auto. Qed.

Lemma wp_try_catch {A} (m : M A) (h : JsError -> M A) w
    (Q : outcome A -> World -> Prop) :
  wp m w (fun r w1 =>
            match r with
            | Returns a => Q (Returns a) w1
            | Throws e => wp (h e) w1 Q
            end) ->
  wp (try_catch m h) w Q.
Proof. unfold wp, try_catch. destruct (m w) as [[a|e] w1]; auto. Qed.

Lemma wp_attempt {A} (m : M A) w (Q : outcome (outcome A) -> World -> Prop) :
  wp m w (fun r w1 => Q (Returns r) w1) -> wp (attempt m) w Q.
Proof. unfold wp, attempt. destruct (m w) as [r w1]; auto. Qed.

Lemma after_refl w : after [] w w.
Proof. split; auto. now rewrite app_nil_r. Qed.

Lemma after_trans cs1 cs2 w w1 w2 :
  after cs1 w w1 -> after cs2 w1 w2 -> after (cs1 ++ cs2) w w2.
Proof.
  intros [H1 H2 H3] [H4 H5 H6]. split; try congruence.
  rewrite H4, H1. now rewrite app_assoc.
Qed.

Lemma after_quiet cs w w1 w2 : after cs w w1 -> after [] w1 w2 -> after cs w w2.
Proof. intros H1 H2. rewrite <- (app_nil_r cs). eapply after_trans; eauto. Qed.

Lemma quiet_after cs w w1 w2 : after [] w w1 -> after cs w1 w2 -> after cs w w2.
Proof. intros H1 H2. change cs with ([] ++ cs). eapply after_trans; eauto. Qed.

Lemma invocations_log l w :
  invocations (logged l w) =
  (invocations w + if is_invocation l then 1 else 0)%nat.
Proof.
  unfold invocations. simpl. rewrite List.filter_app, length_app. simpl.
  destruct (is_invocation l); reflexivity.
Qed.

Lemma wp_log l w (Q : outcome unit -> World -> Prop) :
  is_invocation l = false ->
  (forall w', after [] w w' -> Q (Returns tt) w') -> wp (log l) w Q.
Proof.
  intros Hl H. apply H. change (snd (log l w)) with (logged l w).
  split; auto.
  - simpl. now rewrite app_nil_r.
  - rewrite invocations_log, Hl. lia.
Qed.

Lemma wp_sleep ms w (Q : outcome unit -> World -> Prop) :
  (forall w', after [] w w' -> Q (Returns tt) w') -> wp (sleep ms) w Q.
Proof. intros H. apply H. split; auto. simpl. now rewrite app_nil_r. Qed.

Lemma wp_arm ms w (Q : outcome unit -> World -> Prop) :
  (forall w', after [] w w' -> Q (Returns tt) w') -> wp (arm ms) w Q.
Proof. intros H. apply H. split; auto. simpl. now rewrite app_nil_r. Qed.

Lemma wp_until_fired ms w (Q : outcome unit -> World -> Prop) :
  (forall w', after [] w w' -> Q (Returns tt) w') -> wp (until_fired ms) w Q.
Proof. intros H. apply H. split; auto. simpl. now rewrite app_nil_r. Qed.

Lemma wp_call {A} a (answer : nat -> outcome A) w
    (Q : outcome A -> World -> Prop) :
  (forall w', after [] w w' -> Q (answer (calls w a)) w') ->
  wp (call a answer) w Q.
Proof. intros H. apply H. split; auto. simpl. now rewrite app_nil_r. Qed.

Lemma wp_ask {A} a (answer : nat -> A) w (Q : outcome A -> World -> Prop) :
  (forall w', after [] w w' -> Q (Returns (answer (calls w a))) w') ->
  wp (ask a answer) w Q.
Proof. intros H. apply H. split; auto. simpl. now rewrite app_nil_r. Qed.

Lemma wp_post c w (Q : outcome unit -> World -> Prop) :
  (forall w', after [c] w w' -> Q (Returns tt) w') -> wp (post c) w Q.
Proof. intros H. apply H. split; auto. Qed.

End Hoare.

Module Steps.
Import Hoare.

(** The steps below keep one fact [after cs w0 w] from the world [w0] in
    which a function is called to the world [w] it has reached. *)

Lemma run_quiet {A} (m : M A) cs w0 w (Q : outcome A -> World -> Prop)
    (P : outcome A -> Prop) :
  after cs w0 w ->
  wp m w (fun r w' => after [] w w' /\ P r) ->
  (forall r w', after cs w0 w' -> P r -> Q r w') ->
  wp m w Q.
Proof.
  intros H Hm HQ. eapply wp_mono; [|exact Hm].
  intros r w' [Ha Hr]. apply HQ; [|exact Hr]. eapply after_quiet; eauto.
Qed.

Lemma run_log l cs w0 w (Q : outcome unit -> World -> Prop) :
  after cs w0 w -> is_invocation l = false ->
  (forall w', after cs w0 w' -> Q (Returns tt) w') -> wp (log l) w Q.
Proof.
  intros H Hl HQ. apply wp_log; [exact Hl|].
  intros w' Hw. apply HQ. eapply after_quiet; eauto.
Qed.

Lemma run_sleep ms cs w0 w (Q : outcome unit -> World -> Prop) :
  after cs w0 w ->
  (forall w', after cs w0 w' -> Q (Returns tt) w') -> wp (sleep ms) w Q.
Proof.
  intros H HQ. apply wp_sleep. intros w' Hw. apply HQ.
  eapply after_quiet; eauto.
Qed.

Lemma run_arm ms cs w0 w (Q : outcome unit -> World -> Prop) :
  after cs w0 w ->
  (forall w', after cs w0 w' -> Q (Returns tt) w') -> wp (arm ms) w Q.
Proof.
  intros H HQ. apply wp_arm. intros w' Hw. apply HQ.
  eapply after_quiet; eauto.
Qed.

Lemma run_until_fired ms cs w0 w (Q : outcome unit -> World -> Prop) :
  after cs w0 w ->
  (forall w', after cs w0 w' -> Q (Returns tt) w') ->
  wp (until_fired ms) w Q.
Proof.
  intros H HQ. apply wp_until_fired. intros w' Hw. apply HQ.
  eapply after_quiet; eauto.
Qed.

Lemma run_call {A} a (answer : nat -> outcome A) cs w0 w
    (Q : outcome A -> World -> Prop) :
  after cs w0 w ->
  (forall w', after cs w0 w' -> Q (answer (calls w a)) w') ->
  wp (call a answer) w Q.
Proof.
  intros H HQ. apply wp_call. intros w' Hw. apply HQ.
  eapply after_quiet; eauto.
Qed.

Lemma run_ask {A} a (answer : nat -> A) cs w0 w
    (Q : outcome A -> World -> Prop) :
  after cs w0 w ->
  (forall w', after cs w0 w' -> Q (Returns (answer (calls w a))) w') ->
  wp (ask a answer) w Q.
Proof.
  intros H HQ. apply wp_ask. intros w' Hw. apply HQ.
  eapply after_quiet; eauto.
Qed.

Lemma run_post c cs w0 w (Q : outcome unit -> World -> Prop) :
  after cs w0 w ->
  (forall w', after (cs ++ [c]) w0 w' -> Q (Returns tt) w') ->
  wp (post c) w Q.
Proof.
  intros H HQ. apply wp_post. intros w' Hw. apply HQ.
  eapply after_trans; eauto.
Qed.

End Steps.

Import Hoare Steps.

(** One step of a function, the fact [after _ _ w] being carried along. *)
Ltac step :=
  cbv beta iota;
  lazymatch goal with
  | |- wp (bind _ _) _ _ => apply wp_bind
  | |- wp (try_catch _ _) _ _ => apply wp_try_catch
  | |- wp (attempt _) _ _ => apply wp_attempt
  | |- wp (ret _) _ _ => apply wp_ret
  | |- wp (throw _) _ _ => apply wp_throw
  | |- wp (lift _) _ _ => apply wp_lift
  | H : after _ _ ?w |- wp (log _) ?w _ =>
      apply (run_log _ _ _ _ _ H); [reflexivity|]; clear H; intros ? H
  | H : after _ _ ?w |- wp (sleep _) ?w _ =>
      apply (run_sleep _ _ _ _ _ H); clear H; intros ? H
  | H : after _ _ ?w |- wp (arm _) ?w _ =>
      apply (run_arm _ _ _ _ _ H); clear H; intros ? H
  | H : after _ _ ?w |- wp (until_fired _) ?w _ =>
      apply (run_until_fired _ _ _ _ _ H); clear H; intros ? H
  | H : after _ _ ?w |- wp (call _ _) ?w _ =>
      apply (run_call _ _ _ _ _ _ H); clear H; intros ? H
  | H : after _ _ ?w |- wp (ask _ _) ?w _ =>
      apply (run_ask _ _ _ _ _ _ H); clear H; intros ? H
  | H : after _ _ ?w |- wp (post _) ?w _ =>
      apply (run_post _ _ _ _ _ H); clear H; intros ? H
  end; cbv beta iota.

(** A call of a function whose specification [spec] says that it creates
    no comment. *)
Ltac call_quiet spec :=
  lazymatch goal with
  | H : after _ _ ?w |- wp _ ?w _ =>
      eapply (run_quiet _ _ _ _ _ _ H); [apply spec|]; clear H;
      intros ? ? H ?; cbv beta in *; subst; cbv beta iota
  end.

(** *** Functions that create no comment *)

Lemma silent_wp {A} (m : M A) w :
  silent m -> wp m w (fun _ w' => after [] w w' /\ True).
Proof. intros H. split; [apply H | exact I]. Qed.

Lemma silent_ret {A} (a : A) : silent (ret a).
Proof. intros w. apply after_refl. Qed.

Lemma silent_throw {A} e : silent (@throw A e).
Proof. intros w. apply after_refl. Qed.

Lemma silent_lift {A} (r : outcome A) : silent (lift r).
Proof. intros w. apply after_refl. Qed.

Lemma silent_log l : is_invocation l = false -> silent (log l).
Proof. intros Hl w. apply (wp_log l w (fun _ w' => after [] w w')); auto. Qed.

Lemma silent_sleep ms : silent (sleep ms).
Proof. intros w. apply (wp_sleep ms w (fun _ w' => after [] w w')); auto. Qed.

Lemma silent_arm ms : silent (arm ms).
Proof. intros w. apply (wp_arm ms w (fun _ w' => after [] w w')); auto. Qed.

Lemma silent_until_fired ms : silent (until_fired ms).
Proof.
  intros w. apply (wp_until_fired ms w (fun _ w' => after [] w w')); auto.
Qed.

Lemma silent_call {A} a (answer : nat -> outcome A) : silent (call a answer).
Proof. intros w. apply (wp_call a answer w (fun _ w' => after [] w w')); auto. Qed.

Lemma silent_ask {A} a (answer : nat -> A) : silent (ask a answer).
Proof. intros w. apply (wp_ask a answer w (fun _ w' => after [] w w')); auto. Qed.

Lemma silent_bind {A B} (m : M A) (k : A -> M B) :
  silent m -> (forall a, silent (k a)) -> silent (bind m k).
Proof.
  intros Hm Hk w. specialize (Hm w). unfold bind.
  destruct (m w) as [[a|e] w1]; simpl in *; [|exact Hm].
  eapply after_quiet; [exact Hm | apply Hk].
Qed.

Lemma silent_try_catch {A} (m : M A) (h : JsError -> M A) :
  silent m -> (forall e, silent (h e)) -> silent (try_catch m h).
Proof.
  intros Hm Hh w. specialize (Hm w). unfold try_catch.
  destruct (m w) as [[a|e] w1]; simpl in *; [exact Hm|].
  eapply after_quiet; [exact Hm | apply Hh].
Qed.

Lemma silent_attempt {A} (m : M A) : silent m -> silent (attempt m).
Proof.
  intros Hm w. specialize (Hm w). unfold attempt.
  destruct (m w) as [r w1]. exact Hm.
Qed.

Ltac silence :=
  repeat first
    [ apply silent_ret | apply silent_throw | apply silent_lift
    | apply silent_sleep | apply silent_arm | apply silent_until_fired
    | apply silent_call | apply silent_ask
    | apply silent_log; reflexivity
    | apply silent_bind; [|intros ?]
    | apply silent_try_catch; [|intros ?]
    | progress cbv zeta
    | match goal with
      | |- silent (match ?x with _ => _ end) => destruct x
      end ].

(** A call of a function that is [silent] by [lem]. *)
Ltac call_silent lem :=
  lazymatch goal with
  | H : after _ _ ?w |- wp _ ?w _ =>
      eapply (run_quiet _ _ _ _ _ _ H);
      [apply silent_wp; apply lem|]; clear H;
      intros ? ? H _; cbv beta iota
  end.

Section Specs.
Context (cfg : Config) (env : Env).

Lemma checkTransactionStatus_spec signature w :
  wp (checkTransactionStatus env signature) w
    (fun r w' =>
       after [] w w' /\
       r = Returns (status_answer
                      (getSignatureStatus env (calls w GetSignatureStatus) signature))).
Proof.
  pose proof (after_refl w) as H. unfold checkTransactionStatus.
  step. step. step.
  destruct (getSignatureStatus env _ signature) as [[[[s|]]|]|e]; simpl;
    repeat step; auto.
Qed.

Lemma silent_checkTransactionStatus signature :
  silent (checkTransactionStatus env signature).
Proof. unfold checkTransactionStatus. silence. Qed.

Lemma silent_getIssueFromUrl url : silent (getIssueFromUrl env url).
Proof. unfold getIssueFromUrl. silence. Qed.

Lemma silent_createBountyTransaction command :
  silent (createBountyTransaction cfg env command).
Proof.
  unfold createBountyTransaction, getIssueFromUrl, getRepositoryFromUrl.
  silence.
Qed.

Lemma silent_retry_checks signature n : silent (retry_checks env n signature).
Proof.
  induction n as [|n IH]; cbn [retry_checks]; silence;
    try apply silent_checkTransactionStatus; exact IH.
Qed.

Lemma silent_signAndSendTransaction serializedTransaction :
  silent (signAndSendTransaction env serializedTransaction).
Proof.
  unfold signAndSendTransaction, confirm_or_timeout. silence;
    try apply silent_checkTransactionStatus; apply silent_retry_checks.
Qed.

(** *** The reports *)

Lemma run_issue url cs w0 w (Q : outcome GitHubIssue -> World -> Prop) :
  after cs w0 w ->
  (forall i w', after cs w0 w' -> Q (Returns i) w') ->
  (forall e w', after cs w0 w' -> Q (Throws e) w') ->
  wp (getIssueFromUrl env url) w Q.
Proof.
  intros H HR HT. unfold getIssueFromUrl. step.
  destruct (octokit_getIssue env _ url) as [i|e]; [now apply HR|].
  now apply HT.
Qed.

Lemma run_status signature cs w0 w (Q : outcome bool -> World -> Prop) :
  after cs w0 w ->
  (forall b w', after cs w0 w' -> Q (Returns b) w') ->
  wp (checkTransactionStatus env signature) w Q.
Proof.
  intros H HQ. call_quiet checkTransactionStatus_spec. now apply HQ.
Qed.

Lemma run_comment o r n b cs w0 w (Q : outcome unit -> World -> Prop) :
  after cs w0 w ->
  (forall w',
     after (cs ++ [{| on_owner := o; on_repo := r; on_issue := n;
                      comment_body := b |}]) w0 w' ->
     Q (Returns tt) w') ->
  (forall e w', after cs w0 w' -> Q (Throws e) w') ->
  wp (commentOnIssue env o r n b) w Q.
Proof.
  intros H HR HT. unfold commentOnIssue. step. step.
  destruct (octokit_createComment env _ o r n b) as [[]|e].
  - step. now apply HR.
  - now apply HT.
Qed.

Lemma report_created_spec command response signature w :
  wp (report_created env command response signature) w
    (fun r w' =>
       (r = Returns tt /\
        exists c note,
          after [c] w w' /\
          comment_body c = created_body command response signature note) \/
       (exists e, r = Throws e /\ after [] w w')).
Proof.
  pose proof (after_refl w) as H. unfold report_created.
  step. step. step.
  apply (run_issue _ _ _ _ _ H); clear H; [intros i w1 H | intros e w1 H].
  2:{ right. eauto. }
  destruct (getRepoInfoFromUrl _) as [o r]. step.
  apply (run_status _ _ _ _ _ H); clear H; intros b w2 H.
  step.
  apply (run_comment _ _ _ _ _ _ _ _ H); clear H; [intros w3 H | intros e w3 H].
  2:{ right. eauto. }
  step. left. split; [reflexivity|]. eexists _, _. split; [exact H|].
  reflexivity.
Qed.

Lemma recheck_spec command transactionSignature bountyResponse w :
  wp (recheck env command transactionSignature bountyResponse) w
    (fun r w' =>
       (r = Returns true /\
        exists c signature response,
          transactionSignature = Some signature /\
          bountyResponse = Some response /\
          after [c] w w' /\
          comment_body c = created_with_issues_body command response signature) \/
       (r = Returns false /\ after [] w w')).
Proof.
  pose proof (after_refl w) as H. unfold recheck.
  destruct transactionSignature as [signature|]; [|step; auto].
  destruct bountyResponse as [response|]; [|step; auto].
  destruct (truthy signature); [|step; auto].
  step. step.
  apply (run_status _ _ _ _ _ H); clear H; intros b w1 H.
  destruct b; [|step; auto].
  step. step. step.
  apply (run_issue _ _ _ _ _ H); clear H; [intros i w2 H | intros e w2 H].
  2:{ repeat step. auto. }
  destruct (getRepoInfoFromUrl _) as [o r]. step.
  apply (run_comment _ _ _ _ _ _ _ _ H); clear H; [intros w3 H | intros e w3 H].
  2:{ repeat step. auto. }
  step. left. split; [reflexivity|]. eexists _, signature, response.
  split; [reflexivity|]. split; [reflexivity|]. split; [exact H|reflexivity].
Qed.

(** The [catch] block returns, having created one comment or none; the
    comment is the report of a bounty that was created with confirmation
    issues, or the failure report. *)
Lemma report_error_spec command transactionSignature bountyResponse error w :
  wp (report_error env command transactionSignature bountyResponse error) w
    (fun r w' =>
       r = Returns tt /\
       ((exists c,
           after [c] w w' /\
           error_report command transactionSignature bountyResponse error
             (comment_body c)) \/
        after [] w w')).
Proof.
  pose proof (after_refl w) as H. unfold report_error.
  step. step. step.
  eapply wp_mono; [|apply recheck_spec].
  intros r w2 [(-> & c & signature & response & -> & -> & Hc & Hb)|(-> & Hq)].
  - step. split; [reflexivity|]. left. exists c. split.
    + eapply quiet_after; eauto.
    + right. eauto.
  - assert (H' : after [] w w2) by (eapply after_quiet; eauto).
    clear H Hq. step. step.
    apply (run_issue _ _ _ _ _ H'); clear H'; [intros i w3 H | intros e w3 H].
    2:{ step. split; [reflexivity|]. right. auto. }
    destruct (getRepoInfoFromUrl _) as [o r].
    apply (run_comment _ _ _ _ _ _ _ _ H); clear H; [intros w4 H | intros e w4 H].
    2:{ step. split; [reflexivity|]. right. auto. }
    split; [reflexivity|]. left. eexists. split; [exact H|]. left. reflexivity.
Qed.

End Specs.

Module Exact.
Import Hoare.

Lemma x_log l w (Q : outcome unit -> World -> Prop) :
  Q (Returns tt) (logged l w) -> wp (log l) w Q.
Proof. auto. Qed.

Lemma x_sleep ms w (Q : outcome unit -> World -> Prop) :
  Q (Returns tt) (waited ms w) -> wp (sleep ms) w Q.
Proof. auto. Qed.

Lemma x_arm ms w (Q : outcome unit -> World -> Prop) :
  Q (Returns tt) (armed ms w) -> wp (arm ms) w Q.
Proof. auto. Qed.

Lemma x_until_fired ms w (Q : outcome unit -> World -> Prop) :
  Q (Returns tt) (fired ms w) -> wp (until_fired ms) w Q.
Proof. auto. Qed.

Lemma x_call {A} a (answer : nat -> outcome A) w (Q : outcome A -> World -> Prop) :
  Q (answer (calls w a)) (bump a w) -> wp (call a answer) w Q.
Proof. auto. Qed.

Lemma x_ask {A} a (answer : nat -> A) w (Q : outcome A -> World -> Prop) :
  Q (Returns (answer (calls w a))) (bump a w) -> wp (ask a answer) w Q.
Proof. auto. Qed.

Lemma x_post c w (Q : outcome unit -> World -> Prop) :
  Q (Returns tt) (commented c w) -> wp (post c) w Q.
Proof. auto. Qed.

Lemma x_is_processed i w (Q : outcome bool -> World -> Prop) :
  Q (Returns (bool_decide (i ∈ processedComments w))) w ->
  wp (is_processed i) w Q.
Proof. auto. Qed.

Lemma x_mark_processed i w (Q : outcome unit -> World -> Prop) :
  Q (Returns tt) (marked i w) -> wp (mark_processed i) w Q.
Proof. auto. Qed.

Lemma calls_after_status r w a :
  calls (after_status r w) a = calls (bump GetSignatureStatus w) a.
Proof. destruct r; reflexivity. Qed.

Lemma clock_after_status r w : clock (after_status r w) = clock w.
Proof. destruct r; reflexivity. Qed.

Lemma timers_after_status r w : timers (after_status r w) = timers w.
Proof. destruct r; reflexivity. Qed.

Lemma comments_after_status r w : comments (after_status r w) = comments w.
Proof. destruct r; reflexivity. Qed.

Lemma processed_after_status r w :
  processedComments (after_status r w) = processedComments w.
Proof. destruct r; reflexivity. Qed.

(** The status check returns what the node answers, in one query. *)
Lemma x_status env signature w (Q : outcome bool -> World -> Prop) :
  Q (Returns (status_answer
                (getSignatureStatus env (calls w GetSignatureStatus) signature)))
    (after_status
       (getSignatureStatus env (calls w GetSignatureStatus) signature) w) ->
  wp (checkTransactionStatus env signature) w Q.
Proof.
  unfold wp, checkTransactionStatus, try_catch, bind, call, after_status.
  cbn [fst snd].
  destruct (getSignatureStatus env _ signature) as [[[[s|]]|]|e]; auto.
Qed.

End Exact.

Import Exact.

Ltac world :=
  repeat first
    [ progress cbn [calls clock timers console comments processedComments
                    logged waited armed fired bump commented marked Api_eqb
                    value ok json text statusText Nat.add]
    | rewrite calls_after_status
    | rewrite clock_after_status
    | rewrite timers_after_status
    | rewrite comments_after_status
    | rewrite processed_after_status ].

(** One step of a function along a path, the world being kept as it is
    built. *)
Ltac xstep :=
  lazymatch goal with
  | |- wp (bind _ _) _ _ => apply wp_bind
  | |- wp (try_catch _ _) _ _ => apply wp_try_catch
  | |- wp (attempt _) _ _ => apply wp_attempt
  | |- wp (ret _) _ _ => apply wp_ret
  | |- wp (throw _) _ _ => apply wp_throw
  | |- wp (lift _) _ _ => apply wp_lift
  | |- wp (log _) _ _ => apply x_log
  | |- wp (sleep _) _ _ => apply x_sleep
  | |- wp (arm _) _ _ => apply x_arm
  | |- wp (until_fired _) _ _ => apply x_until_fired
  | |- wp (call _ _) _ _ => apply x_call
  | |- wp (ask _ _) _ _ => apply x_ask
  | |- wp (post _) _ _ => apply x_post
  | |- wp (is_processed _) _ _ => apply x_is_processed
  | |- wp (mark_processed _) _ _ => apply x_mark_processed
  | |- wp (getIssueFromUrl _ _) _ _ => unfold getIssueFromUrl
  | |- wp (getRepositoryFromUrl _ _) _ _ => unfold getRepositoryFromUrl
  | |- wp (commentOnIssue _ _ _ _ _) _ _ => unfold commentOnIssue
  | |- wp (confirm_or_timeout _ _) _ _ => unfold confirm_or_timeout
  | |- wp (checkTransactionStatus _ _) _ _ => apply x_status
  | |- wp (retry_checks _ _ _) _ _ => cbn [retry_checks]
  | |- wp (createBountyTransaction _ _ _) _ _ => unfold createBountyTransaction
  | |- wp (signAndSendTransaction _ _) _ _ => unfold signAndSendTransaction
  | |- wp (processBountyCommand _ _ _) _ _ => unfold processBountyCommand
  | |- wp (report_created _ _ _ _) _ _ => unfold report_created
  | |- wp (let (_, _) := ?p in _) _ _ => destruct p
  end; cbv beta iota; world.

(** The answers of the environment that the hypotheses give. *)
Ltac answer :=
  match goal with
  | H : ?l = _ |- context [?l] => rewrite H
  | H : forall n o r i b, octokit_createComment _ n o r i b = _ |- _ =>
      rewrite H
  end; cbv beta iota.

Ltac xrun := repeat first [xstep | answer].

(** The same, the answers being looked for first: what a destructuring
    step would name is then known. *)
Ltac xpath := repeat first [answer | xstep].

(** The same, up to the report of a command that went through. *)
Ltac xrun_to_report :=
  repeat lazymatch goal with
         | |- wp (try_catch (report_created _ _ _ _) _) _ _ => fail
         | _ => first [xstep | answer]
         end.


(** ** What the functions spend *)

Module Budget.

Section Meter.
Context (meter : Meter).

Lemma reading_logged l w : reading meter (logged l w) = reading meter w.
Proof. destruct meter; reflexivity. Qed.

Lemma reading_commented c w : reading meter (commented c w) = reading meter w.
Proof. destruct meter; reflexivity. Qed.

Lemma reading_marked i w : reading meter (marked i w) = reading meter w.
Proof. destruct meter; reflexivity. Qed.

Lemma reading_armed ms w : reading meter (armed ms w) = reading meter w.
Proof. destruct meter; reflexivity. Qed.

Lemma reading_fired ms w :
  reading meter (fired ms w) = (reading meter w + sleep_cost meter ms)%Z.
Proof. destruct meter; simpl; lia. Qed.

Lemma reading_waited ms w :
  reading meter (waited ms w) = (reading meter w + sleep_cost meter ms)%Z.
Proof. destruct meter; simpl; lia. Qed.

Lemma reading_bump a w :
  reading meter (bump a w) = (reading meter w + call_cost meter a)%Z.
Proof.
  destruct meter as [b|]; simpl; [|lia].
  destruct (Api_eqb a b); lia.
Qed.

Lemma call_cost_nonneg a : (0 <= call_cost meter a)%Z.
Proof. destruct meter as [b|]; simpl; [destruct (Api_eqb a b)|]; lia. Qed.

Lemma costs_weaken {A} (m : M A) n n' :
  costs meter n m -> (n <= n')%Z -> costs meter n' m.
Proof. intros H Hn w. specialize (H w). lia. Qed.

Lemma costs_ret {A} (a : A) : costs meter 0 (ret a).
Proof. intros w. simpl. lia. Qed.

Lemma costs_throw {A} e : costs meter 0 (@throw A e).
Proof. intros w. simpl. lia. Qed.

Lemma costs_lift {A} (r : outcome A) : costs meter 0 (lift r).
Proof. intros w. simpl. lia. Qed.

Lemma costs_log l : costs meter 0 (log l).
Proof. intros w. cbn [log snd]. rewrite reading_logged. lia. Qed.

Lemma costs_post c : costs meter 0 (post c).
Proof. intros w. cbn [post snd]. rewrite reading_commented. lia. Qed.

Lemma costs_mark_processed i : costs meter 0 (mark_processed i).
Proof. intros w. cbn [mark_processed snd]. rewrite reading_marked. lia. Qed.

Lemma costs_is_processed i : costs meter 0 (is_processed i).
Proof. intros w. simpl. lia. Qed.

Lemma costs_sleep ms :
  (0 <= ms)%Z -> costs meter (sleep_cost meter ms) (sleep ms).
Proof.
  intros H w. cbn [sleep snd]. rewrite reading_waited.
  destruct meter; simpl; lia.
Qed.

Lemma costs_arm ms : costs meter 0 (arm ms).
Proof. intros w. cbn [arm snd]. rewrite reading_armed. lia. Qed.

Lemma costs_until_fired ms :
  (0 <= ms)%Z -> costs meter (sleep_cost meter ms) (until_fired ms).
Proof.
  intros H w. cbn [until_fired snd]. rewrite reading_fired.
  destruct meter; simpl; lia.
Qed.

Lemma costs_call {A} a (answer : nat -> outcome A) :
  costs meter (call_cost meter a) (call a answer).
Proof.
  intros w. cbn [call snd]. rewrite reading_bump.
  pose proof (call_cost_nonneg a). lia.
Qed.

Lemma costs_ask {A} a (answer : nat -> A) :
  costs meter (call_cost meter a) (ask a answer).
Proof.
  intros w. cbn [ask snd]. rewrite reading_bump.
  pose proof (call_cost_nonneg a). lia.
Qed.

Lemma costs_bind {A B} (m : M A) (k : A -> M B) n1 n2 :
  costs meter n1 m -> (forall a, costs meter n2 (k a)) ->
  costs meter (n1 + Z.max 0 n2) (bind m k).
Proof.
  intros Hm Hk w. specialize (Hm w). unfold bind.
  destruct (m w) as [[a|e] w1]; cbn [snd] in *; [|lia].
  specialize (Hk a w1). lia.
Qed.

Lemma costs_try_catch {A} (m : M A) (h : JsError -> M A) n1 n2 :
  costs meter n1 m -> (forall e, costs meter n2 (h e)) ->
  costs meter (n1 + Z.max 0 n2) (try_catch m h).
Proof.
  intros Hm Hh w. specialize (Hm w). unfold try_catch.
  destruct (m w) as [[a|e] w1]; cbn [snd] in *; [lia|].
  specialize (Hh e w1). lia.
Qed.

Lemma costs_attempt {A} (m : M A) n :
  costs meter n m -> costs meter n (attempt m).
Proof.
  intros Hm w. specialize (Hm w). unfold attempt.
  destruct (m w) as [r w1]. exact Hm.
Qed.

Lemma costs_if {A} (b : bool) (m1 m2 : M A) n1 n2 :
  costs meter n1 m1 -> costs meter n2 m2 ->
  costs meter (Z.max n1 n2) (if b then m1 else m2).
Proof.
  intros H1 H2. destruct b; [apply (costs_weaken _ _ _ H1) | apply (costs_weaken _ _ _ H2)]; lia.
Qed.

Lemma costs_outcome {A B} (r : outcome A) (f : A -> M B) (g : JsError -> M B)
    n1 n2 :
  (forall a, costs meter n1 (f a)) -> (forall e, costs meter n2 (g e)) ->
  costs meter (Z.max n1 n2)
    (match r with Returns a => f a | Throws e => g e end).
Proof.
  intros H1 H2.
  destruct r as [a|e];
    [apply (costs_weaken _ _ _ (H1 a)) | apply (costs_weaken _ _ _ (H2 e))]; lia.
Qed.

Lemma costs_option {A B} (o : option A) (f : A -> M B) (g : M B) n1 n2 :
  (forall a, costs meter n1 (f a)) -> costs meter n2 g ->
  costs meter (Z.max n1 n2) (match o with Some a => f a | None => g end).
Proof.
  intros H1 H2.
  destruct o as [a|];
    [apply (costs_weaken _ _ _ (H1 a)) | apply (costs_weaken _ _ _ H2)]; lia.
Qed.

Lemma costs_settled {B} (s : Settled) (f : M B) (g : JsError -> M B) (h : M B)
    n1 n2 n3 :
  costs meter n1 f -> (forall e, costs meter n2 (g e)) -> costs meter n3 h ->
  costs meter (Z.max n1 (Z.max n2 n3))
    (match s with Resolved => f | Rejected e => g e | Pending => h end).
Proof.
  intros H1 H2 H3.
  destruct s as [|e|];
    [apply (costs_weaken _ _ _ H1) | apply (costs_weaken _ _ _ (H2 e))
     | apply (costs_weaken _ _ _ H3)]; lia.
Qed.

Lemma costs_pair {A B C} (p : A * B) (f : A -> B -> M C) n :
  (forall a b, costs meter n (f a b)) ->
  costs meter n (let (a, b) := p in f a b).
Proof. intros H. destruct p. apply H. Qed.

Lemma costs_for_each {A} (f : A -> M unit) :
  (forall x, costs meter 0 (f x)) -> forall l, costs meter 0 (for_each f l).
Proof.
  intros Hf. induction l as [|x l IH]; cbn [for_each]; [apply costs_ret|].
  eapply costs_weaken; [eapply costs_bind; [apply Hf | intros _; exact IH]|].
  lia.
Qed.

End Meter.

End Budget.

Import Budget.

(** One step of the account of a function. *)
Ltac bill_step :=
  cbv zeta;
  lazymatch goal with
  | |- costs _ _ (bind _ _) => eapply costs_bind; [|intros ?]
  | |- costs _ _ (try_catch _ _) => eapply costs_try_catch; [|intros ?]
  | |- costs _ _ (attempt _) => eapply costs_attempt
  | |- costs _ _ (ret _) => apply costs_ret
  | |- costs _ _ (throw _) => apply costs_throw
  | |- costs _ _ (lift _) => apply costs_lift
  | |- costs _ _ (log _) => apply costs_log
  | |- costs _ _ (post _) => apply costs_post
  | |- costs _ _ (mark_processed _) => apply costs_mark_processed
  | |- costs _ _ (is_processed _) => apply costs_is_processed
  | |- costs _ _ (sleep _) => apply costs_sleep; lia
  | |- costs _ _ (arm _) => apply costs_arm
  | |- costs _ _ (until_fired _) => apply costs_until_fired; lia
  | |- costs _ _ (call _ _) => apply costs_call
  | |- costs _ _ (ask _ _) => apply costs_ask
  | |- costs _ _ (if _ then _ else _) => eapply costs_if
  | |- costs _ _ (match ?x with _ => _ end) =>
      lazymatch type of x with
      | outcome _ => eapply costs_outcome; intros ?
      | option _ => eapply costs_option; [intros ?|]
      | Settled => eapply costs_settled; [|intros ?|]
      | prod _ _ => eapply costs_pair; intros ? ?
      end
  end.

(** The account is made, and compared with the bill. *)
Ltac bill_check meter :=
  destruct meter as [[]|]; apply Z.leb_le; vm_compute; reflexivity.

Section Bills.
Context (cfg : Config) (env : Env) (meter : Meter).

Lemma checkTransactionStatus_costs signature :
  costs meter (call_cost meter GetSignatureStatus)
    (checkTransactionStatus env signature).
Proof.
  eapply costs_weaken.
  - unfold checkTransactionStatus. repeat bill_step.
  - bill_check meter.
Qed.

Lemma createBountyTransaction_costs command :
  costs meter (createBountyTransaction_bill meter)
    (createBountyTransaction cfg env command).
Proof.
  eapply costs_weaken.
  - unfold createBountyTransaction, getIssueFromUrl, getRepositoryFromUrl.
    repeat bill_step.
  - bill_check meter.
Qed.

Lemma signAndSendTransaction_costs serializedTransaction :
  costs meter (signAndSendTransaction_bill meter)
    (signAndSendTransaction env serializedTransaction).
Proof.
  eapply costs_weaken.
  - unfold signAndSendTransaction, confirm_or_timeout. cbn [retry_checks].
    repeat first [apply checkTransactionStatus_costs | bill_step].
  - bill_check meter.
Qed.

End Bills.
(** ** When a report is made *)

Lemma invocations_bump a w : invocations (bump a w) = invocations w.
Proof. reflexivity. Qed.

Lemma invocations_commented c w : invocations (commented c w) = invocations w.
Proof. reflexivity. Qed.

Lemma invocations_after_status r w :
  invocations (after_status r w) = invocations w.
Proof.
  destruct r; cbn [after_status]; [reflexivity|].
  rewrite invocations_log. cbn [is_invocation]. rewrite invocations_bump. lia.
Qed.

(** The destructuring steps keep their equations, for the answers of the
    environment to be found again in [report_at]. *)
Ltac rstep :=
  lazymatch goal with
  | |- wp (let (_, _) := ?p in _) _ _ => destruct p eqn:?
  | |- wp (if ?b then _ else _) _ _ => destruct b eqn:?
  | |- match ?x with Returns _ => _ | Throws _ => _ end => destruct x eqn:?
  | _ => xstep
  end.

Ltac answers :=
  repeat match goal with
         | H : octokit_getIssue _ _ _ = _ |- _ => rewrite H
         | H : getRepoInfoFromUrl _ = _ |- _ => rewrite H
         | H : octokit_createComment _ _ _ _ _ _ = _ |- _ => rewrite H
         end.

Ltac same_invocations :=
  repeat first
    [ rewrite invocations_log | rewrite invocations_bump
    | rewrite invocations_commented | rewrite invocations_after_status ];
  cbn [is_invocation]; lia.

(** The end of a path on which nothing was created. *)
Ltac nothing_created :=
  split; [world; now rewrite app_nil_r | world; reflexivity
         | same_invocations].

(** The end of a path: what was reported, with the body [b]. *)
Ltac reported_with b :=
  unfold reported, last_report; world; cbn [pred];
  split; [lia|]; split; [reflexivity|]; split; [same_invocations|];
  exists b; unfold report_at; answers; rewrite ?app_nil_r; reflexivity.

Section Reporting.
Context (cfg : Config) (env : Env).

(** An attempt to report creates one comment or none. *)
Lemma report_at_length lookup request url b :
  (length (report_at env lookup request url b) <= 1)%nat.
Proof.
  unfold report_at. destruct (octokit_getIssue env lookup url); [|simpl; lia].
  destruct (getRepoInfoFromUrl _).
  destruct (octokit_createComment env request _ _ _ b); simpl; lia.
Qed.


Lemma reported_after url w w1 w2 :
  after [] w w1 -> (calls w GetIssue <= calls w1 GetIssue)%nat ->
  reported env url w1 w2 -> reported env url w w2.
Proof.
  intros [Hc Hp Hi] Hle (Hlt & Hp2 & Hi2 & b & Hb). rewrite app_nil_r in Hc.
  split; [lia|]. split; [congruence|]. split; [congruence|].
  exists b. congruence.
Qed.

(** The last part of the [catch] block: the failure comment is
    attempted, and an error of the attempt is logged. *)
Lemma failure_report_spec url b w :
  wp (try_catch
        (issueDetails <- getIssueFromUrl env url ;;
         let (owner, repo) := getRepoInfoFromUrl (repository_url issueDetails) in
         commentOnIssue env owner repo (number issueDetails) b)
        (fun commentError => log (LogErrorPosting commentError))) w
    (fun r w' =>
       r = Returns tt /\ reported env url w w' /\
       comments w' =
       comments w ++
       report_at env (calls w GetIssue) (calls w CreateComment) url b).
Proof.
  repeat rstep.
  all: split; [reflexivity|]; split; [reported_with b|].
  all: unfold report_at; answers; rewrite ?app_nil_r; reflexivity.
Qed.

(** The first part of the [catch] block has reported and says so, or it
    has created nothing. *)
Lemma recheck_reports command transactionSignature bountyResponse w :
  wp (recheck env command transactionSignature bountyResponse) w
    (fun r w' =>
       (r = Returns true /\ reported env (issueUrl command) w w') \/
       (r = Returns false /\ after [] w w' /\
        (calls w GetIssue <= calls w' GetIssue)%nat)).
Proof.
  unfold recheck.
  destruct transactionSignature as [signature|];
    [|xstep; right; split; [reflexivity|]; split; [apply after_refl|lia]].
  destruct bountyResponse as [response|];
    [|xstep; right; split; [reflexivity|]; split; [apply after_refl|lia]].
  repeat rstep.
  all: try (right; split; [reflexivity|]; split; [nothing_created|world; lia]).
  left. split; [reflexivity|].
  match goal with
  | |- context [commented {| comment_body := ?b |} _] => reported_with b
  end.
Qed.

(** The [catch] block returns, and what it has created is the comment
    of its last attempt to report. *)
Lemma report_error_reports command transactionSignature bountyResponse error w :
  wp (report_error env command transactionSignature bountyResponse error) w
    (fun r w' => r = Returns tt /\ reported env (issueUrl command) w w').
Proof.
  unfold report_error. xstep. xstep. xstep.
  eapply wp_mono; [|apply recheck_reports].
  intros r w1 [(-> & Hr)|(-> & Hq & Hle)]; cbv beta iota.
  - xstep. split; [reflexivity|].
    eapply reported_after; [| |exact Hr]; [nothing_created|world; lia].
  - eapply wp_mono; [|apply failure_report_spec].
    intros r w2 (-> & Hr & _). split; [reflexivity|].
    eapply reported_after; [| |exact Hr].
    + eapply after_quiet; [|exact Hq]. nothing_created.
    + revert Hle. world. lia.
Qed.

(** The report of a command that went through is created, or the
    attempt throws and nothing is created. *)
Lemma report_created_reports command response signature w :
  wp (report_created env command response signature) w
    (fun r w' =>
       (r = Returns tt /\ reported env (issueUrl command) w w') \/
       (exists e, r = Throws e /\ after [] w w' /\
                  (calls w GetIssue <= calls w' GetIssue)%nat)).
Proof.
  unfold report_created. repeat rstep.
  all: try (right; eexists; split; [reflexivity|];
            split; [nothing_created|world; lia]).
  all: left; split; [reflexivity|].
  all: match goal with
       | |- context [commented {| comment_body := ?b |} _] => reported_with b
       end.
Qed.

End Reporting.
Section Pipeline.
Context (cfg : Config) (env : Env).

(** A function that creates no comment, and whose calls are counted. *)
Lemma quiet_wp {A} (m : M A) n w :
  silent m -> costs (Calls GetIssue) n m ->
  wp m w (fun _ w' =>
            after [] w w' /\ (calls w GetIssue <= calls w' GetIssue)%nat).
Proof.
  intros Hs Hc. split; [apply Hs|].
  specialize (Hc w). cbn [reading] in Hc. lia.
Qed.

(** Processing a command returns: one invocation is logged, the registry
    is left alone, the issue is looked up, and what is created is the
    comment of the last attempt to report: one comment when the last
    issue lookup and the comment request that follows it return, none
    when one of them throws. *)
Lemma processBountyCommand_reports command w :
  wp (processBountyCommand cfg env command) w
    (fun r w' =>
       r = Returns tt /\
       processedComments w' = processedComments w /\
       invocations w' = S (invocations w) /\
       (calls w GetIssue < calls w' GetIssue)%nat /\
       exists b,
         comments w' = comments w ++ last_report env (issueUrl command) w' b).
Proof.
  unfold processBountyCommand. xstep. xstep.
  set (w0 := logged (LogProcessing command) w).
  assert (Hend : forall w1 (r : outcome unit) w',
             after [] w0 w1 -> (calls w0 GetIssue <= calls w1 GetIssue)%nat ->
             r = Returns tt /\ reported env (issueUrl command) w1 w' ->
             r = Returns tt /\
             processedComments w' = processedComments w /\
             invocations w' = S (invocations w) /\
             (calls w GetIssue < calls w' GetIssue)%nat /\
             exists b,
               comments w' =
               comments w ++ last_report env (issueUrl command) w' b).
  { intros w1 r w' Hq Hle [-> Hr].
    destruct (reported_after env _ _ _ _ Hq Hle Hr) as (Hlt & Hp & Hi & b & Hb).
    split; [reflexivity|]. split; [exact Hp|].
    split; [rewrite Hi; unfold w0; rewrite invocations_log; cbn [is_invocation]; lia|].
    split; [exact Hlt|]. exists b. exact Hb. }
  clearbody w0.
  xstep. xstep.
  eapply wp_mono;
    [|apply (quiet_wp _ _ w0 (silent_createBountyTransaction cfg env command)
               (createBountyTransaction_costs cfg env _ command))].
  intros [bountyResponse|error] w1 [Hq1 Hle1]; cbv beta iota.
  - xstep. xstep.
    eapply wp_mono;
      [|apply (quiet_wp _ _ w1
                 (silent_signAndSendTransaction env
                    (serializedTransaction bountyResponse))
                 (signAndSendTransaction_costs env _ _))].
    intros [transactionSignature|error] w2 [Hq2 Hle2]; cbv beta iota.
    + assert (Hq : after [] w0 w2) by (eapply after_quiet; eauto).
      xstep. eapply wp_mono; [|apply report_created_reports].
      intros r w3 [(-> & Hr)|(e & -> & Hq3 & Hle3)].
      * apply (Hend w2); [exact Hq|lia|auto].
      * eapply wp_mono; [|apply report_error_reports].
        intros r w4 Hr. apply (Hend w3); [|lia|exact Hr].
        eapply after_quiet; eauto.
    + eapply wp_mono; [|apply report_error_reports].
      intros r w3 Hr. apply (Hend w2); [|lia|exact Hr].
      eapply after_quiet; eauto.
  - eapply wp_mono; [|apply report_error_reports].
    intros r w3 Hr. apply (Hend w1); [exact Hq1|lia|exact Hr].
Qed.

End Pipeline.

(** *** Functions that return, and functions that keep the registry *)

Section Closure.
Context {A B : Type}.

Lemma returns_ret (a : A) : returns (ret a).
Proof. intros w. eexists. reflexivity. Qed.

Lemma returns_log l : returns (log l).
Proof. intros w. eexists. reflexivity. Qed.

Lemma returns_bind (m : M A) (k : A -> M B) :
  returns m -> (forall a, returns (k a)) -> returns (bind m k).
Proof.
  intros Hm Hk w. destruct (Hm w) as [a Ha]. unfold bind.
  destruct (m w) as [[a'|e] w1]; simpl in *; [apply Hk | discriminate].
Qed.

Lemma returns_try_catch (m : M A) (h : JsError -> M A) :
  (forall e, returns (h e)) -> returns (try_catch m h).
Proof.
  intros Hh w. unfold try_catch.
  destruct (m w) as [[a|e] w1]; simpl; [eauto | apply Hh].
Qed.

Lemma keeps_ret (a : A) : keeps (ret a).
Proof. intros w. reflexivity. Qed.

Lemma keeps_log l : keeps (log l).
Proof. intros w. reflexivity. Qed.

Lemma keeps_call a (answer : nat -> outcome A) : keeps (call a answer).
Proof. intros w. reflexivity. Qed.

Lemma keeps_bind (m : M A) (k : A -> M B) :
  keeps m -> (forall a, keeps (k a)) -> keeps (bind m k).
Proof.
  intros Hm Hk w. specialize (Hm w). unfold bind.
  destruct (m w) as [[a|e] w1]; simpl in *; [|exact Hm].
  etransitivity; [exact Hm | apply Hk].
Qed.

Lemma keeps_try_catch (m : M A) (h : JsError -> M A) :
  keeps m -> (forall e, keeps (h e)) -> keeps (try_catch m h).
Proof.
  intros Hm Hh w. specialize (Hm w). unfold try_catch.
  destruct (m w) as [[a|e] w1]; simpl in *; [exact Hm|].
  etransitivity; [exact Hm | apply Hh].
Qed.

End Closure.

Lemma returns_for_each {A} (f : A -> M unit) l :
  (forall x, returns (f x)) -> returns (for_each f l).
Proof.
  intros Hf. induction l as [|x l IH]; cbn [for_each].
  - apply returns_ret.
  - apply returns_bind; auto.
Qed.

Lemma keeps_for_each {A} (f : A -> M unit) l :
  (forall x, keeps (f x)) -> keeps (for_each f l).
Proof.
  intros Hf. induction l as [|x l IH]; cbn [for_each].
  - apply keeps_ret.
  - apply keeps_bind; auto.
Qed.

Section Polling.
Context (cfg : Config) (env : Env).

(** A comment that was seen is skipped: nothing happens. *)
Lemma check_comment_seen comment w :
  id comment ∈ processedComments w ->
  check_comment cfg env comment w = (Returns tt, w).
Proof.
  intros H. unfold check_comment, bind, is_processed.
  now rewrite (bool_decide_eq_true_2 _ H).
Qed.

(** A comment that was not seen: it is marked, and the pipeline runs when
    the comment holds a command of an authorized user. *)
Lemma check_comment_fresh comment w :
  id comment ∉ processedComments w ->
  check_comment cfg env comment w =
  match parseBountyCommand cfg comment with
  | Some bountyCommand =>
      processBountyCommand cfg env bountyCommand
        (logged (LogFoundCommand (login (user comment)) bountyCommand)
           (marked (id comment) w))
  | None => (Returns tt, marked (id comment) w)
  end.
Proof.
  intros H. unfold check_comment, bind, is_processed.
  rewrite (bool_decide_eq_false_2 _ H). cbn [mark_processed].
  destruct (parseBountyCommand cfg comment); reflexivity.
Qed.

Lemma invocations_marked i w : invocations (marked i w) = invocations w.
Proof. reflexivity. Qed.

(** Checking a comment returns; its identifier is in the registry
    afterwards, the pipeline was invoked at most once and at most one
    comment was created. *)
Lemma check_comment_spec comment w :
  wp (check_comment cfg env comment) w
    (fun r w' =>
       r = Returns tt /\
       processedComments w' = {[ id comment ]} ∪ processedComments w /\
       (invocations w <= invocations w' <= S (invocations w))%nat /\
       exists cs, comments w' = comments w ++ cs /\ (length cs <= 1)%nat).
Proof.
  unfold wp. destruct (decide (id comment ∈ processedComments w)) as [Hin|Hin].
  - rewrite (check_comment_seen _ _ Hin). simpl.
    split; [reflexivity|]. split; [set_solver|]. split; [lia|].
    exists []. split; [now rewrite app_nil_r | simpl; lia].
  - rewrite (check_comment_fresh _ _ Hin).
    destruct (parseBountyCommand cfg comment) as [bountyCommand|].
    + pose proof (processBountyCommand_reports cfg env bountyCommand
                    (logged (LogFoundCommand (login (user comment)) bountyCommand)
                       (marked (id comment) w))) as H.
      unfold wp in H. destruct H as (-> & Hp & Hi & _ & b & Hc).
      split; [reflexivity|]. split; [exact Hp|].
      rewrite Hi, invocations_log, invocations_marked. simpl.
      split; [lia|].
      eexists. split; [exact Hc|]. apply report_at_length.
    + simpl. split; [reflexivity|]. split; [reflexivity|].
      rewrite invocations_marked. split; [lia|].
      exists []. split; [now rewrite app_nil_r | simpl; lia].
Qed.

(** The loop over the comments returns, and every comment of the listing
    is in the registry afterwards. *)
Lemma check_comments_spec : forall l w,
  wp (for_each (check_comment cfg env) l) w
    (fun r w' =>
       r = Returns tt /\
       processedComments w' = list_to_set (map id l) ∪ processedComments w).
Proof.
  induction l as [|c l IH]; intros w; cbn [for_each].
  - apply wp_ret. split; [reflexivity|]. simpl. set_solver.
  - apply wp_bind. eapply wp_mono; [|apply check_comment_spec].
    intros r w1 (-> & Hp & _). eapply wp_mono; [|apply IH].
    intros r w2 (-> & Hp2). split; [reflexivity|].
    rewrite Hp2, Hp. simpl. set_solver.
Qed.

Lemma returns_check_comment comment : returns (check_comment cfg env comment).
Proof.
  intros w. pose proof (check_comment_spec comment w) as (H1 & _). eauto.
Qed.

Lemma keeps_check_comment comment : keeps (check_comment cfg env comment).
Proof.
  intros w. pose proof (check_comment_spec comment w) as (_ & H2 & _).
  rewrite H2. set_solver.
Qed.

Lemma returns_getRecentComments o r : returns (getRecentComments env o r).
Proof.
  unfold getRecentComments. apply returns_try_catch. intros e.
  apply returns_bind; [apply returns_log|]. intros _. apply returns_ret.
Qed.

Lemma keeps_getRecentComments o r : keeps (getRecentComments env o r).
Proof.
  unfold getRecentComments. apply keeps_try_catch; [apply keeps_call|].
  intros e. apply keeps_bind; [apply keeps_log|]. intros _. apply keeps_ret.
Qed.

Lemma returns_check_repository repoFullName :
  returns (check_repository cfg env repoFullName).
Proof.
  unfold check_repository. apply returns_try_catch. intros e. apply returns_log.
Qed.

Lemma keeps_check_repository repoFullName :
  keeps (check_repository cfg env repoFullName).
Proof.
  unfold check_repository. destruct (parseRepoFullName repoFullName) as [o r].
  apply keeps_try_catch; [|intros e; apply keeps_log].
  apply keeps_bind; [apply keeps_log|]. intros _.
  apply keeps_bind; [apply keeps_getRecentComments|]. intros l.
  apply keeps_bind; [apply keeps_log|]. intros _.
  apply keeps_for_each. apply keeps_check_comment.
Qed.

Lemma returns_checkForBountyCommands : returns (checkForBountyCommands cfg env).
Proof. apply returns_for_each. apply returns_check_repository. Qed.

Lemma keeps_checkForBountyCommands : keeps (checkForBountyCommands cfg env).
Proof. apply keeps_for_each. apply keeps_check_repository. Qed.

Lemma returns_run_job j : returns (run_job cfg env j).
Proof.
  destruct j; cbn [run_job].
  - apply returns_bind; [apply returns_log|]. intros _.
    apply returns_checkForBountyCommands.
  - intros w. eexists. reflexivity.
Qed.

Lemma keeps_run_job j : keeps (run_job cfg env j).
Proof.
  destruct j; cbn [run_job].
  - apply keeps_bind; [apply keeps_log|]. intros _.
    apply keeps_checkForBountyCommands.
  - intros w. simpl. set_solver.
Qed.

End Polling.

(** ** The report after a submission *)

(** Once [signAndSendTransaction] has returned a signature, every
    comment that the rest of [processBountyCommand] creates has the link
    to it. *)
Lemma signature_is_kept_once_returned env command response signature w :
  truthy signature = true ->
  wp (try_catch (report_created env command response signature)
        (report_error env command (Some signature) (Some response))) w
    (fun r w' =>
       r = Returns tt /\
       exists cs,
         comments w' = comments w ++ cs /\
         Forall (fun c => cites signature (comment_body c)) cs).
Proof.
  intros Hs. apply wp_try_catch.
  eapply wp_mono; [|apply report_created_spec].
  intros r w1 [(-> & c & note & [Hc _ _] & Hb)|(e & -> & [Hq _ _])].
  - split; [reflexivity|]. exists [c]. split; [exact Hc|].
    constructor; [|constructor]. rewrite Hb. reflexivity.
  - eapply wp_mono; [|apply report_error_spec].
    intros r w2 [-> [(c & [Hc _ _] & Hb)|[Hc _ _]]];
      (split; [reflexivity|]).
    + exists [c]. split; [now rewrite Hc, Hq, app_nil_r|].
      constructor; [|constructor].
      destruct Hb as [->|(s & br & [= <-] & [= <-] & ->)]; [|reflexivity].
      cbn [transaction_note]. rewrite Hs.
      destruct (truthy (taskId response)); reflexivity.
    + exists []. split; [now rewrite Hc, Hq, !app_nil_r|]. constructor.
Qed.


Section Confirmation.
Context (cfg : Config) (env : Env).

(** C2, as amended.  A transaction that was submitted, whose primary
    confirmation throws or times out and whose fallback status check
    reports confirmed or finalized: [signAndSendTransaction] returns the
    signature that was submitted.  Processing the command then returns,
    and every comment it creates has the link to that signature.  The
    report is attempted once the signature is returned: the issue is
    looked up, which is the second lookup of the run, the status is asked
    again, which is the second query, and the comment is requested.  When
    this lookup and this request return, one comment is created: the
    report of a bounty that was created, with the link to the signature,
    which is not a failure report; its note says confirmed when the
    second status query confirms, and that the confirmation is pending
    otherwise. *)
Theorem fallback_confirmation_is_success command w response signature e :
  marketplace_answers cfg env w command response ->
  submitted env w response signature ->
  confirmation_fails env w signature e ->
  status_check env w 0 signature = true ->
  fst (signAndSendTransaction env (serializedTransaction response) w)
    = Returns signature /\
  (truthy signature = true ->
   wp (processBountyCommand cfg env command) w
     (fun r w' =>
        r = Returns tt /\
        exists cs,
          comments w' = comments w ++ cs /\
          Forall (fun c => cites signature (comment_body c)) cs)) /\
  (forall issueDetails,
     let note := if status_check env w 1 signature then NoteConfirmed
                 else NotePending in
     let c := {| on_owner := fst (getRepoInfoFromUrl (repository_url issueDetails));
                 on_repo := snd (getRepoInfoFromUrl (repository_url issueDetails));
                 on_issue := number issueDetails;
                 comment_body := created_body command response signature note |} in
     octokit_getIssue env (S (calls w GetIssue)) (issueUrl command)
     = Returns issueDetails ->
     octokit_createComment env (calls w CreateComment) (on_owner c) (on_repo c)
       (on_issue c) (comment_body c) = Returns tt ->
     wp (processBountyCommand cfg env command) w
       (fun r w' =>
          r = Returns tt /\
          comments w' = comments w ++ [c] /\
          cites signature (comment_body c) /\
          is_failure (comment_body c) = false)).
Proof.
  intros (issueDetails & repository & r & Hi & Hr & Hf & Hok & Hjson)
         (wallet & transaction & signed & H1 & H2 & H3 & H4) Hc Hs.
  unfold status_check in Hs. cbn [Nat.add] in Hs.
  split; [|split].
  - change (wp (signAndSendTransaction env (serializedTransaction response)) w
              (fun r _ => r = Returns signature)).
    destruct Hc as [Hb|(latest & Hb & [Hc|[Hc ->]])]; xrun; reflexivity.
  - intros Ht.
    destruct Hc as [Hb|(latest & Hb & [Hc|[Hc ->]])]; xrun_to_report;
      (eapply wp_mono;
       [|apply (signature_is_kept_once_returned env command response signature
                  _ Ht)]);
      intros r0 w' (-> & cs & Hcs & Hall); (split; [reflexivity|]);
      exists cs; (split; [|exact Hall]); revert Hcs; world; trivial.
  - intros i2 note c Hi2 Hpost. subst c note.
    unfold status_check in Hpost |- *. cbn [Nat.add] in Hpost |- *.
    cbn [on_owner on_repo on_issue comment_body] in Hpost.
    destruct (getRepoInfoFromUrl (repository_url i2)) as [o2 r2] eqn:Hrepo.
    cbn [fst snd] in Hpost |- *.
    unfold created_body in Hpost.
    destruct Hc as [Hb|(latest & Hb & [Hc|[Hc ->]])]; xpath;
      repeat split.
Qed.

(** C5, as amended.  A transaction that was submitted, whose primary
    confirmation fails with a blockhash-height-exceeded error and whose
    first fallback status check does not confirm: [signAndSendTransaction]
    returns the signature after at most three more status checks.  When
    none of them confirms, there are exactly three, each after a delay of
    five seconds; the report is then attempted: the issue is looked up,
    which is the second lookup of the run, the status is asked a fifth
    time, and the comment is requested.  When this lookup and this
    request return, one comment is created: the report of a bounty that
    was created, with the link to the signature, which is not a failure
    report; its note says that the confirmation is pending, unless the
    fifth status query confirms. *)
Theorem expired_blockhash_is_pending command w response signature e :
  marketplace_answers cfg env w command response ->
  submitted env w response signature ->
  confirmation_fails env w signature e ->
  blockheight_exceeded e = true ->
  status_check env w 0 signature = false ->
  wp (signAndSendTransaction env (serializedTransaction response)) w
    (fun r w' =>
       r = Returns signature /\
       (calls w' GetSignatureStatus <= 4 + calls w GetSignatureStatus)%nat /\
       ((forall k, (1 <= k <= 3)%nat -> status_check env w k signature = false) ->
        calls w' GetSignatureStatus = (4 + calls w GetSignatureStatus)%nat /\
        clock w' = (clock w + 4 * 5000)%Z)) /\
  ((forall k, (1 <= k <= 3)%nat -> status_check env w k signature = false) ->
   forall issueDetails,
     let note := if status_check env w 4 signature then NoteConfirmed
                 else NotePending in
     let c := {| on_owner := fst (getRepoInfoFromUrl (repository_url issueDetails));
                 on_repo := snd (getRepoInfoFromUrl (repository_url issueDetails));
                 on_issue := number issueDetails;
                 comment_body := created_body command response signature note |} in
     octokit_getIssue env (S (calls w GetIssue)) (issueUrl command)
     = Returns issueDetails ->
     octokit_createComment env (calls w CreateComment) (on_owner c) (on_repo c)
       (on_issue c) (comment_body c) = Returns tt ->
     wp (processBountyCommand cfg env command) w
       (fun r w' =>
          r = Returns tt /\
          comments w' = comments w ++ [c] /\
          cites signature (comment_body c) /\
          is_failure (comment_body c) = false)).
Proof.
  intros (issueDetails & repository & r & Hi & Hr & Hf & Hok & Hjson)
         (wallet & transaction & signed & H1 & H2 & H3 & H4) Hc He Hs.
  unfold status_check in *. cbn [Nat.add] in Hs.
  assert (Hc' : getLatestBlockhash env (calls w GetLatestBlockhash) = Throws e \/
                exists latest,
                  getLatestBlockhash env (calls w GetLatestBlockhash)
                    = Returns latest /\
                  confirmTransaction env (calls w ConfirmTransaction)
                    (confirmation_config signature latest) = Rejected e).
  { destruct Hc as [Hb|(latest & Hb & [Hc|[Hc ->]])]; eauto. discriminate. }
  clear Hc. split.
  - destruct (status_answer
                (getSignatureStatus env (1 + calls w GetSignatureStatus) signature))
      eqn:S1;
    [|destruct (status_answer
                  (getSignatureStatus env (2 + calls w GetSignatureStatus) signature))
        eqn:S2;
      [|destruct (status_answer
                    (getSignatureStatus env (3 + calls w GetSignatureStatus) signature))
          eqn:S3]];
    cbn [Nat.add] in *;
    (destruct Hc' as [Hb|(latest & Hb & Hc)]; xrun;
     (split; [reflexivity|]); (split; [lia|]); intros Hall;
     pose proof (Hall 1%nat ltac:(lia)) as A1;
     pose proof (Hall 2%nat ltac:(lia)) as A2;
     pose proof (Hall 3%nat ltac:(lia)) as A3;
     cbn [Nat.add] in A1, A2, A3;
     first [congruence | split; lia]).
  - intros Hall i2 Hi2 Hpost.
    pose proof (Hall 1%nat ltac:(lia)) as S1.
    pose proof (Hall 2%nat ltac:(lia)) as S2.
    pose proof (Hall 3%nat ltac:(lia)) as S3.
    cbn [Nat.add] in S1, S2, S3, Hpost |- *. clear Hall.
    cbn [on_owner on_repo on_issue comment_body] in Hpost.
    destruct (getRepoInfoFromUrl (repository_url i2)) as [o2 r2] eqn:Hrepo.
    cbn [fst snd] in Hpost |- *.
    unfold created_body in Hpost.
    destruct Hc' as [Hb|(latest & Hb & Hc)]; xpath; repeat split.
Qed.

End Confirmation.

Section Failure.
Context (cfg : Config) (env : Env).


End Failure.

(** ** The parser *)

Section Parser.
Import Grammar.

Lemma has_command_slash b :
  has_command b -> In "/"%char (list_ascii_of_string b).
Proof.
  intros (amt & tok & pre & kw & ws1 & ws2 & post & -> & Hkw & _).
  unfold is_keyword in Hkw. destruct kw as [|a kw]; [discriminate|].
  simpl in Hkw. injection Hkw as Ha _.
  assert (a = "/"%char) as ->.
  { revert Ha. destruct a as [[] [] [] [] [] [] [] []]; vm_compute; congruence. }
  apply in_or_app. right. now left.
Qed.

(** C6, as amended.  The grammar of the source is: [/bounty] in any
    letter case, one or more white-space characters, digits with an
    optional fraction, one or more white-space characters, 32 to 44
    letters, digits or underscores, anywhere in the comment.  A comment
    in which no such command stands is parsed to null; [parseBountyCommand]
    is a function of the configuration and of the comment, and has no
    effect. *)
Theorem comment_without_command_is_ignored cfg comment :
  ~ has_command (body comment) -> parseBountyCommand cfg comment = None.
Proof.
  intros Hno. destruct (parseBountyCommand cfg comment) as [command|] eqn:E;
    [|reflexivity].
  exfalso. apply Hno. apply ParserFacts.parseBountyCommand_sound in E.
  destruct E as (_ & amt & tok & H & _). exists amt, tok. exact H.
Qed.

Lemma comment_without_command_witness :
  parseBountyCommand Example.config Example.plain_comment = None.
Proof.
  apply comment_without_command_is_ignored.
  intros H. apply has_command_slash in H. simpl in H.
  repeat (destruct H as [H|H]; [discriminate H|]). exact H.
Defined.

(** C6, as stated, fails: the specification's grammar (the literal
    [/bounty], spaces, an alphanumeric address) describes none of these
    three comments of an authorized user, and each is parsed to a
    command. *)
Lemma grammar_of_the_specification_is_narrower :
  (~ Spec.describes (body Example.upper_case_comment) /\
   parseBountyCommand Example.config Example.upper_case_comment
   = Some Example.command) /\
  (~ Spec.describes (body Example.tabs_comment) /\
   parseBountyCommand Example.config Example.tabs_comment
   = Some Example.command) /\
  (~ Spec.describes (body Example.underscore_comment) /\
   parseBountyCommand Example.config Example.underscore_comment
   = Some {| amount := Finite 5;
             tokenAddress := "aaaaaaaaaaaaaaaa_aaaaaaaaaaaaaaaa";
             issueUrl := Example.issue_12 |}).
Proof.
  repeat split;
    try (apply ParserComplete.spec_matches_complete; vm_compute; reflexivity);
    vm_compute; reflexivity.
Qed.

(** C9, as amended.  The amount of a command that is parsed is the
    double nearest to the decimal that stands in the command, the digits
    [ip] with the optional fraction [fp]: it is not NaN and not negative.
    It is zero for a decimal of zeros, and it is the positive infinity
    exactly when the decimal is [2^1024 - 2^970] or more. *)
Theorem parsed_amount_is_not_negative cfg comment command :
  parseBountyCommand cfg comment = Some command ->
  exists amt tok ip fp,
    command_in (list_ascii_of_string (body comment)) amt tok /\
    ((amt = ip /\ fp = []) \/ amt = ip ++ ("."%char :: fp)) /\
    ip <> [] /\ all Char.is_digit ip /\ all Char.is_digit fp /\
    amount command = Number.to_double (Number.decimal ip fp 0) /\
    Number.not_negative (amount command) /\
    (amount command = Infinity false <->
     (Number.two_power 1024 - Number.two_power 970
      <= Number.decimal ip fp 0)%Q).
Proof.
  intros H. apply ParserFacts.parseBountyCommand_sound in H.
  destruct H as (_ & amt & tok & Hin & Hamount & _).
  pose proof Hin as (pre & kw & ws1 & ws2 & post & _ & _ & _ & Ha & _).
  destruct (NumberFacts.parseFloat_amount amt Ha)
    as (ip & fp & Hshape & Hne & Hip & Hfp & E).
  exists amt, tok, ip, fp. rewrite Hamount.
  split; [exact Hin|]. split; [exact Hshape|]. split; [exact Hne|].
  split; [exact Hip|]. split; [exact Hfp|]. split; [exact E|].
  split; [now apply NumberFacts.parseFloat_amount_not_negative|].
  rewrite E. apply NumberFacts.to_double_overflows.
  apply NumberFacts.decimal_nonneg.
Qed.

Lemma parsed_amount_witness :
  parseBountyCommand Example.config Example.valid_comment
  = Some Example.command /\
  exists amt tok ip fp,
    command_in (list_ascii_of_string (body Example.valid_comment)) amt tok /\
    ((amt = ip /\ fp = []) \/ amt = ip ++ ("."%char :: fp)) /\
    ip <> [] /\ all Char.is_digit ip /\ all Char.is_digit fp /\
    amount Example.command = Number.to_double (Number.decimal ip fp 0) /\
    Number.not_negative (amount Example.command) /\
    (amount Example.command = Infinity false <->
     (Number.two_power 1024 - Number.two_power 970
      <= Number.decimal ip fp 0)%Q).
Proof.
  assert (H : parseBountyCommand Example.config Example.valid_comment
              = Some Example.command) by (vm_compute; reflexivity).
  split; [exact H|].
  exact (parsed_amount_is_not_negative Example.config Example.valid_comment
           Example.command H).
Defined.

(** C9, as stated, fails: [/bounty 0 ...] is parsed to a command whose
    amount is zero, which is not positive, and an amount of one followed
    by 309 zeros is parsed to a command whose amount is the infinity,
    which is not finite. *)
Lemma parsed_amount_may_be_zero_or_infinite :
  (exists command,
     parseBountyCommand Example.config Example.zero_comment = Some command /\
     amount command = Finite 0 /\
     ~ Number.positive (amount command)) /\
  (exists command,
     parseBountyCommand Example.config Example.huge_comment = Some command /\
     amount command = Infinity false /\
     Number.is_finite (amount command) = false).
Proof.
  split; eexists.
  - split; [vm_compute; reflexivity|]. split; [reflexivity|].
    cbn [amount Number.positive]. intros H. revert H. apply Qlt_irrefl.
  - split; [vm_compute; reflexivity|]. split; reflexivity.
Qed.

(** The amount is a double, not the decimal that was written: of
    [2^53 + 1] the command keeps [2^53]. *)
Lemma parsed_amount_is_rounded :
  parseBountyCommand Example.config Example.odd_comment
  = Some {| amount := Finite (inject_Z (2 ^ 53)); tokenAddress := Example.SOL;
            issueUrl := Example.issue_12 |}.
Proof. vm_compute. reflexivity. Qed.

Lemma isAuthorized_empty cfg name :
  AUTHORIZED_USERS cfg = [] -> isAuthorized cfg name = false.
Proof. unfold isAuthorized. now intros ->. Qed.

Lemma unauthorized_is_null cfg comment :
  isAuthorized cfg (login (user comment)) = false ->
  parseBountyCommand cfg comment = None.
Proof.
  intros H. unfold parseBountyCommand. rewrite H.
  now destruct (Regex.match_ bounty_regex (body comment)) as [[m c]|].
Qed.

End Parser.

(** ** The status check *)

(** C10.  [checkTransactionStatus] returns a boolean for every signature
    and in every world: true exactly when the node reports the status
    confirmed or finalized, false when the query throws and when no
    status is reported.  It never throws. *)
Theorem status_check_is_total env signature w :
  exists b w',
    checkTransactionStatus env signature w = (Returns b, w') /\
    (b = true <->
     exists s,
       getSignatureStatus env (calls w GetSignatureStatus) signature
       = Returns (Some {| value := Some s |}) /\
       (confirmationStatus s = Some confirmed \/
        confirmationStatus s = Some finalized)) /\
    ((exists e,
        getSignatureStatus env (calls w GetSignatureStatus) signature
        = Throws e) -> b = false) /\
    (getSignatureStatus env (calls w GetSignatureStatus) signature
     = Returns None \/
     getSignatureStatus env (calls w GetSignatureStatus) signature
     = Returns (Some {| value := None |}) -> b = false).
Proof.
  unfold checkTransactionStatus, try_catch, bind, call. cbn [fst snd].
  destruct (getSignatureStatus env (calls w GetSignatureStatus) signature)
    as [[[[[[[| |]|]]|]]|]|e] eqn:E; cbn [value ret log is_confirmed confirmationStatus];
    eexists _, _; (split; [reflexivity|]);
    repeat split; try discriminate; try reflexivity;
    try (intros (s & [= <-] & [H|H]); discriminate H);
    try (intros (e' & H); discriminate H);
    try (intros [H|H]; discriminate H);
    try (intros _; eexists; split; [reflexivity|]; cbn; auto);
    try (intros (s & H & _); discriminate H).
Qed.

(** ** The pipeline *)

(** C1, at the failing input.  The submission answers the signature
    [SIG], the confirmation times out and the node does not know the
    signature: the signature was logged, and the one comment is the
    failure report, without the signature. *)
Theorem signature_is_lost_when_confirmation_fails :
  In (LogSent "SIG")
    (console (snd (processBountyCommand Example.config Example.timeout_unknown
                     Example.command initial_world))) /\
  map comment_body
    (comments (snd (processBountyCommand Example.config Example.timeout_unknown
                      Example.command initial_world)))
  = [BountyFailed "Transaction may have failed: Confirmation timeout"
       NoTransaction].
Proof. split; vm_compute; [tauto | reflexivity]. Qed.

(** The comment of a command that went through, on the issue of the
    examples. *)
Lemma example_issue_is_in_octo_repo :
  getRepoInfoFromUrl (repository_url Example.issue)
  = (Some "octo", Some "repo").
Proof. reflexivity. Qed.

(** The scenario of C2 in [Example.timeout_confirmed]. *)
Lemma fallback_confirmation_witness :
  fst (signAndSendTransaction Example.timeout_confirmed
         (serializedTransaction Example.response) initial_world)
  = Returns "SIG" /\
  wp (processBountyCommand Example.config Example.timeout_confirmed
        Example.command) initial_world
    (fun r w' =>
       r = Returns tt /\
       exists cs,
         comments w' = comments initial_world ++ cs /\
         Forall (fun c => cites "SIG" (comment_body c)) cs) /\
  wp (processBountyCommand Example.config Example.timeout_confirmed
        Example.command) initial_world
    (fun r w' =>
       r = Returns tt /\
       comments w'
       = comments initial_world ++
         [{| on_owner := Some "octo"; on_repo := Some "repo"; on_issue := 12;
             comment_body :=
               created_body Example.command Example.response "SIG"
                 NoteConfirmed |}] /\
       cites "SIG"
         (created_body Example.command Example.response "SIG" NoteConfirmed) /\
       is_failure
         (created_body Example.command Example.response "SIG" NoteConfirmed)
       = false).
Proof.
  assert (H : marketplace_answers Example.config Example.timeout_confirmed
                initial_world Example.command Example.response).
  { exists Example.issue, Example.repository,
      {| ok := true; statusText := "OK"; text := Returns "";
         json := Returns Example.response |}.
    repeat split. }
  assert (H0 : submitted Example.timeout_confirmed initial_world
                 Example.response "SIG").
  { exists "KEY", "AQID", "AQID". repeat split. }
  assert (H1 : confirmation_fails Example.timeout_confirmed initial_world
                 "SIG" (new_Error "Confirmation timeout")).
  { right. exists {| blockhash := "H"; lastValidBlockHeight := 100 |}.
    split; [reflexivity|]. right. split; reflexivity. }
  assert (H2 : status_check Example.timeout_confirmed initial_world 0 "SIG"
               = true) by reflexivity.
  destruct (fallback_confirmation_is_success Example.config
              Example.timeout_confirmed Example.command initial_world
              Example.response "SIG" (new_Error "Confirmation timeout")
              H H0 H1 H2) as (A & B & C).
  split; [exact A|]. split.
  - apply B. reflexivity.
  - exact (C Example.issue eq_refl eq_refl).
Defined.

(** C2, as stated, fails: in [Example.flaky] the transaction is submitted,
    the confirmation times out and the fallback status check reports
    confirmed, so that [signAndSendTransaction] returns the signature; the
    issue lookup of the report then fails, the second status check fails
    too, and the comment that is created is the failure report, with the
    link to the signature. *)
Lemma failure_report_after_fallback_confirmation :
  marketplace_answers Example.config Example.flaky initial_world
    Example.command Example.response /\
  submitted Example.flaky initial_world Example.response "SIG" /\
  confirmation_fails Example.flaky initial_world "SIG"
    (new_Error "Confirmation timeout") /\
  status_check Example.flaky initial_world 0 "SIG" = true /\
  fst (signAndSendTransaction Example.flaky
         (serializedTransaction Example.response) initial_world)
  = Returns "SIG" /\
  (exists c,
     comments (snd (processBountyCommand Example.config Example.flaky
                      Example.command initial_world)) = [c] /\
     is_failure (comment_body c) = true /\
     cites "SIG" (comment_body c)).
Proof.
  split; [|split; [|split; [|split; [|split]]]].
  - exists Example.issue, Example.repository,
      {| ok := true; statusText := "OK"; text := Returns "";
         json := Returns Example.response |}.
    repeat split.
  - exists "KEY", "AQID", "AQID". repeat split.
  - right. exists {| blockhash := "H"; lastValidBlockHeight := 100 |}.
    split; [reflexivity|]. right. split; reflexivity.
  - reflexivity.
  - reflexivity.
  - eexists. split; [vm_compute; reflexivity|]. split; reflexivity.
Qed.

(** C2, as stated, fails without any failure of a collaborator: in
    [Example.flapping] the transaction is submitted, the confirmation
    times out and the fallback status check reports confirmed, so that
    [signAndSendTransaction] returns the signature; the status query made
    before the comment does not confirm, and the one comment says that the
    confirmation is pending. *)
Lemma pending_report_after_fallback_confirmation :
  marketplace_answers Example.config Example.flapping initial_world
    Example.command Example.response /\
  submitted Example.flapping initial_world Example.response "SIG" /\
  confirmation_fails Example.flapping initial_world "SIG"
    (new_Error "Confirmation timeout") /\
  status_check Example.flapping initial_world 0 "SIG" = true /\
  fst (signAndSendTransaction Example.flapping
         (serializedTransaction Example.response) initial_world)
  = Returns "SIG" /\
  map comment_body
    (comments (snd (processBountyCommand Example.config Example.flapping
                      Example.command initial_world)))
  = [created_body Example.command Example.response "SIG" NotePending].
Proof.
  split; [|split; [|split; [|split; [|split]]]].
  - exists Example.issue, Example.repository,
      {| ok := true; statusText := "OK"; text := Returns "";
         json := Returns Example.response |}.
    repeat split.
  - exists "KEY", "AQID", "AQID". repeat split.
  - right. exists {| blockhash := "H"; lastValidBlockHeight := 100 |}.
    split; [reflexivity|]. right. split; reflexivity.
  - reflexivity.
  - reflexivity.
  - vm_compute. reflexivity.
Qed.

(** The scenario of C5 in [Example.expired_unknown]. *)
Lemma expired_blockhash_witness :
  wp (signAndSendTransaction Example.expired_unknown
        (serializedTransaction Example.response)) initial_world
    (fun r w' =>
       r = Returns "SIG" /\ calls w' GetSignatureStatus = 4%nat /\
       clock w' = 20000%Z) /\
  wp (processBountyCommand Example.config Example.expired_unknown
        Example.command) initial_world
    (fun r w' =>
       r = Returns tt /\
       comments w'
       = comments initial_world ++
         [{| on_owner := Some "octo"; on_repo := Some "repo"; on_issue := 12;
             comment_body :=
               created_body Example.command Example.response "SIG"
                 NotePending |}] /\
       cites "SIG"
         (created_body Example.command Example.response "SIG" NotePending) /\
       is_failure
         (created_body Example.command Example.response "SIG" NotePending)
       = false).
Proof.
  assert (H : marketplace_answers Example.config Example.expired_unknown
                initial_world Example.command Example.response).
  { exists Example.issue, Example.repository,
      {| ok := true; statusText := "OK"; text := Returns "";
         json := Returns Example.response |}.
    repeat split. }
  assert (H0 : submitted Example.expired_unknown initial_world
                 Example.response "SIG").
  { exists "KEY", "AQID", "AQID". repeat split. }
  assert (H1 : confirmation_fails Example.expired_unknown initial_world
                 "SIG" Example.blockheight_error).
  { right. exists {| blockhash := "H"; lastValidBlockHeight := 100 |}.
    split; [reflexivity|]. left. reflexivity. }
  assert (H2 : blockheight_exceeded Example.blockheight_error = true)
    by reflexivity.
  assert (H3 : status_check Example.expired_unknown initial_world 0 "SIG"
               = false) by reflexivity.
  destruct (expired_blockhash_is_pending Example.config
              Example.expired_unknown Example.command initial_world
              Example.response "SIG" Example.blockheight_error
              H H0 H1 H2 H3) as [A B].
  split.
  - revert A. apply wp_mono. intros r w' (Hr & _ & Hall).
    split; [exact Hr|]. apply Hall. intros k _. reflexivity.
  - exact (B ltac:(intros k _; reflexivity) Example.issue eq_refl eq_refl).
Defined.

(** C5, as stated, fails: in [Example.expired_late] the blockhash expires
    and none of the four status checks of [signAndSendTransaction]
    confirms, but the check made before the comment does: the one comment
    says that the transaction is confirmed, not that its confirmation is
    pending. *)
Lemma late_confirmation_is_reported_confirmed :
  marketplace_answers Example.config Example.expired_late initial_world
    Example.command Example.response /\
  submitted Example.expired_late initial_world Example.response "SIG" /\
  confirmation_fails Example.expired_late initial_world "SIG"
    Example.blockheight_error /\
  blockheight_exceeded Example.blockheight_error = true /\
  (forall k, (k <= 3)%nat ->
     status_check Example.expired_late initial_world k "SIG" = false) /\
  map comment_body
    (comments (snd (processBountyCommand Example.config Example.expired_late
                      Example.command initial_world)))
  = [created_body Example.command Example.response "SIG" NoteConfirmed].
Proof.
  split; [|split; [|split; [|split; [|split]]]].
  - exists Example.issue, Example.repository,
      {| ok := true; statusText := "OK"; text := Returns "";
         json := Returns Example.response |}.
    repeat split.
  - exists "KEY", "AQID", "AQID". repeat split.
  - right. exists {| blockhash := "H"; lastValidBlockHeight := 100 |}.
    split; [reflexivity|]. left. reflexivity.
  - reflexivity.
  - intros [|[|[|[|k]]]] Hk; [reflexivity..|lia].
  - vm_compute. reflexivity.
Qed.



(** ** The poll loop *)



(** A lookup that fails in the marketplace step does not prevent the
    report: in [Example.lookup_fails_once] the first lookup throws, the
    lookup of the report finds the issue, and the one comment is the
    failure report. *)
Lemma one_report_after_a_failed_lookup :
  comments (snd (processBountyCommand Example.config Example.lookup_fails_once
                   Example.command initial_world))
  = [{| on_owner := Some "octo"; on_repo := Some "repo"; on_issue := 12;
        comment_body := BountyFailed "Bad Gateway" NoTransaction |}].
Proof. vm_compute. reflexivity. Qed.




(** A command of a user who is not authorized is marked as seen and
    nothing else happens. *)
Lemma unauthorized_comment_is_only_marked cfg env comment w :
  isAuthorized cfg (login (user comment)) = false ->
  id comment ∉ processedComments w ->
  check_comment cfg env comment w = (Returns tt, marked (id comment) w).
Proof.
  intros Hauth Hfresh. rewrite (check_comment_fresh _ _ _ _ Hfresh).
  now rewrite (unauthorized_is_null _ _ Hauth).
Qed.

(** C3, at the failing input.  The comment of mallory holds a command and
    mallory is not on the allow-list: the poll marks the comment, does
    not invoke the pipeline, and creates no comment. *)
Theorem unauthorized_command_is_dropped :
  Regex.match_ bounty_regex (body Example.unauthorized_comment) <> None /\
  isAuthorized Example.config (login (user Example.unauthorized_comment))
  = false /\
  fst (checkForBountyCommands Example.config
         (Example.all_well [Example.unauthorized_comment]) initial_world)
  = Returns tt /\
  invocations
    (snd (checkForBountyCommands Example.config
            (Example.all_well [Example.unauthorized_comment]) initial_world))
  = 0%nat /\
  comments
    (snd (checkForBountyCommands Example.config
            (Example.all_well [Example.unauthorized_comment]) initial_world))
  = [].
Proof. vm_compute. repeat split. discriminate. Qed.

(** * Further properties *)
(** ** What the matcher returns on a command *)

Module RegexExact.
Import Regex RegexFacts.

Section Greedy.
Context {R : Type}.

(** A greedy quantifier over a class takes the longest run of the class
    when the continuation accepts what follows it. *)
Lemma rep_class_greedy (p : ascii -> bool)
    (body : str -> captures -> @cont R -> option R)
    (Hnil : forall c k, body [] c k = None)
    (Hcons : forall a s c k, body (a :: s) c k = if p a then k s c else None) :
  forall (w rest : str) (c : captures) (k : @cont R) (fuel lo : nat)
         (hi : option nat) (x : R),
  forallb p w = true ->
  hi = Some (length w) \/
    match rest with [] => True | a :: _ => p a = false end ->
  (lo <= length w)%nat -> within hi (length w) -> (length w < fuel)%nat ->
  k rest c = Some x ->
  rep body fuel lo hi (w ++ rest) c k = Some x.
Proof.
  induction w as [|a w IH]; intros rest c k fuel lo hi x Hw Hend Hlo Hhi Hf Hk.
  - simpl in *. assert (lo = 0)%nat as -> by lia.
    destruct fuel as [|fuel]; [lia|]. cbn [rep]. simpl Nat.eqb. cbv iota.
    destruct (exhausted hi) eqn:E; [exact Hk|].
    destruct Hend as [->|Hend]; [discriminate E|].
    destruct rest as [|b rest]; [now rewrite Hnil|].
    now rewrite Hcons, Hend.
  - simpl in Hw. apply andb_true_iff in Hw. destruct Hw as [Ha Hw].
    destruct fuel as [|fuel]; [simpl in Hf; lia|].
    assert (E : exhausted hi = false).
    { destruct hi as [[|h]|]; simpl in *; [lia|reflexivity..]. }
    change ((a :: w) ++ rest) with (a :: w ++ rest).
    cbn [rep]. rewrite E, Hcons, Ha.
    replace (length (a :: w ++ rest) <=? length (w ++ rest))%nat with false
      by (symmetry; apply Nat.leb_gt; simpl; lia).
    rewrite andb_false_r.
    rewrite (IH rest c k fuel (pred lo) (dec hi) x); auto.
    + destruct Hend as [->|Hend]; [left; reflexivity | right; exact Hend].
    + simpl in Hlo. lia.
    + destruct hi as [h|]; simpl in *; [lia|exact I].
    + simpl in Hf. lia.
Qed.

Lemma exec_class_greedy p lo hi w rest c (k : @cont R) x :
  forallb p w = true ->
  hi = Some (length w) \/
    match rest with [] => True | a :: _ => p a = false end ->
  (lo <= length w)%nat -> within hi (length w) ->
  k rest c = Some x ->
  exec (Rep lo hi (Chr p)) (w ++ rest) c k = Some x.
Proof.
  intros Hw Hend Hlo Hhi Hk. cbn [exec].
  apply (rep_class_greedy p); auto. rewrite length_app. lia.
Qed.

Lemma exec_lit (ci : bool) : forall (cs : str) (c0 : ascii) (w rest : str) (c : captures) (k : @cont R),
  Forall2 (fun a b => (if ci then Char.eqb_ci a b else Ascii.eqb a b) = true)
    w (c0 :: cs) ->
  exec (lit ci c0 cs) (w ++ rest) c k = k rest c.
Proof.
  induction cs as [|c1 cs IH]; intros c0 w rest c k H.
  - inversion H as [|a b w' l' Hab Hw']; subst. inversion Hw'; subst.
    cbn [lit lit1 exec app]. now rewrite Hab.
  - inversion H as [|a b w' l' Hab Hw']; subst.
    cbn [lit exec app]. unfold lit1 at 1. cbn [exec]. rewrite Hab.
    now apply IH.
Qed.

(** A literal that does not start the input. *)
Lemma exec_lit_fails (ci : bool) (cs : str) (c0 : ascii) (s : str) (c : captures) (k : @cont R) :
  match s with
  | [] => True
  | a :: _ => (if ci then Char.eqb_ci a c0 else Ascii.eqb a c0) = false
  end ->
  exec (lit ci c0 cs) s c k = None.
Proof.
  intros H. destruct cs as [|c1 cs]; cbn [lit exec]; unfold lit1;
    cbn [exec]; destruct s as [|a s]; try reflexivity; now rewrite H.
Qed.

(** An optional fraction that is there. *)
Lemma exec_fraction_some (ci : bool) ds rest c (k : @cont R) x :
  ds <> [] -> forallb Char.is_digit ds = true ->
  match rest with [] => True | a :: _ => Char.is_digit a = false end ->
  k rest c = Some x ->
  exec (opt (Cat (lit1 ci ".") (plus (Chr Char.is_digit))))
    ("."%char :: ds ++ rest) c k = Some x.
Proof.
  intros Hne Hds Hrest Hk. unfold opt. cbn [exec rep]. simpl exhausted.
  cbv iota. unfold lit1. cbn [exec].
  replace (if ci then Char.eqb_ci "." "." else Ascii.eqb "." ".") with true
    by (destruct ci; reflexivity).
  cbv iota. unfold plus.
  rewrite (exec_class_greedy Char.is_digit 1 None ds rest c _ x); auto.
  - destruct ds; [congruence | simpl; lia].
  - exact I.
  - replace (length ("."%char :: ds ++ rest) <=? length rest)%nat with false
      by (symmetry; apply Nat.leb_gt; simpl; rewrite length_app; lia).
    simpl. destruct (0 + length ("."%char :: ds ++ rest))%nat; exact Hk.
Qed.

(** An optional fraction that is not there. *)
Lemma exec_fraction_none (ci : bool) s c (k : @cont R) :
  match s with [] => True | a :: _ => is_dot ci a = false end ->
  exec (opt (Cat (lit1 ci ".") (plus (Chr Char.is_digit)))) s c k = k s c.
Proof.
  intros H. unfold opt. cbn [exec rep]. simpl exhausted. cbv iota.
  unfold lit1. cbn [exec]. destruct s as [|a s]; [reflexivity|].
  unfold is_dot in H. now rewrite H.
Qed.

End Greedy.

End RegexExact.

Module ParserExact.
Import Regex RegexFacts RegexExact Grammar ParserFacts ParserComplete.

Lemma exec_Cat {R} r1 r2 s c (k : @cont R) :
  exec (Cat r1 r2) s c k = exec r1 s c (fun s1 c1 => exec r2 s1 c1 k).
Proof. reflexivity. Qed.

Lemma exec_Grp {R} n r s c (k : @cont R) :
  exec (Grp n r) s c k = exec r s c (fun s1 c1 => k s1 ((n, taken s s1) :: c1)).
Proof. reflexivity. Qed.

Lemma word_or_digit a : Char.is_word a || Char.is_digit a = Char.is_word a.
Proof.
  unfold Char.is_word.
  destruct (Char.is_upper a), (Char.is_lower a), (Char.is_digit a),
    (Char.code a =? 95)%nat; reflexivity.
Qed.

Lemma space_is_no_digit a : Char.is_space a = true -> Char.is_digit a = false.
Proof. destruct a as [[] [] [] [] [] [] [] []]; vm_compute; congruence. Qed.

Lemma space_is_no_dot a : Char.is_space a = true -> Char.eqb_ci a "." = false.
Proof. destruct a as [[] [] [] [] [] [] [] []]; vm_compute; congruence. Qed.

Lemma digit_is_no_space a : Char.is_digit a = true -> Char.is_space a = false.
Proof. destruct a as [[] [] [] [] [] [] [] []]; vm_compute; congruence. Qed.

Lemma word_is_no_space a : Char.is_word a = true -> Char.is_space a = false.
Proof. destruct a as [[] [] [] [] [] [] [] []]; vm_compute; congruence. Qed.

Lemma In_firstn {A} n (l : list A) a : In a (firstn n l) -> In a l.
Proof.
  intros H. rewrite <- (firstn_skipn n l). apply in_or_app. now left.
Qed.

(** How a word of a class starts. *)
Lemma all_head p w rest :
  w <> [] -> all p w ->
  match w ++ rest with [] => True | a :: _ => p a = true end.
Proof.
  intros Hne Hw. destruct w as [|a w]; [congruence|].
  unfold all in Hw. simpl in Hw. apply andb_true_iff in Hw. apply Hw.
Qed.

Lemma head_not (p q : ascii -> bool) (s : str) :
  (forall a, p a = true -> q a = false) ->
  match s with [] => True | a :: _ => p a = true end ->
  match s with [] => True | a :: _ => q a = false end.
Proof. intros H. destruct s; auto. Qed.

Lemma space_is_no_dot_cs a : Char.is_space a = true -> Ascii.eqb a "." = false.
Proof. destruct a as [[] [] [] [] [] [] [] []]; vm_compute; congruence. Qed.

(** On an input that starts with a command of the shape, the matcher
    passes what follows the command, and the groups, to its
    continuation. *)
Lemma exec_command_shape {R} (ci : bool) lo hi p (k : @cont R)
    kw ws1 amt ws2 tok post x :
  Forall2 (fun a b => (if ci then Char.eqb_ci a b else Ascii.eqb a b) = true)
    kw (list_ascii_of_string "/bounty") ->
  is_blank ws1 -> is_amount amt -> is_blank ws2 ->
  tok <> [] -> forallb p tok = true ->
  (forall a, p a = true -> Char.is_space a = false) ->
  (lo <= length tok)%nat -> within hi (length tok) ->
  hi = Some (length tok) \/
    match post with [] => True | a :: _ => p a = false end ->
  k post [(2, tok); (1, amt)] = Some x ->
  exec (command_shape ci lo hi p)
    (kw ++ ws1 ++ amt ++ ws2 ++ tok ++ post) [] k = Some x.
Proof.
  intros Hkw [Hn1 Hs1] (ip & fp & -> & Hip & Hipd & Hfp) [Hn2 Hs2]
         Hne Htok Hp Hlo Hhi Hend Hk.
  unfold command_shape.
  rewrite exec_Cat, (exec_lit ci) by exact Hkw.
  rewrite exec_Cat. unfold plus at 1.
  apply exec_class_greedy; [exact Hs1 | right | destruct ws1; [congruence | simpl; lia] | exact I |].
  { apply (head_not Char.is_digit); [apply digit_is_no_space|].
    rewrite <- app_assoc. now apply all_head. }
  rewrite exec_Cat, exec_Grp, exec_Cat. unfold plus at 1.
  rewrite <- !app_assoc.
  assert (Hws2 : match ws2 ++ tok ++ post with
                 | [] => True
                 | a :: _ => Char.is_space a = true
                 end) by now apply all_head.
  apply exec_class_greedy; [exact Hipd | right | destruct ip; [congruence | simpl; lia] | exact I |].
  { destruct Hfp as [->|(ds & -> & _)]; [|reflexivity].
    simpl. revert Hws2. apply head_not. apply space_is_no_digit. }
  assert (Hrest :
    exec (Cat (Rep 1 None (Chr Char.is_space)) (Grp 2 (Rep lo hi (Chr p))))
      (ws2 ++ tok ++ post) [(1, ip ++ fp)] k = Some x).
  { rewrite exec_Cat.
    apply exec_class_greedy; [exact Hs2 | right | destruct ws2; [congruence | simpl; lia] | exact I |].
    { apply (head_not p); [exact Hp|].
      destruct tok as [|a tok]; [congruence|]. simpl in *.
      now apply andb_true_iff in Htok. }
    rewrite exec_Grp.
    apply exec_class_greedy; auto.
    now rewrite taken_app. }
  assert (Htaken : taken (ip ++ fp ++ ws2 ++ tok ++ post) (ws2 ++ tok ++ post)
                   = ip ++ fp).
  { replace (ip ++ fp ++ ws2 ++ tok ++ post)
      with ((ip ++ fp) ++ ws2 ++ tok ++ post) by now rewrite <- app_assoc.
    apply taken_app. }
  destruct Hfp as [->|(ds & -> & Hds & Hdd)]; simpl app in *.
  - rewrite exec_fraction_none.
    + rewrite Htaken. exact Hrest.
    + revert Hws2. apply head_not. intros a Ha. unfold is_dot.
      destruct ci; [now apply space_is_no_dot | now apply space_is_no_dot_cs].
  - apply exec_fraction_some; [exact Hds | exact Hdd | |].
    + revert Hws2. apply head_not. apply space_is_no_digit.
    + rewrite Htaken. exact Hrest.
Qed.

(** The matcher on an input that starts with a command: the match is the
    command, group 1 is the amount and group 2 the address.  The address
    ends where the input does, at a character that is no word character,
    or after 44 characters. *)
Lemma match_here_command kw ws1 amt ws2 tok post :
  is_keyword kw -> is_blank ws1 -> is_amount amt -> is_blank ws2 ->
  is_address tok ->
  length tok = 44%nat \/
    match post with [] => True | a :: _ => Char.is_word a = false end ->
  match_here bounty_regex (kw ++ ws1 ++ amt ++ ws2 ++ tok ++ post)
  = Some (kw ++ ws1 ++ amt ++ ws2 ++ tok, [(2, tok); (1, amt)]).
Proof.
  intros Hkw H1 Ha H2 [Hlen Htok] Hend.
  unfold match_here.
  change bounty_regex
    with (command_shape true 32 (Some 44)
            (fun a => Char.is_word a || Char.is_digit a)).
  apply exec_command_shape; auto.
  - now apply keyword_ci_intro.
  - intros ->. simpl in Hlen. lia.
  - unfold all in Htok. rewrite forallb_forall in *. intros a Hin.
    rewrite word_or_digit. now apply Htok.
  - intros a Hw. rewrite word_or_digit in Hw. now apply word_is_no_space.
  - lia.
  - simpl. lia.
  - destruct Hend as [->|Hend]; [left; reflexivity|right].
    destruct post as [|a post]; [exact I|]. now rewrite word_or_digit.
  - f_equal. f_equal.
    replace (kw ++ ws1 ++ amt ++ ws2 ++ tok ++ post)
      with ((kw ++ ws1 ++ amt ++ ws2 ++ tok) ++ post)
      by now rewrite <- !app_assoc.
    apply taken_app.
Qed.

(** No match starts at a character that is not a slash. *)
Lemma match_here_no_slash a s :
  Ascii.eqb a "/" = false -> match_here bounty_regex (a :: s) = None.
Proof.
  intros H. unfold match_here, bounty_regex. rewrite exec_Cat.
  apply exec_lit_fails.
  revert H. destruct a as [[] [] [] [] [] [] [] []]; vm_compute; congruence.
Qed.

Lemma search_skips pre s :
  forallb (fun a => negb (Ascii.eqb a "/")) pre = true ->
  search bounty_regex (pre ++ s) = search bounty_regex s.
Proof.
  induction pre as [|a pre IH]; simpl; intros H; [reflexivity|].
  apply andb_true_iff in H. destruct H as [Ha H].
  apply negb_true_iff in Ha. rewrite (match_here_no_slash a _ Ha). auto.
Qed.

Lemma search_command pre kw ws1 amt ws2 tok post :
  forallb (fun a => negb (Ascii.eqb a "/")) pre = true ->
  is_keyword kw -> is_blank ws1 -> is_amount amt -> is_blank ws2 ->
  is_address tok ->
  length tok = 44%nat \/
    match post with [] => True | a :: _ => Char.is_word a = false end ->
  search bounty_regex (pre ++ kw ++ ws1 ++ amt ++ ws2 ++ tok ++ post)
  = Some (kw ++ ws1 ++ amt ++ ws2 ++ tok, [(2, tok); (1, amt)]).
Proof.
  intros Hpre Hkw H1 Ha H2 Ht Hend. rewrite (search_skips _ _ Hpre).
  destruct (kw ++ ws1 ++ amt ++ ws2 ++ tok ++ post) eqn:E;
    cbn [search]; rewrite <- E;
    now rewrite (match_here_command _ _ _ _ _ _ Hkw H1 Ha H2 Ht Hend).
Qed.

End ParserExact.

(** The parse of a comment in which a command stands. *)
Lemma command_is_parsed_exactly_aux cfg comment pre kw ws1 amt ws2 tok post :
  list_ascii_of_string (body comment)
  = pre ++ kw ++ ws1 ++ amt ++ ws2 ++ tok ++ post ->
  forallb (fun a => negb (Ascii.eqb a "/")) pre = true ->
  Grammar.is_keyword kw -> Grammar.is_blank ws1 -> Grammar.is_amount amt ->
  Grammar.is_blank ws2 -> Grammar.is_address tok ->
  length tok = 44%nat \/
    match post with [] => True | a :: _ => Char.is_word a = false end ->
  isAuthorized cfg (login (user comment)) = true ->
  parseBountyCommand cfg comment
  = Some {| amount := Number.parseFloat (string_of_list_ascii amt);
            tokenAddress := string_of_list_ascii tok;
            issueUrl := issue_url comment |}.
Proof.
  intros Hb Hpre Hkw H1 Ha H2 Ht Hend Hauth.
  unfold parseBountyCommand, Regex.match_.
  rewrite Hb, (ParserExact.search_command _ _ _ _ _ _ _ Hpre Hkw H1 Ha H2 Ht Hend).
  rewrite Hauth. reflexivity.
Qed.

(** ** The parser of the poll loop, on a command *)

Section ParserOnCommands.
Import Grammar.

(** X1.  A comment of an authorized user in which a command stands, after
    a text without a slash: the command is parsed to its amount, its
    address and the issue of the comment.  The address ends where the
    comment does, at a character that is no word character, or after 44
    characters; what follows it, another command included, is ignored. *)
Theorem command_is_parsed_exactly cfg comment pre kw ws1 amt ws2 tok post :
  list_ascii_of_string (body comment)
  = pre ++ kw ++ ws1 ++ amt ++ ws2 ++ tok ++ post ->
  forallb (fun a => negb (Ascii.eqb a "/")) pre = true ->
  is_keyword kw -> is_blank ws1 -> is_amount amt -> is_blank ws2 ->
  is_address tok ->
  length tok = 44%nat \/
    match post with [] => True | a :: _ => Char.is_word a = false end ->
  isAuthorized cfg (login (user comment)) = true ->
  parseBountyCommand cfg comment
  = Some {| amount := Number.parseFloat (string_of_list_ascii amt);
            tokenAddress := string_of_list_ascii tok;
            issueUrl := issue_url comment |}.
Proof.
  intros Hb Hpre Hkw H1 Ha H2 Ht Hend Hauth.
  now apply (command_is_parsed_exactly_aux cfg comment pre kw ws1 amt ws2 tok post).
Qed.

(** A comment of alice: a polite request, the keyword with a capital, two
    spaces, a fraction, and a comma after the address. *)
Lemma command_is_parsed_exactly_witness :
  parseBountyCommand Example.config
    (Example.comment 8
       ("please /Bounty  2.50 " +:+ Example.SOL +:+ ", thanks /bounty 9 x")
       "Alice")
  = Some {| amount := Number.parseFloat "2.50";
            tokenAddress := Example.SOL;
            issueUrl := Example.issue_12 |}.
Proof.
  apply (command_is_parsed_exactly Example.config
           (Example.comment 8
              ("please /Bounty  2.50 " +:+ Example.SOL
               +:+ ", thanks /bounty 9 x") "Alice")
           (list_ascii_of_string "please ")
           (list_ascii_of_string "/Bounty")
           (list_ascii_of_string "  ")
           (list_ascii_of_string "2.50")
           (list_ascii_of_string " ")
           (list_ascii_of_string Example.SOL)
           (list_ascii_of_string ", thanks /bounty 9 x")).
  - reflexivity.
  - reflexivity.
  - reflexivity.
  - split; [discriminate | reflexivity].
  - exists (list_ascii_of_string "2"), (list_ascii_of_string ".50").
    split; [reflexivity|]. split; [discriminate|]. split; [reflexivity|].
    right. exists (list_ascii_of_string "50").
    split; [reflexivity|]. split; [discriminate | reflexivity].
  - split; [discriminate | reflexivity].
  - split; [simpl; lia | reflexivity].
  - right. reflexivity.
  - reflexivity.
Defined.

(** X2.  An address of more than 44 word characters is not refused: the
    command is parsed with the first 44 characters as its address. *)
Theorem long_address_is_truncated cfg comment pre kw ws1 amt ws2 addr post :
  list_ascii_of_string (body comment)
  = pre ++ kw ++ ws1 ++ amt ++ ws2 ++ addr ++ post ->
  forallb (fun a => negb (Ascii.eqb a "/")) pre = true ->
  is_keyword kw -> is_blank ws1 -> is_amount amt -> is_blank ws2 ->
  all Char.is_word addr -> (44 < length addr)%nat ->
  isAuthorized cfg (login (user comment)) = true ->
  parseBountyCommand cfg comment
  = Some {| amount := Number.parseFloat (string_of_list_ascii amt);
            tokenAddress := string_of_list_ascii (firstn 44 addr);
            issueUrl := issue_url comment |}.
Proof.
  intros Hb Hpre Hkw H1 Ha H2 Hw Hlen Hauth.
  unfold parseBountyCommand, Regex.match_.
  rewrite <- (firstn_skipn 44 addr) in Hb. rewrite <- app_assoc in Hb.
  assert (Hl : length (firstn 44 addr) = 44%nat)
    by (rewrite length_firstn; lia).
  rewrite Hb, (ParserExact.search_command _ _ _ _ _ _ _ Hpre Hkw H1 Ha H2).
  - rewrite Hauth. reflexivity.
  - split; [lia|]. unfold all in *. rewrite forallb_forall in *.
    intros a Hin. apply Hw. eapply ParserExact.In_firstn; eauto.
  - left. exact Hl.
Qed.

(** Fifty characters after the amount. *)
Lemma long_address_witness :
  parseBountyCommand Example.config
    (Example.comment 9
       "/bounty 1 AAAAAAAAAABBBBBBBBBBCCCCCCCCCCDDDDDDDDDDEEEEEEEEEE" "bob")
  = Some {| amount := Number.parseFloat "1";
            tokenAddress := "AAAAAAAAAABBBBBBBBBBCCCCCCCCCCDDDDDDDDDDEEEE";
            issueUrl := Example.issue_12 |}.
Proof.
  apply (long_address_is_truncated Example.config
           (Example.comment 9
              "/bounty 1 AAAAAAAAAABBBBBBBBBBCCCCCCCCCCDDDDDDDDDDEEEEEEEEEE"
              "bob")
           []
           (list_ascii_of_string "/bounty")
           (list_ascii_of_string " ")
           (list_ascii_of_string "1")
           (list_ascii_of_string " ")
           (list_ascii_of_string
              "AAAAAAAAAABBBBBBBBBBCCCCCCCCCCDDDDDDDDDDEEEEEEEEEE")
           []).
  - reflexivity.
  - reflexivity.
  - reflexivity.
  - split; [discriminate | reflexivity].
  - exists (list_ascii_of_string "1"), [].
    split; [reflexivity|]. split; [discriminate|]. split; [reflexivity|].
    left. reflexivity.
  - split; [discriminate | reflexivity].
  - reflexivity.
  - simpl. lia.
  - reflexivity.
Defined.

(** X3.  A command that is parsed was written by an authorized user; its
    address is 32 to 44 word characters of the comment, its amount is read
    from the digits before the address, and its issue is the issue of the
    comment. *)
Theorem parsed_command_is_in_the_comment cfg comment command :
  parseBountyCommand cfg comment = Some command ->
  isAuthorized cfg (login (user comment)) = true /\
  issueUrl command = issue_url comment /\
  (32 <= String.length (tokenAddress command) <= 44)%nat /\
  all Char.is_word (list_ascii_of_string (tokenAddress command)) /\
  exists amt,
    is_amount amt /\
    amount command = Number.parseFloat (string_of_list_ascii amt) /\
    command_in (list_ascii_of_string (body comment)) amt
      (list_ascii_of_string (tokenAddress command)).
Proof.
  intros H. apply ParserFacts.parseBountyCommand_sound in H.
  destruct H as (Hauth & amt & tok & Hin & Ha & Ht & Hu).
  assert (Htok : list_ascii_of_string (tokenAddress command) = tok)
    by (rewrite Ht; apply list_ascii_of_string_of_list_ascii).
  pose proof Hin as (pre & kw & ws1 & ws2 & post & _ & _ & _ & Hamt & _ & Hlen & Hw).
  split; [exact Hauth|]. split; [exact Hu|].
  split.
  { rewrite Ht. clear -Hlen.
    assert (G : forall l, String.length (string_of_list_ascii l) = length l)
      by (induction l; simpl; congruence).
    rewrite G. exact Hlen. }
  split; [now rewrite Htok|].
  exists amt. split; [exact Hamt|]. split; [exact Ha|]. now rewrite Htok.
Qed.

Lemma parsed_command_witness :
  isAuthorized Example.config (login (user Example.valid_comment)) = true /\
  issueUrl Example.command = issue_url Example.valid_comment /\
  (32 <= String.length (tokenAddress Example.command) <= 44)%nat /\
  all Char.is_word (list_ascii_of_string (tokenAddress Example.command)) /\
  exists amt,
    is_amount amt /\
    amount Example.command = Number.parseFloat (string_of_list_ascii amt) /\
    command_in (list_ascii_of_string (body Example.valid_comment)) amt
      (list_ascii_of_string (tokenAddress Example.command)).
Proof.
  apply (parsed_command_is_in_the_comment Example.config Example.valid_comment).
  vm_compute. reflexivity.
Defined.

End ParserOnCommands.

(** ** The configuration *)

Module ConfigFacts.

Lemma list_ascii_of_string_app (a b : string) :
  list_ascii_of_string (a +:+ b)
  = list_ascii_of_string a ++ list_ascii_of_string b.
Proof. induction a as [|x a IH]; simpl; [reflexivity | now rewrite IH]. Qed.

Lemma string_of_list_ascii_inj (u v : str) :
  string_of_list_ascii u = string_of_list_ascii v -> u = v.
Proof.
  intros H. rewrite <- (list_ascii_of_string_of_list_ascii u),
    <- (list_ascii_of_string_of_list_ascii v). now rewrite H.
Qed.

Lemma split_chars_nonempty c s : split_chars c s <> [].
Proof.
  induction s as [|a s IH]; simpl; [discriminate|].
  destruct (Ascii.eqb a c); [discriminate|].
  destruct (split_chars c s); discriminate.
Qed.

(** Splitting at [c] a text in which a [c] stands: both sides are split. *)
Lemma split_chars_app c : forall u v,
  split_chars c (u ++ c :: v) = split_chars c u ++ split_chars c v.
Proof.
  induction u as [|a u IH]; intros v; simpl.
  - now rewrite Ascii.eqb_refl.
  - destruct (Ascii.eqb a c); [now rewrite IH|].
    rewrite IH. pose proof (split_chars_nonempty c u) as Hne.
    destruct (split_chars c u); [congruence | reflexivity].
Qed.

Lemma split_chars_free c : forall u,
  forallb (fun a => negb (Ascii.eqb a c)) u = true -> split_chars c u = [u].
Proof.
  induction u as [|a u IH]; simpl; intros H; [reflexivity|].
  apply andb_true_iff in H. destruct H as [Ha H].
  apply negb_true_iff in Ha. now rewrite Ha, (IH H).
Qed.

Lemma split_chars_parts c : forall s,
  Forall (fun w => forallb (fun a => negb (Ascii.eqb a c)) w = true)
    (split_chars c s).
Proof.
  induction s as [|a s IH]; simpl; [repeat constructor|].
  destruct (Ascii.eqb a c) eqn:E; [constructor; [reflexivity | exact IH]|].
  destruct (split_chars c s) as [|w ws]; [repeat constructor; simpl; now rewrite E|].
  inversion IH; subst. constructor; [|assumption]. simpl. now rewrite E.
Qed.

Lemma split_app c (u v : string) :
  split c (u +:+ String c v) = split c u ++ split c v.
Proof.
  unfold split. rewrite list_ascii_of_string_app. simpl.
  now rewrite split_chars_app, map_app.
Qed.

Lemma split_free c (u : string) : free_of c u -> split c u = [u].
Proof.
  intros H. unfold split. rewrite (split_chars_free _ _ H). simpl.
  now rewrite string_of_list_ascii_of_string.
Qed.

Lemma split_parts c (s : string) : Forall (free_of c) (split c s).
Proof.
  unfold split. apply List.Forall_forall. intros x Hx.
  apply in_map_iff in Hx. destruct Hx as (w & <- & Hw).
  pose proof (split_chars_parts c (list_ascii_of_string s)) as Hp.
  rewrite List.Forall_forall in Hp. unfold free_of.
  rewrite list_ascii_of_string_of_list_ascii. now apply Hp.
Qed.

Lemma truthy_true (s : string) : truthy s = true <-> s <> "".
Proof.
  unfold truthy. rewrite negb_true_iff. split.
  - intros H ->. discriminate.
  - intros H. destruct s; [congruence | reflexivity].
Qed.

Lemma env_list_app (u v : string) :
  env_list (u +:+ "," +:+ v) = env_list u ++ env_list v.
Proof.
  unfold env_list. change ("," +:+ v) with (String "," v).
  now rewrite split_app, List.filter_app.
Qed.

Lemma to_lower_empty (s : string) : to_lower s = "" -> s = "".
Proof. destruct s; [reflexivity | discriminate]. Qed.

End ConfigFacts.

Section Configuration.
Import ConfigFacts.

(** X4.  How a list of the environment is read: an entry is what stands
    between two commas, as it is written; an entry that is empty is
    dropped; no entry of the list is empty or has a comma. *)
Theorem env_list_reads_entries (entry value : string) :
  free_of "," entry ->
  env_list entry = (if truthy entry then [entry] else []) /\
  env_list (entry +:+ "," +:+ value)
  = (if truthy entry then [entry] else []) ++ env_list value /\
  Forall (fun e => e <> "" /\ free_of "," e) (env_list value).
Proof.
  intros H.
  assert (H1 : env_list entry = if truthy entry then [entry] else []).
  { unfold env_list. rewrite (split_free _ _ H). reflexivity. }
  split; [exact H1|]. split; [now rewrite env_list_app, H1|].
  unfold env_list. apply List.Forall_forall. intros e He.
  apply filter_In in He. destruct He as [He Ht]. split.
  - now apply truthy_true.
  - pose proof (split_parts "," value) as Hp.
    rewrite List.Forall_forall in Hp. now apply Hp.
Qed.

Lemma env_list_witness :
  env_list "octo/repo" = ["octo/repo"] /\
  env_list ("octo/repo" +:+ "," +:+ ",alice, bob,")
  = ["octo/repo"] ++ env_list ",alice, bob," /\
  Forall (fun e => e <> "" /\ free_of "," e) (env_list ",alice, bob,").
Proof.
  apply (env_list_reads_entries "octo/repo" ",alice, bob,"). reflexivity.
Defined.

(** X5.  A user is authorized exactly when the name, letter case apart,
    is an entry of [AUTHORIZED_USERS] that is not empty; the entries are
    compared as they are written, spaces included. *)
Theorem authorized_iff_listed (users repositories wallet name : string) :
  isAuthorized (load_config users repositories wallet) name = true <->
  exists u,
    In u (split "," users) /\ u <> "" /\ to_lower u = to_lower name.
Proof.
  unfold isAuthorized, load_config. cbn [AUTHORIZED_USERS].
  set (l := map (fun u => {| username := u |}) (env_list users)).
  assert (H : existsb (fun u => String.eqb (to_lower (username u)) (to_lower name)) l
              = true <->
              exists u, In u (split "," users) /\ u <> "" /\
                        to_lower u = to_lower name).
  { rewrite existsb_exists. split.
    - intros ([u] & Hin & Heq). apply in_map_iff in Hin.
      destruct Hin as (u' & [= <-] & Hin). unfold env_list in Hin.
      apply filter_In in Hin. destruct Hin as [Hin Ht].
      exists u'. split; [exact Hin|]. split; [now apply truthy_true|].
      now apply String.eqb_eq.
    - intros (u & Hin & Hne & Heq). exists {| username := u |}.
      split; [|now apply String.eqb_eq].
      apply in_map_iff. exists u. split; [reflexivity|].
      unfold env_list. apply filter_In. split; [exact Hin|].
      now apply truthy_true. }
  destruct l as [|x l'] eqn:E; [|exact H].
  split; [discriminate|]. intros Hex. apply H in Hex. discriminate.
Qed.

(** X6.  The module loads exactly when the three secrets are set to
    something and [REPOSITORIES] has an entry; [AUTHORIZED_USERS] is not
    asked for.  What is loaded has a repository, and no repository and no
    user that is empty; the first setting that is missing is the one the
    error names. *)
Theorem module_loads_iff (process_env : gmap string string) :
  ((exists cfg, load_module process_env = Returns cfg) <->
   env_var process_env "GITHUB_TOKEN" <> "" /\
   env_var process_env "WALLET_PRIVATE_KEY" <> "" /\
   env_var process_env "WALLET_PUBLIC_KEY" <> "" /\
   exists r, In r (split "," (env_var process_env "REPOSITORIES")) /\ r <> "") /\
  (forall cfg,
     load_module process_env = Returns cfg ->
     REPOSITORIES cfg <> [] /\
     Forall (fun r => r <> "") (REPOSITORIES cfg) /\
     Forall (fun u => username u <> "") (AUTHORIZED_USERS cfg) /\
     WALLET_PUBLIC_KEY cfg = env_var process_env "WALLET_PUBLIC_KEY") /\
  (forall e,
     load_module process_env = Throws e ->
     exists setting,
       message e = setting +:+ " is required" /\
       match setting with
       | "GITHUB_TOKEN" => env_var process_env "GITHUB_TOKEN" = ""
       | "WALLET_PRIVATE_KEY" =>
           env_var process_env "GITHUB_TOKEN" <> "" /\
           env_var process_env "WALLET_PRIVATE_KEY" = ""
       | "WALLET_PUBLIC_KEY" =>
           env_var process_env "GITHUB_TOKEN" <> "" /\
           env_var process_env "WALLET_PRIVATE_KEY" <> "" /\
           env_var process_env "WALLET_PUBLIC_KEY" = ""
       | _ =>
           setting = "REPOSITORIES" /\
           env_var process_env "GITHUB_TOKEN" <> "" /\
           env_var process_env "WALLET_PRIVATE_KEY" <> "" /\
           env_var process_env "WALLET_PUBLIC_KEY" <> "" /\
           env_list (env_var process_env "REPOSITORIES") = []
       end).
Proof.
  unfold load_module.
  set (token := env_var process_env "GITHUB_TOKEN").
  set (secret := env_var process_env "WALLET_PRIVATE_KEY").
  set (public := env_var process_env "WALLET_PUBLIC_KEY").
  set (repos := env_var process_env "REPOSITORIES").
  set (users := env_var process_env "AUTHORIZED_USERS").
  cbn [REPOSITORIES load_config].
  assert (Hrepos : (exists r, In r (split "," repos) /\ r <> "") <->
                   env_list repos <> []).
  { unfold env_list. split.
    - intros (r & Hin & Hne) E.
      assert (Hr : In r (List.filter truthy (split "," repos)))
        by (apply filter_In; split; [exact Hin | now apply truthy_true]).
      rewrite E in Hr. contradiction.
    - intros Hne. destruct (List.filter truthy (split "," repos)) as [|r l] eqn:E;
        [congruence|].
      assert (Hr : In r (List.filter truthy (split "," repos)))
        by (rewrite E; now left).
      apply filter_In in Hr. destruct Hr as [Hin Ht].
      exists r. split; [exact Hin | now apply truthy_true]. }
  assert (Hentries : forall v, Forall (fun r => r <> "") (env_list v)).
  { intros v. unfold env_list. apply List.Forall_forall. intros r Hr.
    apply filter_In in Hr. now apply truthy_true. }
  destruct (truthy token) eqn:Ht; cbn [negb];
    [destruct (truthy secret) eqn:Hs; cbn [negb];
     [destruct (truthy public) eqn:Hp; cbn [negb];
      [destruct (env_list repos) as [|r l] eqn:Hr; cbn [length Nat.eqb]|]|]|];
    try apply truthy_true in Ht; try apply truthy_true in Hs;
    try apply truthy_true in Hp;
    try (apply negb_false_iff, String.eqb_eq in Ht);
    try (apply negb_false_iff, String.eqb_eq in Hs);
    try (apply negb_false_iff, String.eqb_eq in Hp).
  - split; [|split].
    + split; [intros (cfg & H); discriminate|].
      intros (_ & _ & _ & H). apply Hrepos in H. congruence.
    + intros cfg H. discriminate.
    + intros e [= <-]. exists "REPOSITORIES". split; [reflexivity|].
      cbv iota. repeat split; auto.
  - split; [|split].
    + split; [intros _|eauto].
      split; [exact Ht|]. split; [exact Hs|]. split; [exact Hp|].
      apply Hrepos. discriminate.
    + intros cfg [= <-].
      cbn [REPOSITORIES AUTHORIZED_USERS WALLET_PUBLIC_KEY load_config].
      split; [rewrite Hr; discriminate|]. split; [apply Hentries|].
      split; [|reflexivity].
      apply List.Forall_forall. intros u Hu. apply in_map_iff in Hu.
      destruct Hu as (x & <- & Hx). cbn [username].
      specialize (Hentries users). rewrite List.Forall_forall in Hentries.
      now apply Hentries.
    + intros e H. discriminate.
  - split; [|split].
    + split; [intros (cfg & H); discriminate|]. intros (_ & _ & H & _). congruence.
    + intros cfg H. discriminate.
    + intros e [= <-]. exists "WALLET_PUBLIC_KEY". split; [reflexivity|].
      cbv iota. auto.
  - split; [|split].
    + split; [intros (cfg & H); discriminate|]. intros (_ & H & _). congruence.
    + intros cfg H. discriminate.
    + intros e [= <-]. exists "WALLET_PRIVATE_KEY". split; [reflexivity|].
      cbv iota. auto.
  - split; [|split].
    + split; [intros (cfg & H); discriminate|]. intros (H & _). congruence.
    + intros cfg H. discriminate.
    + intros e [= <-]. exists "GITHUB_TOKEN". split; [reflexivity|].
      cbv iota. auto.
Qed.

End Configuration.

(** ** Names of repositories *)

Module NameFacts.
Import ConfigFacts.

Lemma indexOf_app_none x : forall l1 l2,
  indexOf x l1 = None ->
  indexOf x (l1 ++ x :: l2) = Some (length l1).
Proof.
  induction l1 as [|y l1 IH]; simpl; intros l2 H.
  - now rewrite String.eqb_refl.
  - destruct (String.eqb y x); [discriminate|].
    destruct (indexOf x l1); [discriminate|]. now rewrite (IH l2).
Qed.

Lemma nth_error_after {A} (l1 l2 : list A) n :
  nth_error (l1 ++ l2) (length l1 + n) = nth_error l2 n.
Proof.
  induction l1 as [|a l1 IH]; simpl; [reflexivity | exact IH].
Qed.

End NameFacts.

Section Names.
Import ConfigFacts NameFacts.

(** X7.  The full name [owner/repo] is read as its owner and its
    repository; what follows a second slash is dropped, and a name without
    a slash has no repository. *)
Theorem full_name_is_split (owner repo rest : string) :
  free_of "/" owner -> free_of "/" repo ->
  parseRepoFullName (owner +:+ "/" +:+ repo) = (Some owner, Some repo) /\
  parseRepoFullName (owner +:+ "/" +:+ repo +:+ "/" +:+ rest)
  = (Some owner, Some repo) /\
  parseRepoFullName owner = (Some owner, None).
Proof.
  intros Ho Hr. unfold parseRepoFullName.
  change ("/" +:+ repo) with (String "/" repo).
  change ("/" +:+ repo +:+ "/" +:+ rest) with (String "/" (repo +:+ String "/" rest)).
  rewrite !split_app, (split_free _ _ Ho), (split_free _ _ Hr).
  repeat split.
Qed.

Lemma full_name_witness :
  parseRepoFullName ("octo" +:+ "/" +:+ "repo") = (Some "octo", Some "repo") /\
  parseRepoFullName ("octo" +:+ "/" +:+ "repo" +:+ "/" +:+ "issues/12")
  = (Some "octo", Some "repo") /\
  parseRepoFullName "octo" = (Some "octo", None).
Proof.
  apply (full_name_is_split "octo" "repo" "issues/12"); reflexivity.
Defined.

(** X8.  The URL of a repository in the API, [base/repos/owner/repo], is
    read as the full name [owner/repo] is, whatever the full name.  A URL
    without the segment [repos] is read from its start, as a full name:
    the owner is then what stands before the first slash. *)
Theorem repository_url_is_read_as_full_name (base fullName : string) :
  indexOf "repos" (split "/" base) = None ->
  getRepoInfoFromUrl (base +:+ "/repos/" +:+ fullName)
  = parseRepoFullName fullName /\
  getRepoInfoFromUrl base = parseRepoFullName base.
Proof.
  intros H. unfold getRepoInfoFromUrl, parseRepoFullName. split.
  - change ("/repos/" +:+ fullName)
      with (String "/" ("repos" +:+ String "/" fullName)).
    rewrite !split_app.
    change (split "/" "repos") with ["repos"].
    change (["repos"] ++ split "/" fullName) with ("repos" :: split "/" fullName).
    rewrite (indexOf_app_none _ _ _ H).
    change ("repos" :: split "/" fullName) with (["repos"] ++ split "/" fullName).
    rewrite app_assoc.
    replace (S (length (split "/" base)))
      with (length (split "/" base ++ ["repos"]) + 0)%nat
      by (rewrite length_app; simpl; lia).
    replace (S (length (split "/" base ++ ["repos"]) + 0))
      with (length (split "/" base ++ ["repos"]) + 1)%nat by lia.
    now rewrite !nth_error_after.
  - now rewrite H.
Qed.

Lemma repository_url_witness :
  getRepoInfoFromUrl ("https://api.github.com" +:+ "/repos/" +:+ "octo/repo")
  = parseRepoFullName "octo/repo" /\
  getRepoInfoFromUrl "https://api.github.com"
  = parseRepoFullName "https://api.github.com".
Proof.
  apply (repository_url_is_read_as_full_name "https://api.github.com" "octo/repo").
  reflexivity.
Defined.

End Names.

Section ReportBills.
Context (cfg : Config) (env : Env) (meter : Meter).

Lemma getIssueFromUrl_costs url :
  costs meter (call_cost meter GetIssue) (getIssueFromUrl env url).
Proof. unfold getIssueFromUrl. apply costs_call. Qed.

Lemma commentOnIssue_costs o r n b :
  costs meter (call_cost meter CreateComment) (commentOnIssue env o r n b).
Proof.
  eapply costs_weaken.
  - unfold commentOnIssue. repeat bill_step.
  - bill_check meter.
Qed.

Ltac bill :=
  repeat first
    [ apply checkTransactionStatus_costs
    | apply getIssueFromUrl_costs
    | apply commentOnIssue_costs
    | bill_step ].

Lemma report_created_costs command response signature :
  costs meter (report_created_bill meter)
    (report_created env command response signature).
Proof.
  eapply costs_weaken; [unfold report_created; bill | bill_check meter].
Qed.

Lemma recheck_costs command transactionSignature bountyResponse :
  costs meter
    (match meter with
     | Calls GetSignatureStatus | Calls GetIssue | Calls CreateComment => 1
     | _ => 0
     end)
    (recheck env command transactionSignature bountyResponse).
Proof.
  eapply costs_weaken; [unfold recheck; bill | bill_check meter].
Qed.

Lemma report_error_costs command transactionSignature bountyResponse error :
  costs meter (report_error_bill meter)
    (report_error env command transactionSignature bountyResponse error).
Proof.
  eapply costs_weaken.
  - unfold report_error. repeat first [apply recheck_costs | bill].
  - bill_check meter.
Qed.

Lemma processBountyCommand_costs command :
  costs meter (processBountyCommand_bill meter)
    (processBountyCommand cfg env command).
Proof.
  eapply costs_weaken.
  - unfold processBountyCommand.
    repeat first
      [ apply createBountyTransaction_costs
      | apply signAndSendTransaction_costs
      | apply report_created_costs
      | apply report_error_costs
      | bill_step ].
  - bill_check meter.
Qed.

End ReportBills.

(** ** The bounty module: what it spends, and its paths *)

Section Spending.
Context (cfg : Config) (env : Env).

(** X9.  Signing and sending sends at most one transaction, asks for at
    most one blockhash and one confirmation and at most four times for
    the status, waits at most eighty seconds in timers, and calls neither
    the code-hosting service nor the marketplace.  No counter goes
    back. *)
Theorem signAndSendTransaction_is_bounded serializedTransaction w :
  let w' := snd (signAndSendTransaction env serializedTransaction w) in
  (calls w SendTransaction <= calls w' SendTransaction
   <= 1 + calls w SendTransaction)%nat /\
  (calls w GetLatestBlockhash <= calls w' GetLatestBlockhash
   <= 1 + calls w GetLatestBlockhash)%nat /\
  (calls w ConfirmTransaction <= calls w' ConfirmTransaction
   <= 1 + calls w ConfirmTransaction)%nat /\
  (calls w GetSignatureStatus <= calls w' GetSignatureStatus
   <= 4 + calls w GetSignatureStatus)%nat /\
  (clock w <= clock w' <= clock w + 80000)%Z /\
  calls w' GetIssue = calls w GetIssue /\
  calls w' GetRepository = calls w GetRepository /\
  calls w' Fetch = calls w Fetch /\
  calls w' CreateComment = calls w CreateComment /\
  calls w' ListComments = calls w ListComments.
Proof.
  intros w'.
  pose proof (fun meter =>
                signAndSendTransaction_costs env meter serializedTransaction w)
    as H.
  fold w' in H.
  pose proof (H (Calls SendTransaction)). pose proof (H (Calls GetLatestBlockhash)).
  pose proof (H (Calls ConfirmTransaction)). pose proof (H (Calls GetSignatureStatus)).
  pose proof (H Timers). pose proof (H (Calls GetIssue)).
  pose proof (H (Calls GetRepository)). pose proof (H (Calls Fetch)).
  pose proof (H (Calls CreateComment)). pose proof (H (Calls ListComments)).
  clear H. cbn [reading signAndSendTransaction_bill] in *.
  repeat split; lia.
Qed.

(** X10.  Processing a command asks the marketplace at most once and
    sends at most one transaction; it waits at most eighty seconds in
    timers, asks at most three times for a comment to be created, four
    times for the issue and six times for the status, and does not list
    comments. *)
Theorem processBountyCommand_is_bounded command w :
  let w' := snd (processBountyCommand cfg env command w) in
  (calls w Fetch <= calls w' Fetch <= 1 + calls w Fetch)%nat /\
  (calls w SendTransaction <= calls w' SendTransaction
   <= 1 + calls w SendTransaction)%nat /\
  (clock w <= clock w' <= clock w + 80000)%Z /\
  (calls w CreateComment <= calls w' CreateComment
   <= 3 + calls w CreateComment)%nat /\
  (calls w GetIssue <= calls w' GetIssue <= 4 + calls w GetIssue)%nat /\
  (calls w GetRepository <= calls w' GetRepository
   <= 1 + calls w GetRepository)%nat /\
  (calls w GetSignatureStatus <= calls w' GetSignatureStatus
   <= 6 + calls w GetSignatureStatus)%nat /\
  calls w' ListComments = calls w ListComments.
Proof.
  intros w'.
  pose proof (fun meter => processBountyCommand_costs cfg env meter command w)
    as H.
  fold w' in H.
  pose proof (H (Calls Fetch)). pose proof (H (Calls SendTransaction)).
  pose proof (H Timers). pose proof (H (Calls CreateComment)).
  pose proof (H (Calls GetIssue)). pose proof (H (Calls GetRepository)).
  pose proof (H (Calls GetSignatureStatus)). pose proof (H (Calls ListComments)).
  clear H. cbn [reading processBountyCommand_bill] in *.
  repeat split; lia.
Qed.

End Spending.

Lemma wp_costs {A} meter n (m : M A) w (Q : outcome A -> World -> Prop) :
  costs meter n m ->
  (forall r w',
     (reading meter w <= reading meter w' <= reading meter w + n)%Z -> Q r w') ->
  wp m w Q.
Proof. intros Hm HQ. apply HQ. apply Hm. Qed.

Section Paths.
Context (cfg : Config) (env : Env).

(** X11.  A transaction that is submitted and whose confirmation
    succeeds: the signature is returned after one submission and one
    request for the confirmation, without a status query.  The timer of
    sixty seconds of the race is armed, and nothing clears it; the
    function does not wait for it, and spends no time waiting for a
    timer. *)
Theorem confirmed_transaction_is_returned w response signature :
  submitted env w response signature ->
  confirmation_succeeds env w signature ->
  wp (signAndSendTransaction env (serializedTransaction response)) w
    (fun r w' =>
       r = Returns signature /\
       calls w' SendTransaction = S (calls w SendTransaction) /\
       calls w' ConfirmTransaction = S (calls w ConfirmTransaction) /\
       calls w' GetSignatureStatus = calls w GetSignatureStatus /\
       timers w' = timers w ++ [60000%Z] /\
       clock w' = clock w /\
       console w'
       = console w ++ [LogPreparing; LogSent signature; LogConfirmed signature]).
Proof.
  intros (wallet & transaction & signed & H1 & H2 & H3 & H4)
         (latest & Hb & Hc).
  xrun. repeat split. now rewrite <- !app_assoc.
Qed.

(** X12.  A command for which every step succeeds, the lookup of the
    issue for the report, which is the second lookup of the run, and the
    request for the comment, which is the first one, included: one
    comment is created, on the issue that the second lookup answers and
    in the repository that the URL of the issue names; it says that the
    bounty was created, with the amount, the token and both links, and
    that the transaction is confirmed when the status query says so, that
    its confirmation is pending otherwise.  The marketplace was asked
    once and one transaction was sent; the timer of the race was armed,
    and the run waited for no timer. *)
Theorem confirmed_bounty_is_reported command w response signature issue :
  marketplace_answers cfg env w command response ->
  submitted env w response signature ->
  confirmation_succeeds env w signature ->
  octokit_getIssue env (S (calls w GetIssue)) (issueUrl command)
  = Returns issue ->
  octokit_createComment env (calls w CreateComment)
    (fst (getRepoInfoFromUrl (repository_url issue)))
    (snd (getRepoInfoFromUrl (repository_url issue)))
    (number issue)
    (created_body command response signature
       (if status_check env w 0 signature then NoteConfirmed else NotePending))
  = Returns tt ->
  wp (processBountyCommand cfg env command) w
    (fun r w' =>
       r = Returns tt /\
       comments w'
       = comments w ++
         [{| on_owner := fst (getRepoInfoFromUrl (repository_url issue));
             on_repo := snd (getRepoInfoFromUrl (repository_url issue));
             on_issue := number issue;
             comment_body :=
               created_body command response signature
                 (if status_check env w 0 signature
                  then NoteConfirmed else NotePending) |}] /\
       calls w' Fetch = S (calls w Fetch) /\
       calls w' SendTransaction = S (calls w SendTransaction) /\
       calls w' CreateComment = S (calls w CreateComment) /\
       timers w' = timers w ++ [60000%Z] /\
       clock w' = clock w).
Proof.
  intros (issueDetails & repository & r & Hi & Hr & Hf & Hok & Hjson)
         (wallet & transaction & signed & H1 & H2 & H3 & H4)
         (latest & Hb & Hc) Hi2 Hpost.
  unfold status_check in Hpost |- *. cbn [Nat.add] in Hpost |- *.
  destruct (getRepoInfoFromUrl (repository_url issue)) as [o2 r2] eqn:Hrepo.
  cbn [fst snd] in Hpost |- *. unfold created_body in Hpost.
  xpath. repeat split.
Qed.

(** X13.  When the key cannot be read, or the transaction cannot be
    decoded or signed, with an error that carries no signature: the error
    is thrown as it is, and nothing left the process: no call was made,
    and no timer was armed or waited for. *)
Theorem signing_failure_is_local serializedTransaction w e :
  signing_fails env serializedTransaction e ->
  without_signature e ->
  wp (signAndSendTransaction env serializedTransaction) w
    (fun r w' =>
       r = Throws e /\
       (forall a, calls w' a = calls w a) /\
       clock w' = clock w /\
       timers w' = timers w /\
       console w' = console w ++ [LogPreparing; LogErrorSigning e]).
Proof.
  intros Hf Hs. unfold without_signature in Hs.
  destruct (err_signature e) as [s|] eqn:He;
    destruct Hf as [H1|(wallet & H1 & [H2|(transaction & H2 & H3)])];
    xrun; repeat split; now rewrite <- !app_assoc.
Qed.

(** X14.  An error of signing or of the submission that carries a
    signature: the signature is returned, and the transaction is taken as
    sent, without a confirmation or a status query; no timer is armed or
    waited for. *)
Theorem signature_of_an_error_is_returned w response e s :
  submission_fails env w response e ->
  err_signature e = Some s -> truthy s = true ->
  wp (signAndSendTransaction env (serializedTransaction response)) w
    (fun r w' =>
       r = Returns s /\
       calls w' GetLatestBlockhash = calls w GetLatestBlockhash /\
       calls w' ConfirmTransaction = calls w ConfirmTransaction /\
       calls w' GetSignatureStatus = calls w GetSignatureStatus /\
       clock w' = clock w /\
       timers w' = timers w).
Proof.
  intros Hf He Hs.
  destruct Hf as [H1|(wallet & H1 & [H2|(transaction & H2 &
                   [H3|(signed & H3 & H4)])])];
    xrun; repeat split.
Qed.

(** X15.  The marketplace step fails: the error is logged once and
    thrown as it is; the marketplace was asked exactly when the issue and
    the repository were both found. *)
Theorem marketplace_failure_is_rethrown command w e :
  marketplace_fails cfg env w command e ->
  wp (createBountyTransaction cfg env command) w
    (fun r w' =>
       r = Throws e /\
       console w' = console w ++ [LogErrorCreating e] /\
       (calls w' Fetch = calls w Fetch <-> lookup_fails env w command e) /\
       (calls w' Fetch = S (calls w Fetch) <-> ~ lookup_fails env w command e)).
Proof.
  intros Hf.
  assert (HL : (lookup_fails env w command e /\
                (octokit_getIssue env (calls w GetIssue) (issueUrl command)
                 = Throws e \/
                 exists issueDetails,
                   octokit_getIssue env (calls w GetIssue) (issueUrl command)
                   = Returns issueDetails /\
                   octokit_getRepository env (calls w GetRepository)
                     (repository_url issueDetails) = Throws e)) \/
               (~ lookup_fails env w command e /\
                exists issueDetails repository,
                  octokit_getIssue env (calls w GetIssue) (issueUrl command)
                  = Returns issueDetails /\
                  octokit_getRepository env (calls w GetRepository)
                    (repository_url issueDetails) = Returns repository /\
                  marketplace_fails cfg env w command e)).
  { pose proof Hf as Hf'.
    destruct Hf as [Hi|(issueDetails & Hi & [Hr|(repository & Hr & _)])].
    - left. split; [left; exact Hi | left; exact Hi].
    - left. split; right; exists issueDetails; auto.
    - right. split; [|eauto].
      intros [H|(i' & H & H')]; [congruence|].
      rewrite Hi in H. injection H as <-. congruence. }
  remember (lookup_fails env w command e) as LF eqn:ELF. clear ELF.
  destruct HL as [[HL [Hi|(issueDetails & Hi & Hr)]]|
                  (HL & issueDetails & repository & Hi & Hr & Hm)].
  - xrun. repeat split; intros; try lia; tauto.
  - xrun. repeat split; intros; try lia; tauto.
  - destruct Hm as [Hi'|(i' & Hi' & Hm)]; [congruence|].
    rewrite Hi in Hi'. injection Hi' as <-.
    destruct Hm as [Hr'|(r' & Hr' & Hm)]; [congruence|].
    rewrite Hr in Hr'. injection Hr' as <-.
    clear Hf.
    destruct Hm as [Hf|(r & Hf & [[Hok Hj]|[[Hok Ht]|(Hok & errorText & Ht & ->)]])];
      xrun; repeat split; intros; try lia; tauto.
Qed.

(** X16.  No transaction is sent for a command whose marketplace step
    fails, or whose transaction cannot be signed. *)
Theorem nothing_is_sent_unless_signed command w e :
  marketplace_fails cfg env w command e \/
  (exists response,
     marketplace_answers cfg env w command response /\
     signing_fails env (serializedTransaction response) e) ->
  calls (snd (processBountyCommand cfg env command w)) SendTransaction
  = calls w SendTransaction.
Proof.
  intros H.
  change (wp (processBountyCommand cfg env command) w
            (fun _ w' => calls w' SendTransaction = calls w SendTransaction)).
  assert (Herr : forall s b err w1,
             calls w1 SendTransaction = calls w SendTransaction ->
             wp (report_error env command s b err) w1
               (fun _ w' => calls w' SendTransaction = calls w SendTransaction)).
  { intros s b err w1 Hw1.
    apply (wp_costs (Calls SendTransaction) _ _ _ _
             (report_error_costs env _ command s b err)).
    cbn [reading report_error_bill]. intros _ w'. lia. }
  assert (Hrep : forall s b w1,
             calls w1 SendTransaction = calls w SendTransaction ->
             wp (try_catch (report_created env command b s)
                   (report_error env command (Some s) (Some b))) w1
               (fun _ w' => calls w' SendTransaction = calls w SendTransaction)).
  { intros s b w1 Hw1.
    apply (wp_costs (Calls SendTransaction) _ _ _ _
             (costs_try_catch _ _ _ _ _
                (report_created_costs env _ command b s)
                (fun err => report_error_costs env _ command (Some s) (Some b) err))).
    cbn [reading report_created_bill report_error_bill]. intros _ w'. lia. }
  destruct H as [Hf|(response & (issueDetails & repository & r & Hi & Hr & Hf &
                     Hok & Hjson) & Hs)].
  - destruct Hf as [Hi|(issueDetails & Hi & [Hr|(repository & Hr & [Hf|(r & Hf &
                     [[Hok Hj]|[[Hok Ht]|(Hok & errorText & Ht & ->)]])])])];
      xrun; apply Herr; reflexivity.
  - destruct (err_signature e) as [s|] eqn:He;
      [destruct (truthy s) eqn:Ht|];
      destruct Hs as [H1|(wallet & H1 & [H2|(transaction & H2 & H3)])];
      xrun_to_report; first [apply Herr | apply Hrep]; reflexivity.
Qed.

End Paths.

(** The scenarios of the paths. *)

Lemma example_marketplace_answers lookup wallet settled status listing w :
  (forall n, lookup n = Returns Example.issue) ->
  marketplace_answers Example.config
    (Example.env lookup wallet settled status listing) w
    Example.command Example.response.
Proof.
  intros H. exists Example.issue, Example.repository,
    {| ok := true; statusText := "OK"; text := Returns "";
       json := Returns Example.response |}.
  cbn. rewrite H. repeat split.
Defined.

Lemma confirmed_transaction_witness :
  wp (signAndSendTransaction (Example.all_well [])
        (serializedTransaction Example.response)) initial_world
    (fun r w' =>
       r = Returns "SIG" /\
       calls w' SendTransaction = S (calls initial_world SendTransaction) /\
       calls w' ConfirmTransaction = S (calls initial_world ConfirmTransaction) /\
       calls w' GetSignatureStatus = calls initial_world GetSignatureStatus /\
       timers w' = timers initial_world ++ [60000%Z] /\
       clock w' = clock initial_world /\
       console w'
       = console initial_world ++ [LogPreparing; LogSent "SIG"; LogConfirmed "SIG"]).
Proof.
  apply (confirmed_transaction_is_returned (Example.all_well []) initial_world
           Example.response "SIG").
  - exists "KEY", "AQID", "AQID". repeat split.
  - exists {| blockhash := "H"; lastValidBlockHeight := 100 |}. split; reflexivity.
Defined.

Lemma confirmed_bounty_witness :
  wp (processBountyCommand Example.config (Example.all_well []) Example.command)
    initial_world
    (fun r w' =>
       r = Returns tt /\
       comments w'
       = comments initial_world ++
         [{| on_owner := fst (getRepoInfoFromUrl (repository_url Example.issue));
             on_repo := snd (getRepoInfoFromUrl (repository_url Example.issue));
             on_issue := number Example.issue;
             comment_body :=
               created_body Example.command Example.response "SIG"
                 (if status_check (Example.all_well []) initial_world 0 "SIG"
                  then NoteConfirmed else NotePending) |}] /\
       calls w' Fetch = S (calls initial_world Fetch) /\
       calls w' SendTransaction = S (calls initial_world SendTransaction) /\
       calls w' CreateComment = S (calls initial_world CreateComment) /\
       timers w' = timers initial_world ++ [60000%Z] /\
       clock w' = clock initial_world).
Proof.
  apply (confirmed_bounty_is_reported Example.config (Example.all_well [])
           Example.command initial_world Example.response "SIG" Example.issue).
  - apply example_marketplace_answers. reflexivity.
  - exists "KEY", "AQID", "AQID". repeat split.
  - exists {| blockhash := "H"; lastValidBlockHeight := 100 |}. split; reflexivity.
  - reflexivity.
  - reflexivity.
Defined.

Lemma signing_failure_witness :
  wp (signAndSendTransaction Example.bad_key "AQID") initial_world
    (fun r w' =>
       r = Throws (new_Error "Non-base58 character") /\
       (forall a, calls w' a = calls initial_world a) /\
       clock w' = clock initial_world /\
       timers w' = timers initial_world /\
       console w'
       = console initial_world ++
         [LogPreparing; LogErrorSigning (new_Error "Non-base58 character")]).
Proof.
  apply (signing_failure_is_local Example.bad_key "AQID" initial_world
           (new_Error "Non-base58 character")).
  - left. reflexivity.
  - exact I.
Defined.

Lemma signature_of_an_error_witness :
  wp (signAndSendTransaction Scenario.send_refused
        (serializedTransaction Example.response)) initial_world
    (fun r w' =>
       r = Returns "SIG2" /\
       calls w' GetLatestBlockhash = calls initial_world GetLatestBlockhash /\
       calls w' ConfirmTransaction = calls initial_world ConfirmTransaction /\
       calls w' GetSignatureStatus = calls initial_world GetSignatureStatus /\
       clock w' = clock initial_world /\
       timers w' = timers initial_world).
Proof.
  apply (signature_of_an_error_is_returned Scenario.send_refused initial_world
           Example.response Scenario.send_error "SIG2").
  - right. exists "KEY". split; [reflexivity|].
    right. exists "AQID". split; [reflexivity|].
    right. exists "AQID". split; reflexivity.
  - reflexivity.
  - reflexivity.
Defined.

Lemma marketplace_failure_witness :
  wp (createBountyTransaction Example.config Scenario.marketplace_refuses
        Example.command) initial_world
    (fun r w' =>
       r = Throws (new_Error ("Failed to create bounty: " +:+ "Bad Request"
                              +:+ ". Details: " +:+ "amount too small")) /\
       console w'
       = console initial_world ++
         [LogErrorCreating
            (new_Error ("Failed to create bounty: " +:+ "Bad Request"
                        +:+ ". Details: " +:+ "amount too small"))] /\
       (calls w' Fetch = calls initial_world Fetch <->
        lookup_fails Scenario.marketplace_refuses initial_world Example.command
          (new_Error ("Failed to create bounty: " +:+ "Bad Request"
                      +:+ ". Details: " +:+ "amount too small"))) /\
       (calls w' Fetch = S (calls initial_world Fetch) <->
        ~ lookup_fails Scenario.marketplace_refuses initial_world
            Example.command
            (new_Error ("Failed to create bounty: " +:+ "Bad Request"
                        +:+ ". Details: " +:+ "amount too small")))).
Proof.
  apply (marketplace_failure_is_rethrown Example.config
           Scenario.marketplace_refuses Example.command initial_world).
  right. exists Example.issue. split; [reflexivity|].
  right. exists Example.repository. split; [reflexivity|].
  right. exists Scenario.refused. split; [reflexivity|].
  right. right. split; [reflexivity|].
  exists "amount too small". split; reflexivity.
Defined.

Lemma nothing_is_sent_witness :
  calls (snd (processBountyCommand Example.config Example.bad_key
                Example.command initial_world)) SendTransaction
  = calls initial_world SendTransaction.
Proof.
  apply (nothing_is_sent_unless_signed Example.config Example.bad_key
           Example.command initial_world (new_Error "Non-base58 character")).
  right. exists Example.response. split.
  - apply example_marketplace_answers. reflexivity.
  - left. reflexivity.
Defined.

(** ** Where the comments go *)

Module Placing.

Section Places.
Context (P : IssueComment -> Prop).

Lemma places_silent {A} (m : M A) : silent m -> places P m.
Proof. intros H w. exists []. split; [apply (H w) | constructor]. Qed.

Lemma places_ret {A} (a : A) : places P (ret a).
Proof. apply places_silent, silent_ret. Qed.

Lemma places_log l : places P (log l).
Proof. intros w. exists []. split; [simpl; now rewrite app_nil_r | constructor]. Qed.

Lemma places_post c : P c -> places P (post c).
Proof. intros H w. exists [c]. split; [reflexivity | repeat constructor; exact H]. Qed.

Lemma places_bind {A B} (m : M A) (k : A -> M B) :
  places P m -> (forall a, places P (k a)) -> places P (bind m k).
Proof.
  intros Hm Hk w. destruct (Hm w) as (cs1 & H1 & F1). unfold bind.
  destruct (m w) as [[a|e] w1]; cbn [snd] in *; [|eauto].
  destruct (Hk a w1) as (cs2 & H2 & F2). exists (cs1 ++ cs2).
  split; [now rewrite H2, H1, app_assoc | now apply Forall_app].
Qed.

Lemma places_try_catch {A} (m : M A) (h : JsError -> M A) :
  places P m -> (forall e, places P (h e)) -> places P (try_catch m h).
Proof.
  intros Hm Hh w. destruct (Hm w) as (cs1 & H1 & F1). unfold try_catch.
  destruct (m w) as [[a|e] w1]; cbn [snd] in *; [eauto|].
  destruct (Hh e w1) as (cs2 & H2 & F2). exists (cs1 ++ cs2).
  split; [now rewrite H2, H1, app_assoc | now apply Forall_app].
Qed.

Lemma places_attempt {A} (m : M A) : places P m -> places P (attempt m).
Proof.
  intros Hm w. specialize (Hm w). unfold attempt.
  destruct (m w) as [r w1]. exact Hm.
Qed.

(** What follows a call knows its answer. *)
Lemma places_call_bind {A B} a (answer : nat -> outcome A) (k : A -> M B) :
  (forall n x, answer n = Returns x -> places P (k x)) ->
  places P (bind (call a answer) k).
Proof.
  intros Hk w. unfold bind, call.
  destruct (answer (calls w a)) as [x|e] eqn:E; cbn [snd].
  - destruct (Hk _ _ E (bump a w)) as (cs & H & F). exists cs. split; [exact H|exact F].
  - exists []. split; [simpl; now rewrite app_nil_r | constructor].
Qed.

End Places.

Section Reports.
Context (cfg : Config) (env : Env) (command : BountyCommand).

Lemma places_commentOnIssue n issue o r b :
  octokit_getIssue env n (issueUrl command) = Returns issue ->
  getRepoInfoFromUrl (repository_url issue) = (o, r) ->
  places (on_issue_of env (issueUrl command))
    (commentOnIssue env o r (number issue) b).
Proof.
  intros Hi Hr. unfold commentOnIssue.
  apply places_bind; [apply places_silent, silent_call|]. intros _.
  apply places_post. exists n, issue. cbn. auto.
Qed.

Lemma places_report_created response signature :
  places (on_issue_of env (issueUrl command))
    (report_created env command response signature).
Proof.
  unfold report_created, getIssueFromUrl.
  apply places_bind; [apply places_log|]. intros _.
  apply places_call_bind. intros n issue Hi.
  destruct (getRepoInfoFromUrl (repository_url issue)) as [o r] eqn:Hr.
  apply places_bind; [apply places_silent, silent_checkTransactionStatus|].
  intros isConfirmed. cbv zeta.
  apply places_bind; [now apply (places_commentOnIssue n)|]. intros _.
  apply places_log.
Qed.

Lemma places_recheck transactionSignature bountyResponse :
  places (on_issue_of env (issueUrl command))
    (recheck env command transactionSignature bountyResponse).
Proof.
  unfold recheck, getIssueFromUrl.
  destruct transactionSignature as [signature|]; [|apply places_ret].
  destruct bountyResponse as [response|]; [|apply places_ret].
  destruct (truthy signature); [|apply places_ret].
  apply places_try_catch.
  - apply places_bind; [apply places_silent, silent_checkTransactionStatus|].
    intros [|]; [|apply places_ret].
    apply places_bind; [apply places_log|]. intros _.
    apply places_call_bind. intros n issue Hi.
    destruct (getRepoInfoFromUrl (repository_url issue)) as [o r] eqn:Hr.
    apply places_bind; [now apply (places_commentOnIssue n)|]. intros _.
    apply places_ret.
  - intros e. apply places_bind; [apply places_log | intros _; apply places_ret].
Qed.

Lemma places_report_error transactionSignature bountyResponse error :
  places (on_issue_of env (issueUrl command))
    (report_error env command transactionSignature bountyResponse error).
Proof.
  unfold report_error, getIssueFromUrl.
  apply places_bind; [apply places_log|]. intros _.
  apply places_bind; [apply places_recheck|]. intros [|]; [apply places_ret|].
  apply places_try_catch; [|intros e; apply places_log].
  apply places_call_bind. intros n issue Hi.
  destruct (getRepoInfoFromUrl (repository_url issue)) as [o r] eqn:Hr.
  now apply (places_commentOnIssue n).
Qed.

Lemma places_processBountyCommand :
  places (on_issue_of env (issueUrl command))
    (processBountyCommand cfg env command).
Proof.
  unfold processBountyCommand.
  apply places_bind; [apply places_log|]. intros _.
  apply places_bind;
    [apply places_attempt, places_silent, silent_createBountyTransaction|].
  intros [bountyResponse|error]; [|apply places_report_error].
  apply places_bind;
    [apply places_attempt, places_silent, silent_signAndSendTransaction|].
  intros [transactionSignature|error]; [|apply places_report_error].
  apply places_try_catch; [apply places_report_created|].
  intros e. apply places_report_error.
Qed.

End Reports.

End Placing.

(** X17.  Every comment that processing a command creates is on an issue
    that a lookup of the URL of the command has answered, in the
    repository that the URL of that issue names; the comments that were
    there are left. *)
Theorem comments_are_on_the_issue cfg env command w :
  exists cs,
    comments (snd (processBountyCommand cfg env command w)) = comments w ++ cs /\
    Forall (on_issue_of env (issueUrl command)) cs.
Proof. apply Placing.places_processBountyCommand. Qed.

(** ** The poll loop: what a poll does *)

Section Polls.
Context (cfg : Config) (env : Env).

Lemma idle_refl w : idle w w.
Proof. repeat split. Qed.

Lemma idle_trans w1 w2 w3 : idle w1 w2 -> idle w2 w3 -> idle w1 w3.
Proof.
  intros (A1 & A2 & A3 & A4 & A5) (B1 & B2 & B3 & B4 & B5).
  repeat split; try congruence. intros a Ha. rewrite (B5 a Ha). now apply A5.
Qed.

(** What the poll of a repository comes to: the comments are listed, and
    the ones that are listed are checked in their order. *)
Lemma check_repository_listing repoFullName w :
  check_repository cfg env repoFullName w
  = let (o, r) := parseRepoFullName repoFullName in
    let w1 := bump ListComments (logged (LogChecking o r) w) in
    match octokit_listCommentsForRepo env (calls w ListComments) o r with
    | Returns listing =>
        try_catch (for_each (check_comment cfg env) listing)
          (fun error => log (LogErrorRepo repoFullName error))
          (logged (LogFound (length listing)) w1)
    | Throws e =>
        (Returns tt, logged (LogFound 0) (logged (LogErrorComments o r e) w1))
    end.
Proof.
  unfold check_repository, getRecentComments.
  destruct (parseRepoFullName repoFullName) as [o r].
  unfold try_catch, bind, call, log, ret. cbn [calls logged].
  destruct (octokit_listCommentsForRepo env (calls w ListComments) o r)
    as [listing|e]; reflexivity.
Qed.

Lemma for_each_returns listing w :
  fst (for_each (check_comment cfg env) listing w) = Returns tt.
Proof.
  pose proof (check_comments_spec cfg env listing w) as H. apply H.
Qed.

Lemma try_for_each listing repoFullName w :
  try_catch (for_each (check_comment cfg env) listing)
    (fun error => log (LogErrorRepo repoFullName error)) w
  = for_each (check_comment cfg env) listing w.
Proof.
  unfold try_catch. pose proof (for_each_returns listing w) as H.
  destruct (for_each (check_comment cfg env) listing w) as [[[]|e] w1];
    [reflexivity | discriminate H].
Qed.

Lemma check_comment_costs meter comment :
  costs meter (processBountyCommand_bill meter) (check_comment cfg env comment).
Proof.
  eapply costs_weaken.
  - unfold check_comment.
    repeat first [apply processBountyCommand_costs | bill_step].
  - destruct meter as [[]|]; apply Z.leb_le; vm_compute; reflexivity.
Qed.

Lemma listing_untouched listing w :
  calls (snd (for_each (check_comment cfg env) listing w)) ListComments
  = calls w ListComments.
Proof.
  pose proof (costs_for_each (Calls ListComments) (check_comment cfg env)
                (check_comment_costs (Calls ListComments)) listing w) as H.
  cbn [reading] in H. lia.
Qed.

Lemma check_repository_lists_once repoFullName w :
  fst (check_repository cfg env repoFullName w) = Returns tt /\
  calls (snd (check_repository cfg env repoFullName w)) ListComments
  = S (calls w ListComments).
Proof.
  rewrite check_repository_listing.
  destruct (parseRepoFullName repoFullName) as [o r]. cbv zeta.
  destruct (octokit_listCommentsForRepo env (calls w ListComments) o r)
    as [listing|e].
  - rewrite try_for_each. split; [apply for_each_returns|].
    now rewrite listing_untouched.
  - split; reflexivity.
Qed.

Lemma idle_check_comment comment w :
  parseBountyCommand cfg comment = None ->
  idle w (snd (check_comment cfg env comment w)).
Proof.
  intros H. destruct (decide (id comment ∈ processedComments w)) as [Hin|Hin].
  - rewrite (check_comment_seen _ _ _ _ Hin). apply idle_refl.
  - rewrite (check_comment_fresh _ _ _ _ Hin), H. repeat split.
Qed.

Lemma idle_for_each : forall listing w,
  (forall comment, In comment listing -> parseBountyCommand cfg comment = None) ->
  idle w (snd (for_each (check_comment cfg env) listing w)).
Proof.
  induction listing as [|c l IH]; intros w H; cbn [for_each]; [apply idle_refl|].
  unfold bind. pose proof (idle_check_comment c w (H c (or_introl eq_refl))) as Hc.
  destruct (check_comment cfg env c w) as [[[]|e] w1]; cbn [snd] in *; [|exact Hc].
  eapply idle_trans; [exact Hc|]. apply IH. intros c' Hc'. apply H. now right.
Qed.

Lemma idle_logged l w : is_invocation l = false -> idle w (logged l w).
Proof.
  intros H. repeat split. rewrite invocations_log, H. lia.
Qed.

Lemma idle_listed w : idle w (bump ListComments w).
Proof.
  repeat split. intros a Ha. cbn [calls bump].
  destruct a; try reflexivity. congruence.
Qed.

Lemma idle_check_repository repoFullName w :
  (forall listing comment,
     octokit_listCommentsForRepo env (calls w ListComments)
       (fst (parseRepoFullName repoFullName))
       (snd (parseRepoFullName repoFullName)) = Returns listing ->
     In comment listing -> parseBountyCommand cfg comment = None) ->
  idle w (snd (check_repository cfg env repoFullName w)).
Proof.
  intros H. rewrite check_repository_listing.
  destruct (parseRepoFullName repoFullName) as [o r]. cbn [fst snd] in H.
  cbv zeta.
  destruct (octokit_listCommentsForRepo env (calls w ListComments) o r)
    as [listing|e] eqn:E.
  - rewrite try_for_each.
    eapply idle_trans; [|apply idle_for_each; intros c Hc; eapply H; eauto].
    eapply idle_trans; [|apply idle_logged; reflexivity].
    eapply idle_trans; [|apply idle_listed].
    apply idle_logged. reflexivity.
  - cbn [snd].
    eapply idle_trans; [|apply idle_logged; reflexivity].
    eapply idle_trans; [|apply idle_logged; reflexivity].
    eapply idle_trans; [|apply idle_listed].
    apply idle_logged. reflexivity.
Qed.

(** The repositories are polled in their order, each with the next
    listing. *)
Lemma idle_poll : forall repositories w,
  (forall k repoFullName listing comment,
     nth_error repositories k = Some repoFullName ->
     octokit_listCommentsForRepo env (k + calls w ListComments)
       (fst (parseRepoFullName repoFullName))
       (snd (parseRepoFullName repoFullName)) = Returns listing ->
     In comment listing -> parseBountyCommand cfg comment = None) ->
  fst (for_each (check_repository cfg env) repositories w) = Returns tt /\
  idle w (snd (for_each (check_repository cfg env) repositories w)).
Proof.
  induction repositories as [|r l IH]; intros w H; cbn [for_each].
  - split; [reflexivity | apply idle_refl].
  - unfold bind.
    pose proof (idle_check_repository r w
                  (fun listing comment => H 0%nat r listing comment eq_refl))
      as Hi.
    destruct (check_repository_lists_once r w) as [E Hc].
    destruct (check_repository cfg env r w) as [res w1]. cbn [fst snd] in *.
    subst res.
    destruct (IH w1) as [E2 Hi2].
    { intros k repoFullName listing comment Hk Hl.
      apply (H (S k) repoFullName listing comment Hk).
      rewrite <- Hl, Hc. f_equal. lia. }
    split; [exact E2|]. eapply idle_trans; eauto.
Qed.

(** X18.  A poll none of whose listings holds a comment that is parsed
    to a command lists the comments of the repositories and does nothing
    else outside the process: it creates no comment, does not invoke the
    pipeline, arms no timer, waits for none, and calls nothing but the
    listing.  The listings are those of this poll: the answer to the
    listing number [k + calls w ListComments] for the repository number
    [k] of the configuration. *)
Theorem poll_without_command_is_idle w :
  no_command_listed cfg env w ->
  wp (checkForBountyCommands cfg env) w
    (fun r w' =>
       r = Returns tt /\
       comments w' = comments w /\
       invocations w' = invocations w /\
       clock w' = clock w /\
       timers w' = timers w /\
       forall a, a <> ListComments -> calls w' a = calls w a).
Proof.
  intros H. unfold wp, checkForBountyCommands.
  destruct (idle_poll (REPOSITORIES cfg) w H) as [E Hi]. split; [exact E|].
  exact Hi.
Qed.

(** X19.  With no authorized user in the configuration, no comment is a
    command: whatever is listed, a poll creates no comment, does not
    invoke the pipeline and calls nothing but the listing. *)
Theorem nobody_authorized_nothing_done w :
  AUTHORIZED_USERS cfg = [] ->
  (forall comment, parseBountyCommand cfg comment = None) /\
  wp (checkForBountyCommands cfg env) w
    (fun r w' =>
       r = Returns tt /\
       comments w' = comments w /\
       invocations w' = invocations w /\
       clock w' = clock w /\
       forall a, a <> ListComments -> calls w' a = calls w a).
Proof.
  intros H.
  assert (Hnone : forall comment, parseBountyCommand cfg comment = None).
  { intros comment. apply unauthorized_is_null. now apply isAuthorized_empty. }
  split; [exact Hnone|].
  unfold wp, checkForBountyCommands.
  destruct (idle_poll (REPOSITORIES cfg) w) as [E (A & B & C & _ & D)].
  - intros k r l c _ _ _. apply Hnone.
  - repeat split; assumption.
Qed.

End Polls.

Section Listings.
Context (cfg : Config) (env : Env).

(** X20.  A poll asks once for the comments of every repository of the
    configuration, whatever the answers and whatever the commands do: one
    repository that fails does not keep the others from being polled. *)
Theorem every_repository_is_listed_once w :
  wp (checkForBountyCommands cfg env) w
    (fun r w' =>
       r = Returns tt /\
       calls w' ListComments
       = (length (REPOSITORIES cfg) + calls w ListComments)%nat).
Proof.
  unfold wp, checkForBountyCommands. revert w.
  induction (REPOSITORIES cfg) as [|r l IH]; intros w; cbn [for_each].
  - split; reflexivity.
  - unfold bind. destruct (check_repository_lists_once cfg env r w) as [E Hc].
    destruct (check_repository cfg env r w) as [res w1]. cbn [fst snd] in *.
    subst res. destruct (IH w1) as [E1 Hc1]. split; [exact E1|].
    rewrite Hc1, Hc. simpl. lia.
Qed.

(** X21.  When the comments of a repository cannot be listed, the error
    is logged and the repository is polled as one without a comment:
    nothing is put in the registry, no comment is created, and the poll
    goes on. *)
Theorem unlisted_repository_is_skipped repoFullName w e :
  octokit_listCommentsForRepo env (calls w ListComments)
    (fst (parseRepoFullName repoFullName))
    (snd (parseRepoFullName repoFullName)) = Throws e ->
  wp (check_repository cfg env repoFullName) w
    (fun r w' =>
       r = Returns tt /\
       processedComments w' = processedComments w /\
       comments w' = comments w /\
       invocations w' = invocations w /\
       console w'
       = console w ++
         [LogChecking (fst (parseRepoFullName repoFullName))
            (snd (parseRepoFullName repoFullName));
          LogErrorComments (fst (parseRepoFullName repoFullName))
            (snd (parseRepoFullName repoFullName)) e;
          LogFound 0]).
Proof.
  intros H. unfold wp. rewrite check_repository_listing.
  destruct (parseRepoFullName repoFullName) as [o r]. cbn [fst snd] in *.
  cbv zeta. rewrite H. cbn [fst snd].
  split; [reflexivity|]. split; [reflexivity|]. split; [reflexivity|].
  split.
  - unfold invocations. cbn [console logged bump].
    rewrite !List.filter_app, !length_app. simpl. lia.
  - cbn [console logged bump]. now rewrite <- !app_assoc.
Qed.

(** X22.  The registry is never emptied: the cleanup logs two lines,
    says that it kept every identifier, and changes nothing else; and
    after the first check and any scheduled tasks, every identifier that
    was in the registry is still there. *)
Theorem registry_is_never_emptied (jobs : list Job) w :
  wp (cleanupProcessedComments) w
    (fun r w' =>
       r = Returns tt /\
       processedComments w' = processedComments w /\
       comments w' = comments w /\
       (forall a, calls w' a = calls w a) /\
       console w'
       = console w ++
         [LogCleaning;
          LogCleanupComplete (size (processedComments w))
            (size (processedComments w))]) /\
  processedComments w ⊆ processedComments (snd (bot cfg env jobs w)).
Proof.
  split.
  - unfold wp, cleanupProcessedComments, bind, log. cbn [fst snd].
    repeat split. cbn [console logged]. now rewrite <- !app_assoc.
  - unfold bot.
    apply (keeps_bind (checkForBountyCommands cfg env)
             (fun _ => for_each (run_job cfg env) jobs)).
    + apply keeps_checkForBountyCommands.
    + intros _. apply keeps_for_each. apply keeps_run_job.
Qed.

End Listings.

(** The scenarios of the polls. *)

Lemma poll_without_command_witness :
  wp (checkForBountyCommands Example.config
        (Example.all_well [Example.plain_comment])) initial_world
    (fun r w' =>
       r = Returns tt /\
       comments w' = comments initial_world /\
       invocations w' = invocations initial_world /\
       clock w' = clock initial_world /\
       timers w' = timers initial_world /\
       forall a, a <> ListComments -> calls w' a = calls initial_world a).
Proof.
  apply (poll_without_command_is_idle Example.config
           (Example.all_well [Example.plain_comment]) initial_world).
  intros k repoFullName listing comment _ [= <-] [<-|[]]. reflexivity.
Defined.

Lemma nobody_authorized_witness :
  (forall comment,
     parseBountyCommand (load_config "" "octo/repo" "WALLET") comment = None) /\
  wp (checkForBountyCommands (load_config "" "octo/repo" "WALLET")
        (Example.all_well [Example.valid_comment])) initial_world
    (fun r w' =>
       r = Returns tt /\
       comments w' = comments initial_world /\
       invocations w' = invocations initial_world /\
       clock w' = clock initial_world /\
       forall a, a <> ListComments -> calls w' a = calls initial_world a).
Proof.
  apply (nobody_authorized_nothing_done (load_config "" "octo/repo" "WALLET")
           (Example.all_well [Example.valid_comment]) initial_world).
  reflexivity.
Defined.

Lemma unlisted_repository_witness :
  wp (check_repository Example.config Scenario.unlisted "octo/repo")
    initial_world
    (fun r w' =>
       r = Returns tt /\
       processedComments w' = processedComments initial_world /\
       comments w' = comments initial_world /\
       invocations w' = invocations initial_world /\
       console w'
       = console initial_world ++
         [LogChecking (fst (parseRepoFullName "octo/repo"))
            (snd (parseRepoFullName "octo/repo"));
          LogErrorComments (fst (parseRepoFullName "octo/repo"))
            (snd (parseRepoFullName "octo/repo")) (new_Error "Not Found");
          LogFound 0]).
Proof.
  apply (unlisted_repository_is_skipped Example.config Scenario.unlisted
           "octo/repo" initial_world (new_Error "Not Found")).
  reflexivity.
Defined.

(** ** The server for web hooks *)

Module WebhookFacts.
Import Regex RegexFacts RegexExact Grammar ParserFacts ParserComplete ParserExact.

(** A match between the anchors is a match of the whole input. *)
Lemma match_whole_sound r s c :
  Webhook.match_whole r s = Some c -> sem r (list_ascii_of_string s) [] c.
Proof.
  unfold Webhook.match_whole. intros H.
  apply (exec_sound r) in H. destruct H as (w & s1 & c1 & Hs & Hsem & Hk).
  destruct s1 as [|a s1]; [|discriminate]. injection Hk as <-.
  rewrite Hs, app_nil_r. exact Hsem.
Qed.

Lemma exact_keyword w :
  Forall2 (fun a b => Ascii.eqb a b = true) w (list_ascii_of_string "/bounty") ->
  w = list_ascii_of_string "/bounty".
Proof.
  generalize (list_ascii_of_string "/bounty"). intros l H.
  induction H as [|a b w' l' Hab H IH]; [reflexivity|].
  apply Ascii.eqb_eq in Hab. congruence.
Qed.

Lemma keyword_exact :
  Forall2 (fun a b => Ascii.eqb a b = true)
    (list_ascii_of_string "/bounty") (list_ascii_of_string "/bounty").
Proof. simpl. repeat constructor. Qed.

(** What a match of the regular expression of the server is made of. *)
Lemma sem_command_regex m c :
  sem Webhook.command_regex m [] c ->
  exists amt addr, Webhook.is_command m amt addr /\ c = [(2, addr); (1, amt)].
Proof.
  unfold Webhook.command_regex. cbn [sem].
  intros (kw & m1 & c1 & -> & Hkw & ws1 & m2 & c2 & -> & Hws1 &
          amt & m3 & c3 & -> & (c4 & (ip & fp & c5 & -> & Hip & Hfp) & ->) &
          ws2 & tok & c6 & -> & Hws2 & c7 & Htok & ->).
  apply (sem_lit false) in Hkw. destruct Hkw as (-> & Hkw).
  apply exact_keyword in Hkw. subst kw.
  apply sem_plus in Hws1. destruct Hws1 as (-> & Hws1).
  apply sem_plus in Hip. destruct Hip as (-> & Hip1 & Hip2).
  apply sem_plus in Hws2. destruct Hws2 as (-> & Hws2).
  apply sem_plus in Htok. destruct Htok as (-> & Htok1 & Htok2).
  assert (Hc4 : c4 = [] /\
                (fp = [] \/ exists ds, fp = "."%char :: ds /\ ds <> [] /\
                                       all Char.is_digit ds)).
  { apply sem_opt in Hfp. destruct Hfp as [[-> ->]|Hfp]; [auto|].
    cbn [sem] in Hfp.
    destruct Hfp as (d & ds & c8 & -> & Hd & Hds).
    apply sem_lit1 in Hd. destruct Hd as (-> & a & -> & Hd).
    apply sem_plus in Hds. destruct Hds as (-> & Hds).
    split; [reflexivity|]. right. exists ds.
    apply Ascii.eqb_eq in Hd. subst a.
    split; [reflexivity|exact Hds]. }
  destruct Hc4 as (-> & Hfp').
  exists (ip ++ fp), tok. split; [|reflexivity].
  exists ws1, ws2. split; [reflexivity|].
  split; [exact Hws1|]. split; [exists ip, fp; auto|]. split; [exact Hws2|].
  split; assumption.
Qed.

Lemma alnum_is_no_space a : Char.is_alnum a = true -> Char.is_space a = false.
Proof. destruct a as [[] [] [] [] [] [] [] []]; vm_compute; congruence. Qed.

Lemma alnum_is_word a : Char.is_alnum a = true -> Char.is_word a = true.
Proof. unfold Char.is_word, Char.is_alnum. intros ->. reflexivity. Qed.

(** The matcher of the server on a command. *)
Lemma match_whole_command s amt addr :
  Webhook.is_command (list_ascii_of_string s) amt addr ->
  Webhook.match_whole Webhook.command_regex s = Some [(2, addr); (1, amt)].
Proof.
  intros (ws1 & ws2 & Hs & H1 & Ha & H2 & Hne & Haddr).
  unfold Webhook.match_whole. rewrite Hs.
  rewrite <- (app_nil_r addr) at 1.
  change Webhook.command_regex with (command_shape false 1 None Char.is_alnum).
  apply exec_command_shape; auto.
  - apply keyword_exact.
  - apply alnum_is_no_space.
  - destruct addr; [congruence | simpl; lia].
  - exact I.
Qed.

Lemma parseCommand_of_groups s amt addr :
  Webhook.match_whole Webhook.command_regex s = Some [(2, addr); (1, amt)] ->
  Webhook.parseCommand s
  = Some {| Webhook.amount := Number.parseFloat (string_of_list_ascii amt);
            Webhook.mintAddress := string_of_list_ascii addr |}.
Proof. intros H. unfold Webhook.parseCommand. now rewrite H. Qed.

Lemma parseCommand_sound s command :
  Webhook.parseCommand s = Some command ->
  exists amt addr,
    Webhook.is_command (list_ascii_of_string s) amt addr /\
    command
    = {| Webhook.amount := Number.parseFloat (string_of_list_ascii amt);
         Webhook.mintAddress := string_of_list_ascii addr |}.
Proof.
  unfold Webhook.parseCommand.
  destruct (Webhook.match_whole Webhook.command_regex s) as [groups|] eqn:E;
    [|discriminate].
  intros [= <-]. apply match_whole_sound, sem_command_regex in E.
  destruct E as (amt & addr & Hc & ->). exists amt, addr.
  split; [exact Hc | reflexivity].
Qed.

(** *** White space at the ends *)

Lemma dropWhile_split p : forall s,
  exists lead, s = lead ++ Number.dropWhile p s /\ forallb p lead = true.
Proof.
  induction s as [|a s (lead & Hs & Hl)]; simpl.
  - exists []. auto.
  - destruct (p a) eqn:E.
    + exists (a :: lead). split; [simpl; congruence | simpl; now rewrite E].
    + exists []. auto.
Qed.

Lemma forallb_rev {A} (p : A -> bool) l :
  forallb p l = true -> forallb p (rev l) = true.
Proof.
  rewrite !forallb_forall. intros H x Hx. apply H. now apply in_rev.
Qed.

(** What [trim] takes away is white space. *)
Lemma trim_split s :
  exists lead trail,
    list_ascii_of_string s
    = lead ++ list_ascii_of_string (Webhook.trim s) ++ trail /\
    forallb Char.is_space lead = true /\ forallb Char.is_space trail = true.
Proof.
  unfold Webhook.trim. rewrite list_ascii_of_string_of_list_ascii.
  destruct (dropWhile_split Char.is_space (list_ascii_of_string s))
    as (lead & Hs & Hl).
  set (t := Number.dropWhile Char.is_space (list_ascii_of_string s)) in *.
  destruct (dropWhile_split Char.is_space (rev t)) as (trail & Ht & Htl).
  exists lead, (rev trail). split; [|split; [exact Hl | now apply forallb_rev]].
  rewrite Hs at 1. f_equal.
  rewrite <- (rev_involutive t) at 1. rewrite Ht at 1. now rewrite rev_app_distr.
Qed.

End WebhookFacts.

Section WebhookParser.
Import Grammar WebhookFacts.

(** X23.  The server takes a comment for a command exactly when the whole
    of it is the keyword [/bounty] as it is written, white space, an
    amount, white space, and letters and digits to the end of the comment;
    the command has the value of the amount and these letters and
    digits. *)
Theorem parseCommand_iff (s : string) (command : Webhook.Command) :
  Webhook.parseCommand s = Some command <->
  exists amt addr,
    Webhook.is_command (list_ascii_of_string s) amt addr /\
    command
    = {| Webhook.amount := Number.parseFloat (string_of_list_ascii amt);
         Webhook.mintAddress := string_of_list_ascii addr |}.
Proof.
  split.
  - apply parseCommand_sound.
  - intros (amt & addr & Hc & ->).
    apply parseCommand_of_groups. now apply match_whole_command.
Qed.

(** X24.  A comment that the server takes for a command, with an address
    of 32 to 44 characters, is parsed by the poll loop to the same amount
    and the same address, when its author is authorized there. *)
Theorem parsers_agree cfg (comment : GitHubComment) (command : Webhook.Command) :
  Webhook.parseCommand (Webhook.trim (body comment)) = Some command ->
  (32 <= String.length (Webhook.mintAddress command) <= 44)%nat ->
  isAuthorized cfg (login (user comment)) = true ->
  parseBountyCommand cfg comment
  = Some {| amount := Webhook.amount command;
            tokenAddress := Webhook.mintAddress command;
            issueUrl := issue_url comment |}.
Proof.
  intros Hp Hlen Hauth. apply parseCommand_sound in Hp.
  destruct Hp as (amt & addr & (ws1 & ws2 & Hs & H1 & Ha & H2 & Hne & Haddr) & ->).
  cbn [Webhook.amount Webhook.mintAddress] in *.
  destruct (trim_split (body comment)) as (lead & trail & Hb & Hl & Ht).
  rewrite Hs in Hb.
  apply (command_is_parsed_exactly_aux cfg comment lead
           (list_ascii_of_string "/bounty") ws1 amt ws2 addr trail).
  - rewrite Hb. now rewrite <- !app_assoc.
  - rewrite forallb_forall in *. intros a Hin. specialize (Hl a Hin).
    revert Hl. destruct a as [[] [] [] [] [] [] [] []]; vm_compute; congruence.
  - reflexivity.
  - exact H1.
  - exact Ha.
  - exact H2.
  - split.
    + assert (G : forall l, String.length (string_of_list_ascii l) = length l)
        by (induction l; simpl; congruence).
      now rewrite G in Hlen.
    + unfold all in *. rewrite forallb_forall in *. intros a Hin.
      apply alnum_is_word. now apply Haddr.
  - right. destruct trail as [|a trail]; [exact I|].
    simpl in Ht. apply andb_true_iff in Ht. destruct Ht as [Ht _].
    revert Ht. destruct a as [[] [] [] [] [] [] [] []]; vm_compute; congruence.
  - exact Hauth.
Qed.

End WebhookParser.

Module HandlerFacts.
Import Webhook.

Lemma or_else_nonempty a b : b <> "" -> or_else a b <> "".
Proof.
  intros Hb. unfold or_else. destruct (truthy a) eqn:E; [|exact Hb].
  now apply ConfigFacts.truthy_true.
Qed.

Lemma language_nonempty r : language_of r <> "".
Proof.
  destruct r as [[|first l]|e]; simpl; try discriminate.
  apply or_else_nonempty. discriminate.
Qed.

Lemma content_nonempty key env payload command :
  content (task_of key env payload command) <> "".
Proof.
  cbn [content task_of]. destruct (issue_body (issue payload)) as [b|];
    [apply or_else_nonempty|]; discriminate.
Qed.

(** The handler on a command, by what the collaborators answer. *)
Lemma handler_on_command key env payload command :
  parseCommand (trim (body (comment payload))) = Some command ->
  on_issue_comment_created key env payload
  = let author := login (user (comment payload)) in
    let permission := permission_of env payload in
    let asked :=
      Called (GetPermission (login (owner (repository payload)))
                (name (repository payload)) author) ::
      match permission with
      | Returns _ => []
      | Throws e => [ConsoleError "Error checking user authorization:" e]
      end in
    if negb (may_write permission) then
      (asked ++ [Called (comment_call payload (NotAuthorized author))],
       comment_answer env payload (NotAuthorized author))
    else
      let languages :=
        listLanguages env (login (owner (repository payload)))
          (name (repository payload)) in
      let listed :=
        Called (ListLanguages (login (owner (repository payload)))
                  (name (repository payload))) ::
        match languages with
        | Returns _ => []
        | Throws e => [ConsoleError "Error getting repository language:" e]
        end in
      let request := task_of key env payload command in
      let failed e :=
        [ConsoleError "Error processing bounty:" e;
         Called (comment_call payload (ErrorCreating (message e)))] in
      match axios_post env request with
      | Throws e =>
          (asked ++ listed ++
           [Called (PostTask request); ConsoleError "Error creating bounty:" e]
           ++ failed e,
           comment_answer env payload (ErrorCreating (message e)))
      | Returns response =>
          match partialSign env (serializedTransaction response) with
          | Throws e =>
              (asked ++ listed ++
               [Called (PostTask request);
                ConsoleError "Error signing transaction:" e] ++ failed e,
               comment_answer env payload (ErrorCreating (message e)))
          | Returns _ =>
              let created :=
                BountyCreated (taskId response) (amount command)
                  (mintAddress command) in
              match comment_answer env payload created with
              | Returns tt =>
                  (asked ++ listed ++
                   [Called (PostTask request);
                    Called (comment_call payload created)],
                   Returns tt)
              | Throws e =>
                  (asked ++ listed ++
                   [Called (PostTask request);
                    Called (comment_call payload created)] ++ failed e,
                   comment_answer env payload (ErrorCreating (message e)))
              end
          end
      end.
Proof.
  intros Hp. unfold on_issue_comment_created. rewrite Hp. cbv zeta.
  unfold isAuthorizedUser, permission_of, comment_answer, comment_call,
    getRepoLanguage, createBounty, signTransaction, task_of, language_of.
  destruct (getCollaboratorPermissionLevel env _ _ _) as [p|e0];
    cbn [bind try_catch call ret console_error throw app may_write existsb negb];
    [rewrite orb_false_r; destruct (String.eqb p "write" || String.eqb p "admin")|];
    cbn [negb app]; try reflexivity.
  destruct (listLanguages env _ _) as [[|first l]|e1];
    cbn [bind try_catch call ret console_error throw app];
    (destruct (axios_post env _) as [response|e2];
     cbn [bind try_catch call ret console_error throw app];
     [destruct (partialSign env _) as [signed|e3];
      cbn [bind try_catch call ret console_error throw app];
      [destruct (createComment env _ _ _ (BountyCreated _ _ _)) as [[]|e4];
       cbn [bind try_catch call ret console_error throw app]|]|]);
    try reflexivity;
    destruct (createComment env _ _ _ (ErrorCreating _)); reflexivity.
Qed.

End HandlerFacts.

Section HandlerProperties.
Import Webhook HandlerFacts.
Context (WALLET_PUBLIC_KEY : string) (env : Webhook.Env).

(** X25.  A comment that, its white space at both ends apart, is not a
    command as a whole: the handler returns, and has called nothing and
    logged nothing. *)
Theorem comment_that_is_no_command_is_ignored payload :
  (forall amt addr,
     ~ is_command
         (list_ascii_of_string (trim (body (comment payload)))) amt addr) ->
  on_issue_comment_created WALLET_PUBLIC_KEY env payload = ([], Returns tt).
Proof.
  intros H. unfold on_issue_comment_created.
  destruct (parseCommand (trim (body (comment payload)))) as [command|] eqn:E;
    [|reflexivity].
  apply WebhookFacts.parseCommand_sound in E.
  destruct E as (amt & addr & Hc & _). now apply H in Hc.
Qed.

(** X26.  A command of an author who has no permission to write, or
    whose permission cannot be read: the permission is asked once, the
    author is told in one comment on the issue of the event, and no task
    is requested; the handler ends as the creation of the comment does. *)
Theorem author_without_permission_is_told payload command :
  parseCommand (trim (body (comment payload))) = Some command ->
  may_write (permission_of env payload) = false ->
  calls_of (fst (on_issue_comment_created WALLET_PUBLIC_KEY env payload))
  = [GetPermission (login (owner (repository payload)))
       (name (repository payload)) (login (user (comment payload)));
     comment_call payload (NotAuthorized (login (user (comment payload))))] /\
  snd (on_issue_comment_created WALLET_PUBLIC_KEY env payload)
  = comment_answer env payload
      (NotAuthorized (login (user (comment payload)))).
Proof.
  intros Hp Hw. rewrite (handler_on_command _ _ _ _ Hp). cbv zeta.
  rewrite Hw. cbn [negb fst snd].
  destruct (permission_of env payload); split; reflexivity.
Qed.

(** X27.  A command of an author who may write, when the marketplace
    answers, the transaction is signed and the comment is created: the
    permission and the languages are asked, one task is requested, with
    the amount and the address of the command, and one comment says that
    the bounty is created, with the identifier that the marketplace gave;
    the handler returns. *)
Theorem permitted_command_creates_a_task payload command response signed :
  parseCommand (trim (body (comment payload))) = Some command ->
  may_write (permission_of env payload) = true ->
  axios_post env (task_of WALLET_PUBLIC_KEY env payload command)
  = Returns response ->
  partialSign env (serializedTransaction response) = Returns signed ->
  comment_answer env payload
    (BountyCreated (taskId response) (amount command) (mintAddress command))
  = Returns tt ->
  calls_of (fst (on_issue_comment_created WALLET_PUBLIC_KEY env payload))
  = [GetPermission (login (owner (repository payload)))
       (name (repository payload)) (login (user (comment payload)));
     ListLanguages (login (owner (repository payload)))
       (name (repository payload));
     PostTask (task_of WALLET_PUBLIC_KEY env payload command);
     comment_call payload
       (BountyCreated (taskId response) (amount command)
          (mintAddress command))] /\
  snd (on_issue_comment_created WALLET_PUBLIC_KEY env payload) = Returns tt.
Proof.
  intros Hp Hw Hpost Hsign Hc. rewrite (handler_on_command _ _ _ _ Hp).
  cbv zeta. rewrite Hw, Hpost, Hsign, Hc. cbn [negb fst snd].
  destruct (permission_of env payload);
    destruct (listLanguages env _ _); split; reflexivity.
Qed.

(** X28.  Whatever the collaborators answer, the handler of a command
    asks for the permission once; it requests at most one task, and none
    for an author who may not write; what it requests has the amount and
    the address of the command, a content and a language that are not
    empty, and the wallet of the configuration as payer; it asks for one
    comment, or for two when the first is refused, on the issue of the
    event; and it throws only what the creation of its last comment
    throws. *)
Theorem handler_is_careful payload command :
  parseCommand (trim (body (comment payload))) = Some command ->
  let run := on_issue_comment_created WALLET_PUBLIC_KEY env payload in
  List.filter is_permission (calls_of (fst run))
  = [GetPermission (login (owner (repository payload)))
       (name (repository payload)) (login (user (comment payload)))] /\
  (length (List.filter is_task (calls_of (fst run))) <= 1)%nat /\
  (may_write (permission_of env payload) = false ->
   List.filter is_task (calls_of (fst run)) = []) /\
  (forall request,
     In (PostTask request) (calls_of (fst run)) ->
     request = task_of WALLET_PUBLIC_KEY env payload command /\
     token request = Build_Token (mintAddress command) (amount command) /\
     content request <> "" /\
     (exists language, tags request = [language] /\ language <> "") /\
     payer request = WALLET_PUBLIC_KEY) /\
  (1 <= length (List.filter is_comment (calls_of (fst run))) <= 2)%nat /\
  (forall c,
     In c (calls_of (fst run)) -> is_comment c = true ->
     exists b, c = comment_call payload b) /\
  (forall e,
     snd run = Throws e ->
     exists b,
       last (calls_of (fst run)) = Some (comment_call payload b) /\
       comment_answer env payload b = Throws e).
Proof.
  intros Hp run. unfold run. rewrite (handler_on_command _ _ _ _ Hp).
  cbv zeta.
  assert (Hreq : forall request,
            request = task_of WALLET_PUBLIC_KEY env payload command ->
            request = task_of WALLET_PUBLIC_KEY env payload command /\
            token request = Build_Token (mintAddress command) (amount command) /\
            content request <> "" /\
            (exists language, tags request = [language] /\ language <> "") /\
            payer request = WALLET_PUBLIC_KEY).
  { intros request ->. split; [reflexivity|]. split; [reflexivity|].
    split; [apply content_nonempty|]. split; [|reflexivity].
    eexists. split; [reflexivity|]. apply language_nonempty. }
  unfold comment_call in *.
  destruct (permission_of env payload) as [p|e0]; cbn [may_write];
    [destruct (String.eqb p "write" || String.eqb p "admin")|];
    cbn [negb fst snd app calls_of List.filter is_permission is_task
         is_comment length];
    try (split; [reflexivity|]; split; [lia|]; split; [reflexivity|];
         split; [intros request [H|[H|[]]]; discriminate H|];
         split; [lia|];
         split; [intros c [<-|[<-|[]]] Hc; try discriminate Hc; eauto|];
         intros e He; eexists; split; [reflexivity | exact He]).
  destruct (listLanguages env _ _) as [languages|e1];
    (destruct (axios_post env _) as [response|e2];
     [destruct (partialSign env _) as [signed|e3];
      [destruct (comment_answer env payload (BountyCreated _ _ _)) as [[]|e4]|]|]);
    cbn [negb fst snd app calls_of List.filter is_permission is_task
         is_comment length];
    (split; [reflexivity|]; split; [lia|]; split; [discriminate|];
     split; [intros request H;
             repeat (destruct H as [H|H]; try discriminate H);
             try contradiction; injection H as <-; now apply Hreq|];
     split; [lia|];
     split; [intros c H Hc;
             repeat (destruct H as [<-|H]; try discriminate Hc; eauto);
             contradiction|];
     intros e He; try discriminate He;
     eexists; (split; [reflexivity | exact He])).
Qed.

End HandlerProperties.

Section WalletKey.
Import Regex RegexFacts RegexExact Webhook.

Lemma length_list_ascii (s : string) :
  length (list_ascii_of_string s) = String.length s.
Proof. induction s; simpl; congruence. Qed.

Lemma base58_key_iff key :
  match_whole base58_regex key <> None <->
  (88 <= String.length key)%nat /\
  forallb base58_char (list_ascii_of_string key) = true.
Proof.
  split.
  - destruct (match_whole base58_regex key) as [c|] eqn:E; [|congruence].
    intros _. apply WebhookFacts.match_whole_sound in E.
    unfold base58_regex in E. cbn [sem] in E.
    destruct E as (n & Hn & _ & Hi). apply iter_class in Hi.
    destruct Hi as (_ & Hl & Hp). rewrite <- length_list_ascii. split; [lia|].
    exact Hp.
  - intros [Hl Hp]. unfold match_whole, base58_regex.
    pose proof (exec_class_greedy base58_char 88 None
                  (list_ascii_of_string key) [] []
                  (fun rest groups =>
                     match rest with [] => Some groups | _ :: _ => None end)
                  [] Hp (or_intror I)) as E.
    rewrite app_nil_r, length_list_ascii in E.
    rewrite (E Hl I eq_refl). discriminate.
Qed.

(** X29.  The secret key is read as base 58 exactly when it is made of at
    least 88 characters of the base 58 alphabet, and as a JSON array
    exactly when it starts and ends with square brackets; it is read as
    base 64 otherwise.  When the key cannot be read, the cause is logged
    and the error that is thrown says that the format is invalid. *)
Theorem key_format_is_chosen (key : string) :
  (key_format key = Base58 <->
   (88 <= String.length key)%nat /\
   forallb base58_char (list_ascii_of_string key) = true) /\
  (key_format key = JsonArray <->
   startsWith "[" key = true /\ endsWith "]" key = true) /\
  (forall decoders e,
     snd (load_wallet decoders key) = Throws e ->
     e = new_Error "Invalid private key format" /\
     exists cause,
       fst (load_wallet decoders key)
       = [ConsoleError "Error creating keypair from private key:" cause]).
Proof.
  pose proof (base58_key_iff key) as H58.
  split; [|split].
  - unfold key_format.
    destruct (match_whole base58_regex key) as [c|] eqn:E.
    + split; [intros _; apply H58; discriminate | reflexivity].
    + split.
      * destruct (startsWith "[" key && endsWith "]" key); discriminate.
      * intros H. apply H58 in H. congruence.
  - unfold key_format.
    destruct (match_whole base58_regex key) as [c|] eqn:E.
    + split; [discriminate|]. intros [Hs _].
      destruct (proj1 H58 ltac:(discriminate)) as [_ Hp].
      destruct key as [|a key]; [discriminate Hs|].
      simpl in Hs, Hp. apply Ascii.eqb_eq in Hs. subst a. discriminate Hp.
    + destruct (startsWith "[" key) eqn:Hs, (endsWith "]" key) eqn:He;
        cbn [andb]; split; try discriminate; auto; intros [? ?]; discriminate.
  - intros decoders e. unfold load_wallet.
    destruct (key_format key);
      cbn [try_catch bind lift console_error throw fst snd app];
      repeat match goal with
             | |- context [bs58_decode decoders key] =>
                 destruct (bs58_decode decoders key)
             | |- context [json_bytes decoders key] =>
                 destruct (json_bytes decoders key)
             | |- context [fromSecretKey decoders ?x] =>
                 destruct (fromSecretKey decoders x)
             end;
      cbn [try_catch bind lift console_error throw fst snd app];
      intros H; try discriminate H; injection H as <-;
      (split; [reflexivity | eexists; reflexivity]).
Qed.

End WalletKey.

(** The scenarios of the server. *)

Lemma parsers_agree_witness :
  parseBountyCommand Example.config
    (Example.comment 10 HookScenario.command_text "alice")
  = Some {| amount := Webhook.amount HookScenario.command;
            tokenAddress := Webhook.mintAddress HookScenario.command;
            issueUrl := issue_url
                          (Example.comment 10 HookScenario.command_text "alice") |}.
Proof.
  apply (parsers_agree Example.config
           (Example.comment 10 HookScenario.command_text "alice")
           HookScenario.command).
  - vm_compute. reflexivity.
  - simpl. lia.
  - reflexivity.
Defined.

Lemma comment_that_is_no_command_witness :
  Webhook.on_issue_comment_created "WALLET" HookScenario.env
    (HookScenario.payload "thanks, /bounty 5 later" "alice" None)
  = ([], Returns tt).
Proof.
  apply (comment_that_is_no_command_is_ignored "WALLET" HookScenario.env
           (HookScenario.payload "thanks, /bounty 5 later" "alice" None)).
  intros amt addr Hc. apply WebhookFacts.match_whole_command in Hc.
  vm_compute in Hc. discriminate Hc.
Defined.

Lemma author_without_permission_witness :
  Webhook.calls_of
    (fst (Webhook.on_issue_comment_created "WALLET" HookScenario.env
            (HookScenario.payload HookScenario.command_text "mallory" None)))
  = [Webhook.GetPermission "octo" "repo" "mallory";
     Webhook.comment_call
       (HookScenario.payload HookScenario.command_text "mallory" None)
       (Webhook.NotAuthorized "mallory")] /\
  snd (Webhook.on_issue_comment_created "WALLET" HookScenario.env
         (HookScenario.payload HookScenario.command_text "mallory" None))
  = Webhook.comment_answer HookScenario.env
      (HookScenario.payload HookScenario.command_text "mallory" None)
      (Webhook.NotAuthorized "mallory").
Proof.
  apply (author_without_permission_is_told "WALLET" HookScenario.env
           (HookScenario.payload HookScenario.command_text "mallory" None)
           HookScenario.command).
  - vm_compute. reflexivity.
  - reflexivity.
Defined.

Lemma permitted_command_witness :
  Webhook.calls_of
    (fst (Webhook.on_issue_comment_created "WALLET" HookScenario.env
            (HookScenario.payload HookScenario.command_text "alice" None)))
  = [Webhook.GetPermission "octo" "repo" "alice";
     Webhook.ListLanguages "octo" "repo";
     Webhook.PostTask
       (Webhook.task_of "WALLET" HookScenario.env
          (HookScenario.payload HookScenario.command_text "alice" None)
          HookScenario.command);
     Webhook.comment_call
       (HookScenario.payload HookScenario.command_text "alice" None)
       (Webhook.BountyCreated (taskId Example.response)
          (Webhook.amount HookScenario.command)
          (Webhook.mintAddress HookScenario.command))] /\
  snd (Webhook.on_issue_comment_created "WALLET" HookScenario.env
         (HookScenario.payload HookScenario.command_text "alice" None))
  = Returns tt.
Proof.
  apply (permitted_command_creates_a_task "WALLET" HookScenario.env
           (HookScenario.payload HookScenario.command_text "alice" None)
           HookScenario.command Example.response "AQID").
  - vm_compute. reflexivity.
  - reflexivity.
  - reflexivity.
  - reflexivity.
  - reflexivity.
Defined.

Lemma handler_is_careful_witness :
  length
    (List.filter Webhook.is_task
       (Webhook.calls_of
          (fst (Webhook.on_issue_comment_created "WALLET" HookScenario.env
                  (HookScenario.payload HookScenario.command_text "alice"
                     (Some ""))))))
  <= 1.
Proof.
  apply (handler_is_careful "WALLET" HookScenario.env
           (HookScenario.payload HookScenario.command_text "alice" (Some ""))
           HookScenario.command).
  vm_compute. reflexivity.
Defined.
